(** * Threat-circle geometry of the traveling-uav planner

    A shallow embedding of [geometry/circle.py] (class [Circle]) over the
    real numbers.  Python floats are read as exact reals: every statement
    below is about the arithmetic the code writes down, not about IEEE
    rounding.  The embedding follows the class method by method; the helper
    modules the class imports ([geometry.coord], [geometry.segment],
    [geometry.path], [geometry.geometric]) and the shapely calls it makes are
    modelled in their own sections, each marked as such. *)

From Stdlib Require Import Reals Lra Lia List Arith ZArith.
Import ListNotations.
Open Scope R_scope.

(** ** Comparisons as Python evaluates them *)

Definition Rltb (x y : R) : bool := if Rlt_dec x y then true else false.
Definition Rleb (x y : R) : bool := if Rle_dec x y then true else false.

(** ** Outcomes of a call

    A call returns a value, raises a Python exception, or (for the loops,
    which are run on fuel) has not finished when the fuel is spent. *)

Inductive exn : Type :=
| IndexError
| ValueError.

Inductive outcome (A : Type) : Type :=
| Return (a : A)
| Raise (e : exn)
| OutOfFuel.

Arguments Return {A} a.
Arguments Raise {A} e.
Arguments OutOfFuel {A}.

Definition bind {A B : Type} (m : outcome A) (k : A -> outcome B) : outcome B :=
  match m with
  | Return a => k a
  | Raise e => Raise e
  | OutOfFuel => OutOfFuel
  end.

Notation "x <- m ;; k" := (bind m (fun x => k))
  (at level 61, m at next level, right associativity).

(** ** [geometry.coord]: points of the plane *)

Record Coord : Type := mkCoord { x : R; y : R }.

(** Modelled from the spec: [Coord.distance_to] ([geometry/coord.py] is not
    part of the sources at hand); section 3 gives it as the Euclidean
    distance to another point. *)
Definition distance_to (p q : Coord) : R :=
  sqrt ((x p - x q) * (x p - x q) + (y p - y q) * (y p - y q)).

(** Modelled from the spec: [Coord.shifted] ([geometry/coord.py]); section 3
    gives it as the polar translation by a signed distance along an angle. *)
Definition shifted (p : Coord) (distance angle : R) : Coord :=
  mkCoord (x p + distance * cos angle) (y p + distance * sin angle).

(** [math.atan2] on reals (signed zeros do not exist here). *)
Definition atan2 (dy dx : R) : R :=
  if Rlt_dec 0 dx then atan (dy / dx)
  else if Rlt_dec dx 0 then
         (if Rle_dec 0 dy then atan (dy / dx) + PI else atan (dy / dx) - PI)
  else if Rlt_dec 0 dy then PI / 2
  else if Rlt_dec dy 0 then - (PI / 2)
  else 0.

(** ** [geometry.segment] *)

Record Segment : Type := mkSegment { seg_a : Coord; seg_b : Coord }.

(** Modelled from the spec: [Segment.length] and [Segment.angle]
    ([geometry/segment.py]); section 3: [length = dist(a,b)],
    [angle = atan2(b.y-a.y, b.x-a.x)]. *)
Definition length_of (s : Segment) : R := distance_to (seg_a s) (seg_b s).

Definition angle_of (s : Segment) : R :=
  atan2 (y (seg_b s) - y (seg_a s)) (x (seg_b s) - x (seg_a s)).

(** ** [geometry.path] *)

(** Modelled from the spec: [Path.segments] and the path length
    ([geometry/path.py]); section 3: [segments[i] = Segment(points[i],
    points[i+1])], [length] the sum of their lengths. *)
Fixpoint segments (points : list Coord) : list Segment :=
  match points with
  | [] => []
  | p :: rest =>
      match rest with
      | [] => []
      | q :: _ => mkSegment p q :: segments rest
      end
  end.

Definition path_length (points : list Coord) : R :=
  fold_right Rplus 0 (map length_of (segments points)).

(** ** [geometry.geometric] *)

(** Modelled from the spec: [calculate_directional_angle_of_line]
    ([geometry/geometric.py]); sections 3 and 4.2 call it the directional
    angle of the line from [start] to [end], the angular position of [end]
    as seen from [start]. *)
Definition calculate_directional_angle_of_line (start end_ : Coord) : R :=
  atan2 (y end_ - y start) (x end_ - x start).

(** Modelled from the spec: [calculate_points_in_distance_on_circle]
    ([geometry/geometric.py]); section 4.2: the (at most two) points on the
    circle of the given centre and radius whose distance from [point] equals
    [chord].  They are the two intersections of that circle with the circle
    of radius [chord] about [point]: the foot [m] of the common chord lies
    at signed distance [a] from the centre on the ray to [point], and the
    two points lie [h] to either side of it.  No such point: empty list. *)
Definition calculate_points_in_distance_on_circle
    (center : Coord) (radius : R) (point : Coord) (chord : R) : list Coord :=
  let d := distance_to center point in
  let a := (radius * radius - chord * chord + d * d) / (2 * d) in
  let h2 := radius * radius - a * a in
  if Rle_dec d 0 then []
  else if Rlt_dec h2 0 then []
  else
    let ux := (x point - x center) / d in
    let uy := (y point - y center) / d in
    let h := sqrt h2 in
    [ mkCoord (x center + a * ux - h * uy) (y center + a * uy + h * ux);
      mkCoord (x center + a * ux + h * uy) (y center + a * uy - h * ux) ].

(** ** shapely, as far as the class uses it

    A polygon is the list of coordinates of its exterior ring. *)

Definition Polygon : Type := list Coord.

(** [Point.buffer(r, resolution=n)]: GEOS approximates the circle of radius
    [r] by the closed ring of [4 * n] vertices on it, a quarter turn every
    [n] of them, starting on the positive x axis and running clockwise. *)
Definition buffer (p : Coord) (r : R) (resolution : nat) : Polygon :=
  map (fun k => shifted p r (- (INR k * (PI / 2 / INR resolution))))
      (seq 0 (4 * resolution + 1)).

(** The point a fraction [t] of the way from [p] to [q]. *)
Definition mix (t : R) (p q : Coord) : Coord :=
  mkCoord (x p + t * (x q - x p)) (y p + t * (y q - y p)).

(** The convex hull of a list of points, as a region: the least set that
    holds the points and, with two points, the segment between them.  It is
    the region of [Polygon(points).convex_hull], and the region of a convex
    polygon such as a buffered point is the hull of its ring. *)
Inductive in_hull (points : list Coord) : Coord -> Prop :=
| hull_point (p : Coord) : In p points -> in_hull points p
| hull_mix (t : R) (p q : Coord) :
    0 <= t <= 1 -> in_hull points p -> in_hull points q ->
    in_hull points (mix t p q).

(** A point of the hull is on its boundary when points outside the hull lie
    arbitrarily close to it, and in its interior otherwise. *)
Definition hull_interior (points : list Coord) (p : Coord) : Prop :=
  exists eps, 0 < eps /\ forall q, distance_to q p < eps -> in_hull points q.

Definition on_hull_boundary (points : list Coord) (p : Coord) : Prop :=
  in_hull points p /\
  forall eps, 0 < eps -> exists q, distance_to q p < eps /\ ~ in_hull points q.

(** [hull.intersection(segment.to_shapely).coords], as a relation between
    the call and the coordinate list it returns.  The part of a segment
    inside a convex region is empty, one point, or the stretch between two
    parameters; the geometry returned is accordingly empty, a point, or a
    line with two coordinates (in either order). *)
Inductive hull_intersection (points : list Coord) (s : Segment)
    : list Coord -> Prop :=
| hull_missed :
    (forall t, 0 <= t <= 1 -> ~ in_hull points (mix t (seg_a s) (seg_b s))) ->
    hull_intersection points s []
| hull_touched (t0 : R) :
    0 <= t0 <= 1 ->
    (forall t, 0 <= t <= 1 ->
               (in_hull points (mix t (seg_a s) (seg_b s)) <-> t = t0)) ->
    hull_intersection points s [mix t0 (seg_a s) (seg_b s)]
| hull_crossed (t0 t1 : R) :
    0 <= t0 -> t0 < t1 -> t1 <= 1 ->
    (forall t, 0 <= t <= 1 ->
               (in_hull points (mix t (seg_a s) (seg_b s)) <-> t0 <= t <= t1)) ->
    hull_intersection points s
      [mix t0 (seg_a s) (seg_b s); mix t1 (seg_a s) (seg_b s)]
| hull_crossed_back (t0 t1 : R) :
    0 <= t0 -> t0 < t1 -> t1 <= 1 ->
    (forall t, 0 <= t <= 1 ->
               (in_hull points (mix t (seg_a s) (seg_b s)) <-> t0 <= t <= t1)) ->
    hull_intersection points s
      [mix t1 (seg_a s) (seg_b s); mix t0 (seg_a s) (seg_b s)].

(** [Polygon(points)]: a ring needs three coordinates. *)
Definition Polygon_of (points : list Coord) : outcome Polygon :=
  if (length points <? 3)%nat then Raise ValueError else Return points.

(** ** [geometry/circle.py] *)

Definition INF : R := 1000.

Definition BUFFER_RESOLUTION : nat := 40.
Definition ANGLE_STEP : R := PI / INR BUFFER_RESOLUTION.
Definition EPSILON : R := 1.

(** The fields of a [Circle].  [_boundary] is [None] until the boundary is
    first read. *)
Record Circle : Type := mkCircle {
  _center : Coord;
  _radius : R;
  _inner_polygon : Polygon;
  _outer_polygon : Polygon;
  _boundary : option (list Coord)
}.

(** [Circle.__init__] *)
Definition Circle_init (center : Coord) (radius : R) : Circle :=
  {| _center := center;
     _radius := radius;
     _inner_polygon := buffer center radius BUFFER_RESOLUTION;
     _outer_polygon := buffer center (radius + EPSILON) BUFFER_RESOLUTION;
     _boundary := None |}.

Definition center (c : Circle) : Coord := _center c.
Definition radius (c : Circle) : R := _radius c.
Definition perimeter (c : Circle) : R := 2 * PI * _radius c.
Definition inner_polygon (c : Circle) : Polygon := _inner_polygon c.
Definition outer_polygon (c : Circle) : Polygon := _outer_polygon c.
Definition to_shapely (c : Circle) : Polygon := _inner_polygon c.

(** [Circle.contains] *)
Definition contains (c : Circle) (coord : Coord) : bool :=
  Rleb (distance_to coord (center c)) (radius c).

(** [inner_polygon.intersection(segment.to_shapely).length]: the length of
    the part of the segment inside the inner region.  The inner polygon
    stands for the closed disk of the circle (spec, section 3), so this is
    the length of the stretch of the segment within [radius] of the centre:
    with the segment run as [A + t (B - A)], [0 <= t <= 1], the squared
    distance to the centre minus [radius^2] is [qa t^2 + qb t + qc], which
    is at most zero between its roots [t1 <= t2].  The ring shapely clips
    by is inscribed in that disk: what the code computes is never more than
    this length and falls short of it by the polygon approximation, so the
    properties below are bounds, sums and symmetries, which hold of both. *)
Definition intersection_length (c : Circle) (s : Segment) : R :=
  let dx := x (seg_b s) - x (seg_a s) in
  let dy := y (seg_b s) - y (seg_a s) in
  let ex := x (seg_a s) - x (center c) in
  let ey := y (seg_a s) - y (center c) in
  let qa := dx * dx + dy * dy in
  let qb := 2 * (ex * dx + ey * dy) in
  let qc := ex * ex + ey * ey - radius c * radius c in
  let disc := qb * qb - 4 * qa * qc in
  if Rle_dec qa 0 then 0
  else if Rlt_dec disc 0 then 0
  else
    let t1 := (- qb - sqrt disc) / (2 * qa) in
    let t2 := (- qb + sqrt disc) / (2 * qa) in
    let lo := Rmax 0 t1 in
    let hi := Rmin 1 t2 in
    if Rlt_dec lo hi then (hi - lo) * sqrt qa else 0.

(** [sum(...)] *)
Definition sum (l : list R) : R := fold_left Rplus l 0.

(** [Circle.path_intersection_length] *)
Definition path_intersection_length (c : Circle) (path : list Coord) : R :=
  sum (map (intersection_length c) (segments path)).

(** [min(points, key=...)]: the first element whose key is least;
    [ValueError] on an empty sequence. *)
Fixpoint min_from {A : Type} (key : A -> R) (best : A) (l : list A) : A :=
  match l with
  | [] => best
  | p :: l' => min_from key (if Rltb (key p) (key best) then p else best) l'
  end.

Definition min_by {A : Type} (key : A -> R) (l : list A) : outcome A :=
  match l with
  | [] => Raise ValueError
  | p :: l' => Return (min_from key p l')
  end.

(** [Circle.calculate_exit_point] *)
Definition calculate_exit_point (c : Circle) (start : Coord) (chord : R)
    (target : Coord) : outcome Coord :=
  if Rleb (radius c * 2) chord then
    Return (shifted start (2 * radius c) (angle_of (mkSegment start (center c))))
  else
    min_by (fun p => distance_to p target)
           (calculate_points_in_distance_on_circle (center c) (radius c) start chord).

(** [Circle.boundary]: the coordinates of the outer polygon's exterior ring,
    computed at the first access and kept in [_boundary].  The call returns
    the list together with the circle as the call leaves it. *)
Definition boundary (c : Circle) : list Coord * Circle :=
  match _boundary c with
  | None =>
      let X := map x (outer_polygon c) in
      let Y := map y (outer_polygon c) in
      let b := map (fun xy => mkCoord (fst xy) (snd xy)) (combine X Y) in
      (b, {| _center := _center c;
             _radius := _radius c;
             _inner_polygon := _inner_polygon c;
             _outer_polygon := _outer_polygon c;
             _boundary := Some b |})
  | Some b => (b, c)
  end.

(** [Circle.arc_length_between] *)
Definition arc_length_between (c : Circle) (start end_ : Coord) : R :=
  let angle1 := calculate_directional_angle_of_line (center c) start in
  let angle2 := calculate_directional_angle_of_line (center c) end_ in
  Rabs (angle1 - angle2) * radius c.

(** The two [while] loops of [get_boundary_between]: append the point at
    [angle] and advance by [ANGLE_STEP] as long as [angle < bound]. *)
Fixpoint sample_while (fuel : nat) (c : Circle) (angle bound : R)
    (boundary : list Coord) : outcome (list Coord) :=
  if Rltb angle bound then
    match fuel with
    | O => OutOfFuel
    | S fuel' =>
        sample_while fuel' c (angle + ANGLE_STEP) bound
          (boundary ++ [shifted (center c) (radius c + EPSILON) angle])
    end
  else Return boundary.

(** [boundary[0]] *)
Definition first_item {A : Type} (l : list A) : outcome A :=
  match l with
  | [] => Raise IndexError
  | p :: _ => Return p
  end.

(** The [return] line of [get_boundary_between]. *)
Definition oriented (boundary : list Coord) (start end_ : Coord)
    : outcome (list Coord) :=
  b0 <- first_item boundary ;;
  Return (if negb (Rltb (distance_to b0 start) (distance_to b0 end_))
          then rev boundary else boundary).

(** [Circle.get_boundary_between] *)
Definition get_boundary_between (fuel : nat) (c : Circle) (start end_ : Coord)
    : outcome (list Coord) :=
  let angle1 := calculate_directional_angle_of_line (center c) start in
  let angle2 := calculate_directional_angle_of_line (center c) end_ in
  let small_angle := Rmin angle1 angle2 in
  let great_angle := Rmax angle1 angle2 in
  if Rleb (great_angle - small_angle) PI then
    boundary <- sample_while fuel c small_angle great_angle [] ;;
    oriented (boundary ++ [shifted (center c) (radius c + EPSILON) great_angle])
             start end_
  else
    boundary <- sample_while fuel c great_angle (small_angle + 2 * PI) [] ;;
    oriented (boundary ++ [shifted (center c) (radius c + EPSILON) small_angle])
             start end_.

(** ** [random.randint]

    [randint(a, b)] returns an integer [N] with [a <= N <= b] and raises
    [ValueError] when the range is empty.  The generator is the stream of
    the raw integers it has still to give: a call takes the next one, brings
    it into the range, and leaves the rest. *)
Definition Random : Type := nat -> Z.

Definition advance (g : Random) : Random := fun i => g (S i).

Definition randint (a b : Z) (g : Random) : outcome (Z * Random) :=
  if (b <? a)%Z then Raise ValueError
  else Return ((a + g O mod (b - a + 1))%Z, advance g).

(** [Circle.generate_random_threat] *)
Definition generate_random_threat (environment_range radius_range : Z * Z)
    (g : Random) : outcome (Circle * Random) :=
  r <- randint (fst radius_range) (snd radius_range) g ;;
  let rand_radius := fst r in
  let x_range := fst environment_range in
  let y_range := snd environment_range in
  cx <- randint rand_radius (x_range - rand_radius) (snd r) ;;
  cy <- randint rand_radius (y_range - rand_radius) (snd cx) ;;
  Return (Circle_init (mkCoord (IZR (fst cx)) (IZR (fst cy))) (IZR rand_radius),
          snd cy).

(** [Circle.generate_non_intersecting_random_circle].  The test
    [circle.to_shapely.buffer(5).intersects(new_circle.to_shapely.buffer(5))]
    is shapely's: the call is given it as [intersects]; the [for] loop with
    its [break] asks whether some listed circle passes the test. *)
Fixpoint generate_non_intersecting_random_circle (fuel : nat)
    (intersects : Circle -> Circle -> bool) (circles : list Circle)
    (environment_range radius_range : Z * Z) (g : Random)
    : outcome (Circle * Random) :=
  match fuel with
  | O => OutOfFuel
  | S fuel' =>
      new <- generate_random_threat environment_range radius_range g ;;
      if existsb (fun circle => intersects circle (fst new)) circles
      then generate_non_intersecting_random_circle fuel' intersects circles
             environment_range radius_range (snd new)
      else Return new
  end.

(** [intersection_points[i]] *)
Definition item {A : Type} (l : list A) (i : nat) : outcome A :=
  match nth_error l i with
  | Some p => Return p
  | None => Raise IndexError
  end.

(** [Circle.calculate_partition_between_circles].  The intersection of the
    hull with the segment is shapely's; the call is given the coordinate
    list [intersection_coords] that shapely returns for it. *)
Definition calculate_partition_between_circles
    (intersection_coords : list Coord -> Segment -> list Coord)
    (circle1 circle2 : Circle) (source target : Coord)
    (all_circles : list Circle) : outcome Segment :=
  let center1 := center circle1 in
  let center2 := center circle2 in
  let radius1 := radius circle1 in
  let radius2 := radius circle2 in
  let centers_segment := mkSegment center1 center2 in
  let centers_distance := length_of centers_segment in
  let centers_angle := angle_of centers_segment in
  let point_between :=
    shifted center1 ((radius1 + (centers_distance - radius2)) / 2) centers_angle in
  let inf_partition :=
    mkSegment (shifted point_between INF (centers_angle + 0.5 * PI))
              (shifted point_between INF (centers_angle - 0.5 * PI)) in
  let all_shapely_points :=
    fold_left (fun points circle => points ++ to_shapely circle)
              all_circles [source; target] in
  convex_hull <- Polygon_of all_shapely_points ;;
  let intersection_points := intersection_coords convex_hull inf_partition in
  p0 <- item intersection_points 0 ;;
  p1 <- item intersection_points 1 ;;
  Return (mkSegment p0 p1).

(** ** The parts of a partition call, by name

    The point between the two circles on the line of their centres, the
    segment through it across that line, [INF] to either side, and the
    points whose hull is taken: source, target, and the ring of every
    circle's polygon. *)
Definition point_between (circle1 circle2 : Circle) : Coord :=
  shifted (center circle1)
          ((radius circle1
            + (length_of (mkSegment (center circle1) (center circle2)) - radius circle2)) / 2)
          (angle_of (mkSegment (center circle1) (center circle2))).

Definition inf_partition (circle1 circle2 : Circle) : Segment :=
  let centers_angle := angle_of (mkSegment (center circle1) (center circle2)) in
  mkSegment
    (shifted (point_between circle1 circle2) INF (centers_angle + 0.5 * PI))
    (shifted (point_between circle1 circle2) INF (centers_angle - 0.5 * PI)).

Definition all_shapely_points (source target : Coord) (all_circles : list Circle)
    : list Coord :=
  fold_left (fun points circle => points ++ to_shapely circle)
            all_circles [source; target].

(** The straight line through the partition segment cuts the hull in a
    chord: the part of the line inside the hull runs between two distinct
    points. *)
Definition line_cuts_chord (points : list Coord) (s : Segment) (t0 t1 : R) : Prop :=
  t0 < t1 /\
  forall t, in_hull points (mix t (seg_a s) (seg_b s)) <-> t0 <= t <= t1.

(** ** The arc sampling, in the spec's words

    Section 4.2 has [boundaryBetween] sample an angular interval
    [[from, to]] forward at the fixed step: the points at [from],
    [from + step], ... as long as the angle stays below [to], and then the
    point at the far end.  [steps_below from to n] says that exactly [n]
    angles of that progression lie below [to]. *)

Definition point_at (c : Circle) (angle : R) : Coord :=
  shifted (center c) (radius c + EPSILON) angle.

Definition arc_points (c : Circle) (from : R) (n : nat) : list Coord :=
  map (fun k => point_at c (from + INR k * ANGLE_STEP)) (seq 0 n).

Definition steps_below (from to : R) (n : nat) : Prop :=
  (forall k, (k < n)%nat -> from + INR k * ANGLE_STEP < to) /\
  to <= from + INR n * ANGLE_STEP.

Definition sampled_interval (c : Circle) (from to : R) (n : nat) (far_end : R)
    : list Coord :=
  arc_points c from n ++ [point_at c far_end].

(** ** The invariant of a circle

    The region of the inner polygon lies in the region of the outer one
    (and the disk of the radius in the disk of the radius plus [EPSILON]);
    the ring of the outer polygon lies at distance [radius + EPSILON] from
    the centre; the boundary list, once cached, is that ring. *)
Definition circle_invariant (c : Circle) : Prop :=
  (forall p, in_hull (inner_polygon c) p -> in_hull (outer_polygon c) p) /\
  (forall p, contains c p = true -> distance_to p (center c) <= radius c + EPSILON) /\
  (forall p, In p (outer_polygon c) ->
             distance_to p (center c) = radius c + EPSILON) /\
  (forall b, _boundary c = Some b -> b = outer_polygon c).

(** ** A scenario with one threat

    A threat of radius [5] about the origin, a source and a target at
    distance [8] from it on either side; the straight line between them
    crosses the threat. *)
Definition threat5 : Circle := Circle_init (mkCoord 0 0) 5.
Definition source8 : Coord := mkCoord (-8) 0.
Definition target8 : Coord := mkCoord (192 / 25) (56 / 25).

(** ** Scenarios for the partition

    Two unit circles to the west and to the east of the origin: the point
    between them is the origin and the partition segment runs along the y
    axis from [(0, 1000)] to [(0, -1000)].  In the first scenarios the hull
    is that of a circle of radius [100] centred on the y axis at a height
    [h], with source and target inside it to the left and to the right of
    its centre; the y axis crosses it from [(0, h - 100)] to [(0, h + 100)].
    In the last one the hull is that of the two unit circles and of a source
    and a target far up and down the y axis. *)
Definition west1 : Circle := Circle_init (mkCoord (-10) 0) 1.
Definition east1 : Circle := Circle_init (mkCoord 10 0) 1.
Definition pillar (h : R) : Circle := Circle_init (mkCoord 0 h) 100.
Definition left_of (h : R) : Coord := mkCoord (-50) h.
Definition right_of (h : R) : Coord := mkCoord 50 h.
Definition far_north : Coord := mkCoord 0 5000.
Definition far_south : Coord := mkCoord 0 (-5000).

(** The coordinate list shapely returns in the scenario at height [0]: the
    segment is cut at [(0, 100)] and [(0, -100)]. *)
Definition coords_at_height_0 (points : list Coord) (s : Segment) : list Coord :=
  [mix (9 / 20) (seg_a s) (seg_b s); mix (11 / 20) (seg_a s) (seg_b s)].

(** ** A scenario for the random circles

    An intersection test that takes the buffered polygons for disks (two
    circles intersect when their rims are at most [10] apart), one circle
    in the lower left corner of the environment, and a generator that gives
    [0] three times and [500] from then on: the first draw falls on the
    listed circle, the second far from it. *)
Definition rims_within_10 (circle new_circle : Circle) : bool :=
  Rleb (distance_to (center circle) (center new_circle))
       (radius circle + radius new_circle + 10).

Definition corner50 : Circle := Circle_init (mkCoord 50 50) 50.

Definition zeros_then_500 : Random :=
  fun i => if (i <? 3)%nat then 0%Z else 500%Z.

(** * Properties *)

(** ** Comparisons *)

Lemma Rltb_true x y : Rltb x y = true <-> x < y.
Proof. unfold Rltb; destruct (Rlt_dec x y); split; intros; try easy. Qed.

Lemma Rltb_false x y : Rltb x y = false <-> y <= x.
Proof.
  unfold Rltb; destruct (Rlt_dec x y); split; intros; try easy; lra.
Qed.

Lemma Rleb_true x y : Rleb x y = true <-> x <= y.
Proof. unfold Rleb; destruct (Rle_dec x y); split; intros; try easy. Qed.

Lemma Rleb_false x y : Rleb x y = false <-> y < x.
Proof.
  unfold Rleb; destruct (Rle_dec x y); split; intros; try easy; lra.
Qed.

(** ** Points and distances *)

Lemma Coord_eq (p q : Coord) : x p = x q -> y p = y q -> p = q.
Proof. destruct p, q; simpl; intros -> ->; reflexivity. Qed.

Lemma sum_sqr_nonneg (a b : R) : 0 <= a * a + b * b.
Proof.
  pose proof (Rle_0_sqr a) as Ha; pose proof (Rle_0_sqr b) as Hb.
  unfold Rsqr in *; lra.
Qed.

Lemma distance_to_nonneg p q : 0 <= distance_to p q.
Proof. apply sqrt_pos. Qed.

Lemma distance_to_sym p q : distance_to p q = distance_to q p.
Proof. unfold distance_to; f_equal; ring. Qed.

Lemma distance_to_sqr p q :
  distance_to p q * distance_to p q =
  (x p - x q) * (x p - x q) + (y p - y q) * (y p - y q).
Proof. unfold distance_to; apply sqrt_sqrt, sum_sqr_nonneg. Qed.

(** A distance is settled by its square. *)
Lemma distance_to_eq p q d :
  0 <= d ->
  (x p - x q) * (x p - x q) + (y p - y q) * (y p - y q) = d * d ->
  distance_to p q = d.
Proof.
  intros Hd H; unfold distance_to; rewrite H; apply sqrt_square; exact Hd.
Qed.

(** ** C9: containment *)

(** C9.  [contains(p)] is true exactly when the Euclidean distance from [p]
    to the centre is at most the radius; a point at distance exactly the
    radius is therefore contained. *)
Theorem contains_iff_within_radius (c : Circle) (p : Coord) :
  (contains c p = true <->
   sqrt ((x p - x (center c)) * (x p - x (center c)) +
         (y p - y (center c)) * (y p - y (center c))) <= radius c)
  /\ (distance_to p (center c) = radius c -> contains c p = true).
Proof.
  split.
  - unfold contains; rewrite Rleb_true; unfold distance_to; tauto.
  - intros H; unfold contains; apply Rleb_true; lra.
Qed.

(** ** [atan2]: range and polar form *)

Lemma atan2_bound dy dx : - PI < atan2 dy dx <= PI.
Proof.
  unfold atan2; pose proof PI_RGT_0 as HPI.
  pose proof (atan_bound (dy / dx)) as Hb.
  destruct (Rlt_dec 0 dx) as [Hx | Hx]; [lra |].
  destruct (Rlt_dec dx 0) as [Hx' | Hx'].
  - destruct (Rle_dec 0 dy) as [Hy | Hy].
    + assert (atan (dy / dx) <= 0); [| lra].
      destruct (Req_dec dy 0) as [-> | Hne].
      * unfold Rdiv; rewrite Rmult_0_l, atan_0; lra.
      * rewrite <- atan_0; left; apply atan_increasing.
        apply Rmult_pos_neg; [lra |]. apply Rinv_lt_0_compat; exact Hx'.
    + assert (0 < atan (dy / dx)); [| lra].
      rewrite <- atan_0; apply atan_increasing.
      replace (dy / dx) with ((- dy) * / (- dx)) by (field; lra).
      apply Rmult_lt_0_compat; [lra |]. apply Rinv_0_lt_compat; lra.
  - destruct (Rlt_dec 0 dy); [lra |]. destruct (Rlt_dec dy 0); lra.
Qed.

Lemma hypot_factor dx dy :
  dx <> 0 ->
  sqrt (dx * dx + dy * dy) = Rabs dx * sqrt (1 + (dy / dx)²).
Proof.
  intros Hx.
  replace (dx * dx + dy * dy) with ((dx * dx) * (1 + (dy / dx)²))
    by (unfold Rsqr; field; exact Hx).
  rewrite sqrt_mult.
  - f_equal. rewrite <- (sqrt_Rsqr_abs dx); reflexivity.
  - apply Rle_0_sqr.
  - pose proof (Rle_0_sqr (dy / dx)); lra.
Qed.

Lemma sqrt_1_sqr_pos t : 0 < sqrt (1 + t²).
Proof. apply sqrt_lt_R0. pose proof (Rle_0_sqr t); lra. Qed.

(** The polar form of a vector: its length times the unit vector at its
    [atan2] angle.  It holds for the null vector too. *)
Lemma atan2_polar dy dx :
  dx = sqrt (dx * dx + dy * dy) * cos (atan2 dy dx) /\
  dy = sqrt (dx * dx + dy * dy) * sin (atan2 dy dx).
Proof.
  unfold atan2.
  destruct (Rlt_dec 0 dx) as [Hx | Hx].
  - rewrite hypot_factor by lra. rewrite Rabs_right by lra.
    rewrite cos_atan, sin_atan.
    pose proof (sqrt_1_sqr_pos (dy / dx)).
    split; field; lra.
  - destruct (Rlt_dec dx 0) as [Hx' | Hx'].
    + rewrite hypot_factor by lra. rewrite Rabs_left by lra.
      pose proof (sqrt_1_sqr_pos (dy / dx)).
      destruct (Rle_dec 0 dy).
      * rewrite neg_cos, neg_sin, cos_atan, sin_atan. split; field; lra.
      * rewrite cos_minus, sin_minus, cos_PI, sin_PI, cos_atan, sin_atan.
        split; field; lra.
    + assert (dx = 0) as -> by lra.
      replace (0 * 0 + dy * dy) with (dy * dy) by ring.
      destruct (Rlt_dec 0 dy) as [Hy | Hy].
      * rewrite cos_PI2, sin_PI2, sqrt_square by lra. lra.
      * destruct (Rlt_dec dy 0) as [Hy' | Hy'].
        -- rewrite cos_neg, sin_neg, cos_PI2, sin_PI2.
           replace (dy * dy) with ((- dy) * (- dy)) by ring.
           rewrite sqrt_square by lra. lra.
        -- assert (dy = 0) as -> by lra.
           rewrite Rmult_0_l, sqrt_0. lra.
Qed.

(** [atan2] by quadrant, for evaluating it at given points. *)
Lemma atan2_right dy dx : 0 < dx -> atan2 dy dx = atan (dy / dx).
Proof. intros H; unfold atan2; destruct (Rlt_dec 0 dx); [reflexivity | lra]. Qed.

Lemma atan2_left_up dy dx :
  dx < 0 -> 0 <= dy -> atan2 dy dx = atan (dy / dx) + PI.
Proof.
  intros Hx Hy; unfold atan2.
  destruct (Rlt_dec 0 dx); [lra |]. destruct (Rlt_dec dx 0); [| lra].
  destruct (Rle_dec 0 dy); [reflexivity | lra].
Qed.

Lemma atan2_left_down dy dx :
  dx < 0 -> dy < 0 -> atan2 dy dx = atan (dy / dx) - PI.
Proof.
  intros Hx Hy; unfold atan2.
  destruct (Rlt_dec 0 dx); [lra |]. destruct (Rlt_dec dx 0); [| lra].
  destruct (Rle_dec 0 dy); [lra | reflexivity].
Qed.

Lemma atan2_up dy : 0 < dy -> atan2 dy 0 = PI / 2.
Proof.
  intros Hy; unfold atan2.
  destruct (Rlt_dec 0 0); [lra |]. destruct (Rlt_dec 0 dy); [reflexivity | lra].
Qed.

Lemma atan2_down dy : dy < 0 -> atan2 dy 0 = - (PI / 2).
Proof.
  intros Hy; unfold atan2.
  destruct (Rlt_dec 0 0); [lra |]. destruct (Rlt_dec 0 dy); [lra |].
  destruct (Rlt_dec dy 0); [reflexivity | lra].
Qed.

Lemma atan2_0_0 : atan2 0 0 = 0.
Proof.
  unfold atan2. destruct (Rlt_dec 0 0); [lra |]. reflexivity.
Qed.

Lemma atan2_east dx : 0 < dx -> atan2 0 dx = 0.
Proof.
  intros H; rewrite atan2_right by exact H.
  unfold Rdiv; rewrite Rmult_0_l; apply atan_0.
Qed.

Lemma atan2_west dx : dx < 0 -> atan2 0 dx = PI.
Proof.
  intros H; rewrite atan2_left_up by lra.
  unfold Rdiv; rewrite Rmult_0_l, atan_0; ring.
Qed.

(** ** C5: arc length *)

(** C5.  [arc_length_between(start, end)] is exactly [|theta1 - theta2| *
    radius] for the directional angles of [start] and [end] seen from the
    centre.  The difference is taken as it comes: when it exceeds [pi] (and
    the radius is positive) the result exceeds [pi * radius], more than any
    minor arc measures. *)
Theorem arc_length_between_raw_difference (c : Circle) (start end_ : Coord) :
  arc_length_between c start end_ =
    Rabs (calculate_directional_angle_of_line (center c) start -
          calculate_directional_angle_of_line (center c) end_) * radius c
  /\ (0 < radius c ->
      PI < Rabs (calculate_directional_angle_of_line (center c) start -
                 calculate_directional_angle_of_line (center c) end_) ->
      PI * radius c < arc_length_between c start end_).
Proof.
  split; [reflexivity |].
  intros Hr Hbig; unfold arc_length_between.
  apply Rmult_lt_compat_r; assumption.
Qed.

(** Inputs of the second kind exist: seen from the origin, [(-1, 1)] and
    [(-1, -1)] lie at angles [3 pi / 4] and [- 3 pi / 4], and the call
    measures the major arc between them. *)
Lemma arc_length_between_major_arc :
  PI * radius (Circle_init (mkCoord 0 0) 2) <
  arc_length_between (Circle_init (mkCoord 0 0) 2) (mkCoord (-1) 1) (mkCoord (-1) (-1)).
Proof.
  apply (arc_length_between_raw_difference
           (Circle_init (mkCoord 0 0) 2) (mkCoord (-1) 1) (mkCoord (-1) (-1))).
  - simpl; lra.
  - unfold calculate_directional_angle_of_line; simpl.
    rewrite atan2_left_up by lra. rewrite atan2_left_down by lra.
    replace (1 - 0) with 1 by ring.
    replace ((-1 - 0) / (-1 - 0)) with 1 by (field; lra).
    replace (1 / (-1 - 0)) with (Ropp 1) by (field; lra).
    rewrite atan_opp, atan_1.
    pose proof PI_RGT_0.
    rewrite Rabs_right; lra.
Defined.

(** ** The sampling loops *)

Lemma INR_BUFFER_RESOLUTION : INR BUFFER_RESOLUTION = 40.
Proof. unfold BUFFER_RESOLUTION; rewrite INR_IZR_INZ; reflexivity. Qed.

Lemma ANGLE_STEP_pos : 0 < ANGLE_STEP.
Proof.
  unfold ANGLE_STEP; rewrite INR_BUFFER_RESOLUTION.
  pose proof PI_RGT_0; lra.
Qed.

Lemma half_turn_in_steps : INR BUFFER_RESOLUTION * ANGLE_STEP = PI.
Proof. unfold ANGLE_STEP; rewrite INR_BUFFER_RESOLUTION; field. Qed.

Lemma arc_points_S c from n :
  arc_points c from (S n) = point_at c from :: arc_points c (from + ANGLE_STEP) n.
Proof.
  unfold arc_points. cbn [seq map]. rewrite <- seq_shift, map_map.
  f_equal.
  - f_equal; simpl; ring.
  - apply map_ext; intros k; f_equal; rewrite S_INR; ring.
Qed.

(** The loop run on enough fuel appends the progression of the interval. *)
Lemma sample_while_run c bound :
  forall n fuel angle acc,
    (n <= fuel)%nat ->
    steps_below angle bound n ->
    sample_while fuel c angle bound acc = Return (acc ++ arc_points c angle n).
Proof.
  induction n as [| n IH]; intros fuel angle acc Hfuel [Hin Hout].
  - simpl in Hout. assert (Rltb angle bound = false) as Hb
      by (apply Rltb_false; lra).
    destruct fuel; simpl; rewrite Hb; unfold arc_points; simpl;
      rewrite app_nil_r; reflexivity.
  - assert (Rltb angle bound = true) as Hb.
    { apply Rltb_true. specialize (Hin 0%nat ltac:(lia)). simpl in Hin. lra. }
    destruct fuel as [| fuel]; [lia |].
    simpl; rewrite Hb. rewrite IH.
    + rewrite arc_points_S, <- app_assoc; reflexivity.
    + lia.
    + split.
      * intros k Hk. specialize (Hin (S k) ltac:(lia)).
        rewrite S_INR in Hin. lra.
      * rewrite S_INR in Hout. lra.
Qed.

(** An interval no longer than [m] steps holds at most [m] sample angles. *)
Lemma steps_below_exists :
  forall m from to,
    to - from <= INR m * ANGLE_STEP ->
    exists n, (n <= m)%nat /\ steps_below from to n.
Proof.
  induction m as [| m IH]; intros from to Hlen.
  - exists 0%nat; split; [lia |]. split; [intros k Hk; lia |].
    simpl in *; lra.
  - destruct (Rlt_dec from to) as [Hlt | Hge].
    + destruct (IH (from + ANGLE_STEP) to) as [n [Hn [Hin Hout]]].
      { rewrite S_INR in Hlen. lra. }
      exists (S n); split; [lia |]. split.
      * intros [| k] Hk; [simpl; lra |].
        specialize (Hin k ltac:(lia)). rewrite S_INR. lra.
      * rewrite S_INR. lra.
    + exists 0%nat; split; [lia |]. split; [intros k Hk; lia |].
      simpl; lra.
Qed.

Lemma steps_below_unique from to n n' :
  steps_below from to n -> steps_below from to n' -> n = n'.
Proof.
  pose proof ANGLE_STEP_pos as Hs.
  intros [Hin Hout] [Hin' Hout'].
  destruct (Nat.lt_trichotomy n n') as [H | [H | H]]; [| exact H |].
  - specialize (Hin' n H). lra.
  - specialize (Hin n' H). lra.
Qed.

Lemma sampled_interval_not_nil c from to n far_end :
  sampled_interval c from to n far_end <> [].
Proof.
  unfold sampled_interval; intros H; apply app_eq_nil in H; destruct H; discriminate.
Qed.

Lemma sample_while_no_raise c bound e :
  forall fuel angle acc, sample_while fuel c angle bound acc <> Raise e.
Proof.
  induction fuel as [| fuel IH]; intros angle acc; simpl;
    destruct (Rltb angle bound); try discriminate. apply IH.
Qed.

Lemma oriented_cons b0 l start end_ :
  oriented (b0 :: l) start end_ =
  Return (if negb (Rltb (distance_to b0 start) (distance_to b0 end_))
          then rev (b0 :: l) else b0 :: l).
Proof. reflexivity. Qed.

Lemma oriented_sampled c from to n far_end start end_ :
  oriented (sampled_interval c from to n far_end) start end_ =
  Return (if negb (Rltb (distance_to (hd start (sampled_interval c from to n far_end)) start)
                        (distance_to (hd start (sampled_interval c from to n far_end)) end_))
          then rev (sampled_interval c from to n far_end)
          else sampled_interval c from to n far_end).
Proof.
  pose proof (sampled_interval_not_nil c from to n far_end) as Hne.
  destruct (sampled_interval c from to n far_end) as [| b0 l]; [easy |].
  apply oriented_cons.
Qed.

(** ** [get_boundary_between]: what a call computes

    [BUFFER_RESOLUTION] rounds of fuel are always enough: either interval
    is at most a half turn long.  The call then orients the sampling of the
    direct interval, or of the wraparound one. *)
Lemma get_boundary_between_run c start end_ extra :
  let lo := Rmin (calculate_directional_angle_of_line (center c) start)
                 (calculate_directional_angle_of_line (center c) end_) in
  let hi := Rmax (calculate_directional_angle_of_line (center c) start)
                 (calculate_directional_angle_of_line (center c) end_) in
  exists n,
    (n <= BUFFER_RESOLUTION)%nat /\
    ((hi - lo <= PI /\ steps_below lo hi n /\
      get_boundary_between (BUFFER_RESOLUTION + extra) c start end_ =
        oriented (sampled_interval c lo hi n hi) start end_)
     \/
     (PI < hi - lo /\ steps_below hi (lo + 2 * PI) n /\
      get_boundary_between (BUFFER_RESOLUTION + extra) c start end_ =
        oriented (sampled_interval c hi (lo + 2 * PI) n lo) start end_)).
Proof.
  intros lo hi. unfold get_boundary_between. fold lo hi.
  destruct (Rleb (hi - lo) PI) eqn:Hcase.
  - apply Rleb_true in Hcase.
    destruct (steps_below_exists BUFFER_RESOLUTION lo hi) as [n [Hn Hsteps]].
    { rewrite half_turn_in_steps; lra. }
    exists n; split; [exact Hn |]. left. split; [exact Hcase |]. split; [exact Hsteps |].
    rewrite (sample_while_run c hi n) by (try lia; exact Hsteps).
    reflexivity.
  - apply Rleb_false in Hcase.
    destruct (steps_below_exists BUFFER_RESOLUTION hi (lo + 2 * PI)) as [n [Hn Hsteps]].
    { rewrite half_turn_in_steps; lra. }
    exists n; split; [exact Hn |]. right. split; [exact Hcase |]. split; [exact Hsteps |].
    rewrite (sample_while_run c (lo + 2 * PI) n) by (try lia; exact Hsteps).
    reflexivity.
Qed.

Lemma point_at_turn c angle : point_at c (angle + 2 * PI) = point_at c angle.
Proof.
  unfold point_at, shifted.
  rewrite cos_plus, sin_plus, cos_2PI, sin_2PI. f_equal; ring.
Qed.

(** ** C10: the returned list is never empty *)

(** C10.  For every [start] and [end] the call never raises on reading
    [boundary[0]], whatever the fuel, and with [BUFFER_RESOLUTION] rounds it
    returns a non-empty list.  When [start = end] both angles coincide, no
    loop round runs, and the list is the single point at that angle. *)
Theorem get_boundary_between_nonempty (c : Circle) (start end_ : Coord) (extra : nat) :
  (forall fuel e, get_boundary_between fuel c start end_ <> Raise e) /\
  (exists l, get_boundary_between (BUFFER_RESOLUTION + extra) c start end_ = Return l
             /\ l <> []) /\
  (forall fuel,
     get_boundary_between fuel c start start =
     Return [point_at c (calculate_directional_angle_of_line (center c) start)]).
Proof.
  split; [| split].
  - intros fuel e. unfold get_boundary_between.
    destruct (Rleb _ PI).
    + destruct (sample_while fuel c _ _ []) as [b | e' | ] eqn:Hrun; simpl.
      * destruct b; simpl; discriminate.
      * exfalso; exact (sample_while_no_raise _ _ _ _ _ _ Hrun).
      * discriminate.
    + destruct (sample_while fuel c _ _ []) as [b | e' | ] eqn:Hrun; simpl.
      * destruct b; simpl; discriminate.
      * exfalso; exact (sample_while_no_raise _ _ _ _ _ _ Hrun).
      * discriminate.
  - destruct (get_boundary_between_run c start end_ extra) as [n [_ H]].
    destruct H as [[_ [_ ->]] | [_ [_ ->]]]; rewrite oriented_sampled;
      eexists; (split; [reflexivity |]);
      destruct (negb _); try apply sampled_interval_not_nil;
      intros H; apply (f_equal (@rev Coord)) in H; rewrite rev_involutive in H;
      revert H; apply sampled_interval_not_nil.
  - intros fuel. unfold get_boundary_between.
    set (theta := calculate_directional_angle_of_line (center c) start).
    unfold Rmin, Rmax. destruct (Rle_dec theta theta) as [_ | H]; [| lra].
    assert (Rleb (theta - theta) PI = true) as ->.
    { apply Rleb_true. pose proof PI_RGT_0. lra. }
    assert (Rltb theta theta = false) as Hb by (apply Rltb_false; lra).
    assert (sample_while fuel c theta theta [] = Return []) as ->.
    { destruct fuel; simpl; rewrite Hb; reflexivity. }
    cbn [bind app oriented first_item].
    rewrite (proj2 (Rltb_false _ _)) by lra.
    reflexivity.
Qed.

(** ** C2: the shorter arc is the one sampled *)

(** C2.  With [lo] and [hi] the smaller and the greater of the two
    directional angles, a call of [get_boundary_between] returns the forward
    sampling at step [pi / BUFFER_RESOLUTION] of the direct interval
    [[lo, hi]] when [hi - lo <= pi], and of the wraparound interval
    [[hi, lo + 2 pi]] otherwise, in the order sampled or reversed by the
    final orientation.  The interval sampled is never longer than [pi]. *)
Theorem get_boundary_between_shorter_arc (c : Circle) (start end_ : Coord) (extra : nat) :
  let lo := Rmin (calculate_directional_angle_of_line (center c) start)
                 (calculate_directional_angle_of_line (center c) end_) in
  let hi := Rmax (calculate_directional_angle_of_line (center c) start)
                 (calculate_directional_angle_of_line (center c) end_) in
  exists (n : nat) (samples : list Coord),
    (n <= BUFFER_RESOLUTION)%nat /\
    (get_boundary_between (BUFFER_RESOLUTION + extra) c start end_ = Return samples \/
     get_boundary_between (BUFFER_RESOLUTION + extra) c start end_ = Return (rev samples)) /\
    ((hi - lo <= PI /\ steps_below lo hi n /\
      samples = sampled_interval c lo hi n hi)
     \/
     (PI < hi - lo /\ (lo + 2 * PI) - hi < PI /\ steps_below hi (lo + 2 * PI) n /\
      samples = sampled_interval c hi (lo + 2 * PI) n (lo + 2 * PI))).
Proof.
  intros lo hi.
  destruct (get_boundary_between_run c start end_ extra) as [n [Hn H]].
  fold lo hi in H.
  destruct H as [[Hcase [Hsteps Hrun]] | [Hcase [Hsteps Hrun]]].
  - exists n, (sampled_interval c lo hi n hi). split; [exact Hn |]. split.
    + rewrite Hrun, oriented_sampled. destruct (negb _); [right | left]; reflexivity.
    + left. split; [exact Hcase |]. split; [exact Hsteps | reflexivity].
  - exists n, (sampled_interval c hi (lo + 2 * PI) n (lo + 2 * PI)).
    assert (sampled_interval c hi (lo + 2 * PI) n (lo + 2 * PI) =
            sampled_interval c hi (lo + 2 * PI) n lo) as Heq.
    { unfold sampled_interval; rewrite point_at_turn; reflexivity. }
    split; [exact Hn |]. split.
    + rewrite Heq, Hrun, oriented_sampled.
      destruct (negb _); [right | left]; reflexivity.
    + right. split; [exact Hcase |]. split; [lra |].
      split; [exact Hsteps | reflexivity].
Qed.

(** ** The two ends of the returned list *)

Lemma hd_error_sampled c from to n far_end :
  (n = 0%nat -> far_end = from) ->
  hd_error (sampled_interval c from to n far_end) = Some (point_at c from).
Proof.
  intros H0; unfold sampled_interval. destruct n as [| n].
  - simpl. rewrite H0; reflexivity.
  - rewrite arc_points_S; reflexivity.
Qed.

Lemma hd_error_rev_sampled c from to n far_end :
  hd_error (rev (sampled_interval c from to n far_end)) = Some (point_at c far_end).
Proof. unfold sampled_interval; rewrite rev_unit; reflexivity. Qed.

Lemma hd_sampled c from to n far_end d :
  (n = 0%nat -> far_end = from) ->
  hd d (sampled_interval c from to n far_end) = point_at c from.
Proof.
  intros H0; unfold sampled_interval. destruct n as [| n].
  - simpl. rewrite H0; reflexivity.
  - rewrite arc_points_S; reflexivity.
Qed.

(** The first point returned: the loop starts at angle [A] and ends at
    angle [B]; the list comes back as sampled when the point at [A] is
    strictly nearer to [start] than to [end], and reversed otherwise. *)
Lemma get_boundary_between_first c start end_ extra :
  let lo := Rmin (calculate_directional_angle_of_line (center c) start)
                 (calculate_directional_angle_of_line (center c) end_) in
  let hi := Rmax (calculate_directional_angle_of_line (center c) start)
                 (calculate_directional_angle_of_line (center c) end_) in
  let A := if Rleb (hi - lo) PI then lo else hi in
  let B := if Rleb (hi - lo) PI then hi else lo in
  exists l,
    get_boundary_between (BUFFER_RESOLUTION + extra) c start end_ = Return l /\
    hd_error l =
      Some (if Rltb (distance_to (point_at c A) start) (distance_to (point_at c A) end_)
            then point_at c A else point_at c B).
Proof.
  intros lo hi A B.
  assert (lo <= hi) as Hlohi.
  { unfold lo, hi. apply Rle_trans with (1 := Rmin_l _ _). apply Rmax_l. }
  assert (hi - lo < 2 * PI) as Hturn.
  { unfold lo, hi, calculate_directional_angle_of_line, Rmin, Rmax.
    pose proof (atan2_bound (y start - y (center c)) (x start - x (center c))).
    pose proof (atan2_bound (y end_ - y (center c)) (x end_ - x (center c))).
    destruct (Rle_dec _ _); lra. }
  destruct (get_boundary_between_run c start end_ extra) as [n [Hn H]].
  fold lo hi in H.
  destruct H as [[Hcase [Hsteps Hrun]] | [Hcase [Hsteps Hrun]]].
  - assert (Rleb (hi - lo) PI = true) as Hb by (apply Rleb_true; exact Hcase).
    unfold A, B; rewrite Hb.
    assert (n = 0%nat -> hi = lo) as H0.
    { intros ->. destruct Hsteps as [_ Hout]. simpl in Hout. lra. }
    eexists; split; [rewrite Hrun, oriented_sampled; reflexivity |].
    rewrite (hd_sampled c lo hi n hi start H0).
    destruct (Rltb _ _); simpl.
    + apply hd_error_sampled; exact H0.
    + apply hd_error_rev_sampled.
  - assert (Rleb (hi - lo) PI = false) as Hb by (apply Rleb_false; exact Hcase).
    unfold A, B; rewrite Hb.
    assert (n = 0%nat -> lo = hi) as H0.
    { intros ->. destruct Hsteps as [_ Hout]. simpl in Hout. lra. }
    eexists; split; [rewrite Hrun, oriented_sampled; reflexivity |].
    rewrite (hd_sampled c hi (lo + 2 * PI) n lo start H0).
    destruct (Rltb _ _); simpl.
    + apply hd_error_sampled; exact H0.
    + apply hd_error_rev_sampled.
Qed.

(** Seen from the centre, the boundary point in the direction of [p] is
    strictly nearer to [p] than to any other point as far from the centre
    as [p]. *)
Lemma point_at_nearer c p q :
  0 < radius c + EPSILON ->
  distance_to p (center c) = distance_to q (center c) ->
  p <> q ->
  distance_to (point_at c (calculate_directional_angle_of_line (center c) p)) p <
  distance_to (point_at c (calculate_directional_angle_of_line (center c) p)) q.
Proof.
  intros HR Heq Hne.
  unfold calculate_directional_angle_of_line.
  destruct (atan2_polar (y p - y (center c)) (x p - x (center c))) as [Hx Hy].
  set (theta := atan2 (y p - y (center c)) (x p - x (center c))) in *.
  pose proof (distance_to_sqr p (center c)) as Hp.
  pose proof (distance_to_sqr q (center c)) as Hq.
  rewrite <- Heq in Hq.
  fold (distance_to p (center c)) in Hx, Hy.
  set (d := distance_to p (center c)) in *.
  pose proof (distance_to_nonneg p (center c)) as Hd; fold d in Hd.
  pose proof (sin2_cos2 theta) as Hcs; unfold Rsqr in Hcs.
  set (C := cos theta) in *. set (S := sin theta) in *.
  set (ux := x p - x (center c)) in *. set (uy := y p - y (center c)) in *.
  set (vx := x q - x (center c)) in *. set (vy := y q - y (center c)) in *.
  set (R := radius c + EPSILON) in *.
  assert (0 < (ux - vx) * (ux - vx) + (uy - vy) * (uy - vy)) as Hgap.
  { destruct (Req_dec ux vx) as [Ex | Ex].
    - destruct (Req_dec uy vy) as [Ey | Ey].
      + exfalso; apply Hne; apply Coord_eq; unfold ux, uy, vx, vy in *; lra.
      + assert (0 < (uy - vy) * (uy - vy)) by (apply Rsqr_pos_lt; lra).
        pose proof (Rle_0_sqr (ux - vx)) as H0; unfold Rsqr in H0. lra.
    - assert (0 < (ux - vx) * (ux - vx)) by (apply Rsqr_pos_lt; lra).
      pose proof (Rle_0_sqr (uy - vy)) as H0; unfold Rsqr in H0. lra. }
  assert (0 < d) as Hdpos.
  { destruct Hd as [Hd | Hd]; [exact Hd | exfalso].
    rewrite <- Hd in *. 
    assert (ux * ux + uy * uy = 0) as Hu by lra.
    assert (vx * vx + vy * vy = 0) as Hv by lra.
    pose proof (Rle_0_sqr ux) as H1; pose proof (Rle_0_sqr uy) as H2.
    pose proof (Rle_0_sqr vx) as H3; pose proof (Rle_0_sqr vy) as H4.
    unfold Rsqr in *.
    assert (ux * ux = 0) by lra. assert (uy * uy = 0) by lra.
    assert (vx * vx = 0) by lra. assert (vy * vy = 0) by lra.
    assert (ux = 0) by (apply Rsqr_0_uniq; exact H).
    assert (uy = 0) by (apply Rsqr_0_uniq; exact H0).
    assert (vx = 0) by (apply Rsqr_0_uniq; exact H5).
    assert (vy = 0) by (apply Rsqr_0_uniq; exact H6).
    apply Hne, Coord_eq; unfold ux, uy, vx, vy in *; lra. }
  (* the gap between the two squared distances *)
  assert (d * d - (ux * vx + uy * vy) =
          ((ux - vx) * (ux - vx) + (uy - vy) * (uy - vy)) / 2) as Hdot
    by (field_simplify; lra).
  assert (d - (C * vx + S * vy) = (d * d - (ux * vx + uy * vy)) / d) as Hproj.
  { rewrite Hx, Hy. field. lra. }
  assert (0 < d - (C * vx + S * vy)) as Hpos.
  { rewrite Hproj, Hdot. apply Rdiv_lt_0_compat; lra. }
  unfold distance_to, point_at, shifted; simpl.
  apply sqrt_lt_1_alt. split; [apply sum_sqr_nonneg |].
  fold R C S.
  replace (x (center c) + R * C - x p) with (R * C - ux) by (unfold ux; ring).
  replace (y (center c) + R * S - y p) with (R * S - uy) by (unfold uy; ring).
  replace (x (center c) + R * C - x q) with (R * C - vx) by (unfold vx; ring).
  replace (y (center c) + R * S - y q) with (R * S - vy) by (unfold vy; ring).
  rewrite Hx, Hy.
  assert ((R * C - d * C) * (R * C - d * C) + (R * S - d * S) * (R * S - d * S)
          = (R - d) * (R - d) * (S * S + C * C)) as -> by ring.
  assert ((R * C - vx) * (R * C - vx) + (R * S - vy) * (R * S - vy)
          = R * R * (S * S + C * C) - 2 * R * (C * vx + S * vy) + (vx * vx + vy * vy))
    as -> by ring.
  rewrite Hcs, <- Hq.
  assert (0 < 2 * R * (d - (C * vx + S * vy))) by (apply Rmult_lt_0_compat; lra).
  lra.
Qed.

(** ** C4: orientation of the returned list *)

(** C4, as amended.  For a circle of positive radius and two distinct points
    [start] and [end] equally far from the centre (as the entry and exit
    points on one circle are), the first point of the returned list is
    strictly nearer to [start] than to [end]. *)
Theorem get_boundary_between_starts_near_start
    (c : Circle) (start end_ : Coord) (extra : nat) :
  0 < radius c ->
  distance_to start (center c) = distance_to end_ (center c) ->
  start <> end_ ->
  exists l b0,
    get_boundary_between (BUFFER_RESOLUTION + extra) c start end_ = Return l /\
    hd_error l = Some b0 /\
    distance_to b0 start < distance_to b0 end_.
Proof.
  intros Hr Heq Hne.
  assert (0 < radius c + EPSILON) as HR by (unfold EPSILON; lra).
  pose proof (point_at_nearer c start end_ HR Heq Hne) as Hs.
  pose proof (point_at_nearer c end_ start HR (eq_sym Heq) (not_eq_sym Hne)) as He.
  destruct (get_boundary_between_first c start end_ extra) as [l [Hrun Hhd]].
  set (t1 := calculate_directional_angle_of_line (center c) start) in *.
  set (t2 := calculate_directional_angle_of_line (center c) end_) in *.
  exists l. revert Hhd. unfold Rmin, Rmax.
  destruct (Rle_dec t1 t2) as [Hle | Hgt]; destruct (Rleb _ PI); intros Hhd.
  - (* the loop starts at the angle of [start] *)
    rewrite (proj2 (Rltb_true _ _) Hs) in Hhd. eauto.
  - (* the loop starts at the angle of [end]: reversed *)
    rewrite (proj2 (Rltb_false _ _)) in Hhd by lra. eauto.
  - rewrite (proj2 (Rltb_false _ _)) in Hhd by lra. eauto.
  - rewrite (proj2 (Rltb_true _ _) Hs) in Hhd. eauto.
Qed.

Lemma get_boundary_between_starts_near_start_witness :
  exists l b0,
    get_boundary_between (BUFFER_RESOLUTION + 0) (Circle_init (mkCoord 0 0) 1)
                         (mkCoord 1 0) (mkCoord 0 1) = Return l /\
    hd_error l = Some b0 /\
    distance_to b0 (mkCoord 1 0) < distance_to b0 (mkCoord 0 1).
Proof.
  apply (get_boundary_between_starts_near_start
           (Circle_init (mkCoord 0 0) 1) (mkCoord 1 0) (mkCoord 0 1) 0).
  - simpl; lra.
  - unfold distance_to; simpl; f_equal; ring.
  - intros H; apply (f_equal x) in H; simpl in H; lra.
Defined.

(** C4 as stated fails.  Seen from the origin, [start = (10, 0)] lies at
    angle [0] and [end = (0, 1)] at angle [pi / 2]; on the circle of radius
    [1] the sampling starts at [(2, 0)], which is not nearer to [start], so
    the list is reversed and now starts at [(0, 2)]: at distance [1] from
    [end], and more than that from [start]. *)
Lemma get_boundary_between_first_point_nearer_end :
  exists l b0,
    get_boundary_between BUFFER_RESOLUTION (Circle_init (mkCoord 0 0) 1)
                         (mkCoord 10 0) (mkCoord 0 1) = Return l /\
    hd_error l = Some b0 /\
    distance_to b0 (mkCoord 0 1) < distance_to b0 (mkCoord 10 0).
Proof.
  pose proof PI_RGT_0 as HPI.
  destruct (get_boundary_between_first
              (Circle_init (mkCoord 0 0) 1) (mkCoord 10 0) (mkCoord 0 1) 0)
    as [l [Hrun Hhd]].
  rewrite Nat.add_0_r in Hrun.
  exists l. revert Hhd.
  unfold calculate_directional_angle_of_line; simpl.
  replace (0 - 0) with 0 by ring. replace (10 - 0) with 10 by ring.
  replace (1 - 0) with 1 by ring.
  rewrite atan2_east by lra. rewrite atan2_up by lra.
  unfold Rmin, Rmax. destruct (Rle_dec 0 (PI / 2)) as [_ | H]; [| lra].
  rewrite (proj2 (Rleb_true _ _)) by lra.
  unfold point_at, shifted, center, radius, EPSILON; simpl.
  rewrite cos_0, sin_0, cos_PI2, sin_PI2.
  replace (0 + (1 + 1) * 1) with 2 by ring.
  replace (0 + (1 + 1) * 0) with 0 by ring.
  assert (distance_to (mkCoord 2 0) (mkCoord 10 0) = 8) as H8.
  { apply distance_to_eq; simpl; lra. }
  assert (distance_to (mkCoord 0 2) (mkCoord 0 1) = 1) as H1.
  { apply distance_to_eq; simpl; lra. }
  assert (distance_to (mkCoord 2 0) (mkCoord 0 1) < 8) as H5.
  { unfold distance_to; simpl. rewrite <- (sqrt_square 8) by lra.
    apply sqrt_lt_1_alt; lra. }
  assert (1 < distance_to (mkCoord 0 2) (mkCoord 10 0)) as H104.
  { unfold distance_to; simpl. rewrite <- (sqrt_square 1) at 1 by lra.
    apply sqrt_lt_1_alt; lra. }
  rewrite (proj2 (Rltb_false _ _)) by lra.
  intros Hhd. exists (mkCoord 0 2). rewrite H1. auto.
Qed.

(** ** [min] with a key *)

Lemma min_from_spec {A : Type} (key : A -> R) :
  forall (l : list A) (best : A),
    In (min_from key best l) (best :: l) /\
    forall q, In q (best :: l) -> key (min_from key best l) <= key q.
Proof.
  induction l as [| p l IH]; intros best; simpl.
  - split; [left; reflexivity |]. intros q [-> | []]; lra.
  - destruct (IH (if Rltb (key p) (key best) then p else best)) as [Hin Hmin].
    split.
    + destruct Hin as [Hin | Hin]; [| right; right; exact Hin].
      rewrite <- Hin. destruct (Rltb (key p) (key best)); auto.
    + intros q Hq.
      assert (key (if Rltb (key p) (key best) then p else best) <= key best /\
              key (if Rltb (key p) (key best) then p else best) <= key p) as [Hb Hp].
      { destruct (Rltb (key p) (key best)) eqn:E.
        - apply Rltb_true in E; lra.
        - apply Rltb_false in E; lra. }
      pose proof (Hmin _ (or_introl eq_refl)) as H0.
      destruct Hq as [<- | [<- | Hq]]; [lra | lra |].
      apply Hmin; right; exact Hq.
Qed.

Lemma min_by_spec {A : Type} (key : A -> R) (l : list A) :
  l <> [] ->
  exists p, min_by key l = Return p /\ In p l /\ forall q, In q l -> key p <= key q.
Proof.
  destruct l as [| b l]; [easy | intros _].
  exists (min_from key b l); split; [reflexivity |]. apply min_from_spec.
Qed.

(** ** The points at a given distance on a circle *)

Section PointsOnCircle.

Variables (center0 point : Coord) (r chord : R).

Let d := distance_to center0 point.
Let a := (r * r - chord * chord + d * d) / (2 * d).
Let h2 := r * r - a * a.
Let ux := (x point - x center0) / d.
Let uy := (y point - y center0) / d.

Hypothesis d_pos : 0 < d.

Lemma unit_direction : ux * ux + uy * uy = 1.
Proof.
  pose proof (distance_to_sqr center0 point) as Hd. fold d in Hd.
  unfold ux, uy.
  replace ((x point - x center0) / d * ((x point - x center0) / d) +
           (y point - y center0) / d * ((y point - y center0) / d))
    with (((x center0 - x point) * (x center0 - x point) +
           (y center0 - y point) * (y center0 - y point)) / (d * d))
    by (field; lra).
  rewrite <- Hd. field. lra.
Qed.

Lemma direction_scaled :
  x point - x center0 = d * ux /\ y point - y center0 = d * uy.
Proof. unfold ux, uy; split; field; lra. Qed.

(** Either of the two points built from a side offset [s] with
    [s * s = h2] lies on both circles. *)
Lemma offset_point_on_both (s : R) :
  0 <= r -> 0 <= chord -> s * s = h2 ->
  distance_to (mkCoord (x center0 + a * ux - s * uy) (y center0 + a * uy + s * ux))
              center0 = r /\
  distance_to (mkCoord (x center0 + a * ux - s * uy) (y center0 + a * uy + s * ux))
              point = chord.
Proof.
  intros Hr Hc Hs.
  pose proof unit_direction as Hu. destruct direction_scaled as [Hx Hy].
  split; apply distance_to_eq; try assumption; simpl.
  - replace ((x center0 + a * ux - s * uy - x center0) *
             (x center0 + a * ux - s * uy - x center0) +
             (y center0 + a * uy + s * ux - y center0) *
             (y center0 + a * uy + s * ux - y center0))
      with ((a * a + s * s) * (ux * ux + uy * uy)) by ring.
    rewrite Hu, Hs. unfold h2. ring.
  - replace (x center0 + a * ux - s * uy - x point)
      with ((a - d) * ux - s * uy) by (rewrite <- (Rplus_0_r (x point)); lra).
    replace (y center0 + a * uy + s * ux - y point)
      with ((a - d) * uy + s * ux) by lra.
    replace (((a - d) * ux - s * uy) * ((a - d) * ux - s * uy) +
             ((a - d) * uy + s * ux) * ((a - d) * uy + s * ux))
      with (((a - d) * (a - d) + s * s) * (ux * ux + uy * uy)) by ring.
    rewrite Hu, Hs. unfold h2, a. field. lra.
Qed.

(** Conversely a point on both circles is one of those two. *)
Lemma on_both_is_offset_point (q : Coord) :
  distance_to q center0 = r -> distance_to q point = chord ->
  0 <= h2 /\
  (q = mkCoord (x center0 + a * ux - sqrt h2 * uy) (y center0 + a * uy + sqrt h2 * ux) \/
   q = mkCoord (x center0 + a * ux + sqrt h2 * uy) (y center0 + a * uy - sqrt h2 * ux)).
Proof.
  intros Hqc Hqp.
  pose proof unit_direction as Hu. destruct direction_scaled as [Hx Hy].
  pose proof (distance_to_sqr q center0) as H1. rewrite Hqc in H1.
  pose proof (distance_to_sqr q point) as H2. rewrite Hqp in H2.
  set (vx := x q - x center0) in *. set (vy := y q - y center0) in *.
  replace (x q - x point) with (vx - d * ux) in H2 by (unfold vx; lra).
  replace (y q - y point) with (vy - d * uy) in H2 by (unfold vy; lra).
  assert (vx * ux + vy * uy = a) as Ha.
  { unfold a.
    assert (2 * d * (vx * ux + vy * uy) = r * r - chord * chord + d * d) as E.
    { rewrite H1, H2.
      replace ((vx - d * ux) * (vx - d * ux) + (vy - d * uy) * (vy - d * uy))
        with (vx * vx + vy * vy - 2 * d * (vx * ux + vy * uy)
              + d * d * (ux * ux + uy * uy)) by ring.
      rewrite Hu. ring. }
    rewrite <- E. field. lra. }
  set (t := vy * ux - vx * uy).
  assert (t * t = h2) as Ht.
  { unfold h2. rewrite <- Ha, H1. unfold t.
    replace (vx * vx + vy * vy) with ((vx * vx + vy * vy) * (ux * ux + uy * uy))
      by (rewrite Hu; ring).
    ring. }
  assert (vx = a * ux - t * uy) as Evx.
  { rewrite <- Ha. unfold t.
    replace ((vx * ux + vy * uy) * ux - (vy * ux - vx * uy) * uy)
      with (vx * (ux * ux + uy * uy)) by ring.
    rewrite Hu; ring. }
  assert (vy = a * uy + t * ux) as Evy.
  { rewrite <- Ha. unfold t.
    replace ((vx * ux + vy * uy) * uy + (vy * ux - vx * uy) * ux)
      with (vy * (ux * ux + uy * uy)) by ring.
    rewrite Hu; ring. }
  split.
  - rewrite <- Ht. pose proof (Rle_0_sqr t) as H0; unfold Rsqr in H0; exact H0.
  - rewrite <- Ht. fold (Rsqr t). rewrite sqrt_Rsqr_abs.
    unfold Rabs; destruct (Rcase_abs t).
    + right. apply Coord_eq; simpl; unfold vx, vy in *; lra.
    + left. apply Coord_eq; simpl; unfold vx, vy in *; lra.
Qed.

End PointsOnCircle.

(** The helper returns exactly the points the spec names. *)
Lemma points_in_distance_on_circle_spec (center0 : Coord) (r : R) (point : Coord)
    (chord : R) (q : Coord) :
  0 < distance_to center0 point -> 0 <= r -> 0 <= chord ->
  (In q (calculate_points_in_distance_on_circle center0 r point chord) <->
   distance_to q center0 = r /\ distance_to q point = chord).
Proof.
  intros Hd Hr Hc. unfold calculate_points_in_distance_on_circle.
  destruct (Rle_dec (distance_to center0 point) 0) as [H0 | _]; [lra |].
  match goal with |- context [Rlt_dec ?e 0] => set (h2 := e) end.
  destruct (Rlt_dec h2 0) as [Hneg | Hpos].
  - split; [intros [] |]. intros [H1 H2].
    destruct (on_both_is_offset_point center0 point r chord Hd q H1 H2) as [H _].
    fold h2 in H. lra.
  - assert (0 <= h2) as Hh by lra.
    split.
    + intros [<- | [<- | []]].
      * apply (offset_point_on_both center0 point r chord Hd (sqrt h2) Hr Hc).
        apply sqrt_sqrt; exact Hh.
      * pose proof (offset_point_on_both center0 point r chord Hd (- sqrt h2) Hr Hc) as H.
        match type of H with
        | _ -> distance_to ?p _ = _ /\ _ =>
            match goal with
            | |- distance_to ?p' _ = _ /\ _ =>
                replace p' with p by (apply Coord_eq; simpl; ring)
            end
        end.
        apply H. rewrite Rmult_opp_opp. apply sqrt_sqrt; exact Hh.
    + intros [H1 H2].
      destruct (on_both_is_offset_point center0 point r chord Hd q H1 H2) as [_ H].
      fold h2 in H. destruct H as [-> | ->]; simpl; auto.
Qed.

Lemma points_in_distance_on_circle_nonempty (center0 : Coord) (r : R)
    (point : Coord) (chord : R) :
  0 < r -> distance_to point center0 = r -> 0 <= chord < r * 2 ->
  calculate_points_in_distance_on_circle center0 r point chord <> [].
Proof.
  intros Hr Hon [Hc0 Hc2]. unfold calculate_points_in_distance_on_circle.
  rewrite (distance_to_sym center0 point), Hon.
  destruct (Rle_dec r 0) as [H0 | _]; [lra |].
  match goal with |- context [Rlt_dec ?e 0] => set (h2 := e) end.
  destruct (Rlt_dec h2 0) as [Hneg | _]; [| discriminate].
  exfalso. revert Hneg. unfold h2.
  replace ((r * r - chord * chord + r * r) / (2 * r))
    with (r - chord * chord / (2 * r)) by (field; lra).
  assert (0 <= chord * chord / (2 * r) <= 2 * r) as [Ha Hb].
  { split.
    - apply Rmult_le_pos; [apply Rle_0_sqr with (r := chord) |].
      left; apply Rinv_0_lt_compat; lra.
    - apply Rmult_le_reg_r with (2 * r); [lra |].
      replace (chord * chord / (2 * r) * (2 * r)) with (chord * chord)
        by (field; lra).
      assert (chord * chord <= (r * 2) * (r * 2))
        by (apply Rmult_le_compat; lra).
      lra. }
  set (e := chord * chord / (2 * r)) in *.
  assert (0 <= e * (2 * r - e)) by (apply Rmult_le_pos; lra).
  lra.
Qed.

(** ** C1: the exit point *)

(** C1.  On a circle of positive radius with [start] on it: when
    [chord >= 2 * radius] the call returns [start] shifted by [2 * radius]
    along the angle of the segment from [start] to the centre, which is the
    point at distance exactly [2 * radius] from [start] in the direction of
    the centre; when [0 <= chord < 2 * radius] it returns a point of the
    circle at distance [chord] from [start], and no such point is nearer to
    [target]. *)
Theorem calculate_exit_point_spec (c : Circle) (start : Coord) (chord : R)
    (target : Coord) :
  0 < radius c ->
  distance_to start (center c) = radius c ->
  (radius c * 2 <= chord ->
   exists p,
     calculate_exit_point c start chord target = Return p /\
     p = shifted start (2 * radius c) (angle_of (mkSegment start (center c))) /\
     x p = x start + 2 * radius c * ((x (center c) - x start) / distance_to start (center c)) /\
     y p = y start + 2 * radius c * ((y (center c) - y start) / distance_to start (center c)) /\
     distance_to p start = 2 * radius c)
  /\
  (0 <= chord < radius c * 2 ->
   exists p,
     calculate_exit_point c start chord target = Return p /\
     distance_to p (center c) = radius c /\
     distance_to p start = chord /\
     forall q, distance_to q (center c) = radius c -> distance_to q start = chord ->
               distance_to p target <= distance_to q target).
Proof.
  intros Hr Hon. split.
  - intros Hbig. eexists. split; [| split; [reflexivity |]].
    + unfold calculate_exit_point.
      rewrite (proj2 (Rleb_true _ _) Hbig). reflexivity.
    + unfold angle_of; simpl.
      destruct (atan2_polar (y (center c) - y start) (x (center c) - x start))
        as [Hx Hy].
      set (theta := atan2 _ _) in *.
      assert (sqrt ((x (center c) - x start) * (x (center c) - x start) +
                    (y (center c) - y start) * (y (center c) - y start))
              = radius c) as Hd.
      { rewrite <- Hon. unfold distance_to. f_equal; ring. }
      rewrite Hd in Hx, Hy. rewrite Hon.
      split; [rewrite Hx; field; lra |].
      split; [rewrite Hy; field; lra |].
      apply distance_to_eq; [lra |]. simpl.
      pose proof (sin2_cos2 theta) as Hcs; unfold Rsqr in Hcs.
      replace ((x start + 2 * radius c * cos theta - x start) *
               (x start + 2 * radius c * cos theta - x start) +
               (y start + 2 * radius c * sin theta - y start) *
               (y start + 2 * radius c * sin theta - y start))
        with (2 * radius c * (2 * radius c) * (sin theta * sin theta + cos theta * cos theta))
        by ring.
      rewrite Hcs; ring.
  - intros [Hc0 Hc2].
    unfold calculate_exit_point.
    rewrite (proj2 (Rleb_false _ _) Hc2).
    assert (0 < distance_to (center c) start) as Hd
      by (rewrite distance_to_sym, Hon; exact Hr).
    destruct (min_by_spec (fun p => distance_to p target)
                (calculate_points_in_distance_on_circle (center c) (radius c) start chord))
      as [p [Hp [Hin Hmin]]].
    { apply points_in_distance_on_circle_nonempty; auto. }
    exists p. split; [exact Hp |].
    apply points_in_distance_on_circle_spec in Hin; try lra.
    destruct Hin as [H1 H2]. split; [exact H1 |]. split; [exact H2 |].
    intros q Hq1 Hq2. apply Hmin.
    apply points_in_distance_on_circle_spec; [lra | lra | lra | split; assumption].
Qed.

Lemma calculate_exit_point_spec_witness :
  (1 * 2 <= 1 ->
   exists p,
     calculate_exit_point (Circle_init (mkCoord 0 0) 1) (mkCoord 1 0) 1 (mkCoord 0 5)
       = Return p /\
     p = shifted (mkCoord 1 0) (2 * 1) (angle_of (mkSegment (mkCoord 1 0) (mkCoord 0 0))) /\
     x p = 1 + 2 * 1 * ((0 - 1) / distance_to (mkCoord 1 0) (mkCoord 0 0)) /\
     y p = 0 + 2 * 1 * ((0 - 0) / distance_to (mkCoord 1 0) (mkCoord 0 0)) /\
     distance_to p (mkCoord 1 0) = 2 * 1)
  /\
  (0 <= 1 < 1 * 2 ->
   exists p,
     calculate_exit_point (Circle_init (mkCoord 0 0) 1) (mkCoord 1 0) 1 (mkCoord 0 5)
       = Return p /\
     distance_to p (mkCoord 0 0) = 1 /\
     distance_to p (mkCoord 1 0) = 1 /\
     forall q, distance_to q (mkCoord 0 0) = 1 -> distance_to q (mkCoord 1 0) = 1 ->
               distance_to p (mkCoord 0 5) <= distance_to q (mkCoord 0 5)).
Proof.
  apply (calculate_exit_point_spec
           (Circle_init (mkCoord 0 0) 1) (mkCoord 1 0) 1 (mkCoord 0 5)).
  - simpl; lra.
  - apply distance_to_eq; simpl; lra.
Defined.

(** ** Segments against the disk *)

(** The reading of [intersection_length]: the point of the segment at
    parameter [t] is within [radius] of the centre exactly when the
    quadratic of the definition is not positive at [t]. *)
Lemma on_segment_within_radius (c : Circle) (s : Segment) (t : R) :
  0 <= radius c ->
  let dx := x (seg_b s) - x (seg_a s) in
  let dy := y (seg_b s) - y (seg_a s) in
  let ex := x (seg_a s) - x (center c) in
  let ey := y (seg_a s) - y (center c) in
  (distance_to (mkCoord (x (seg_a s) + t * dx) (y (seg_a s) + t * dy)) (center c)
     <= radius c
   <->
   (dx * dx + dy * dy) * (t * t) + 2 * (ex * dx + ey * dy) * t
     + (ex * ex + ey * ey - radius c * radius c) <= 0).
Proof.
  intros Hr dx dy ex ey.
  set (p := mkCoord (x (seg_a s) + t * dx) (y (seg_a s) + t * dy)).
  pose proof (distance_to_sqr p (center c)) as Hsq.
  pose proof (distance_to_nonneg p (center c)) as Hpos.
  assert ((x p - x (center c)) * (x p - x (center c)) +
          (y p - y (center c)) * (y p - y (center c))
          = (dx * dx + dy * dy) * (t * t) + 2 * (ex * dx + ey * dy) * t
            + (ex * ex + ey * ey)) as E by (unfold p, ex, ey; simpl; ring).
  rewrite E in Hsq. clear E.
  set (D := distance_to p (center c)) in *. split; intros H.
  - assert (D * D <= radius c * radius c) by (apply Rmult_le_compat; lra). lra.
  - destruct (Rle_dec D (radius c)) as [Hle | Hgt]; [exact Hle | exfalso].
    assert (radius c * radius c < D * D)
      by (apply Rmult_le_0_lt_compat; lra).
    lra.
Qed.

(** Between the roots, and only there, the quadratic is not positive: the
    stretch of the line inside the disk runs from [t1] to [t2], and there is
    none when the discriminant is negative. *)
Lemma quadratic_between_roots (qa qb qc t : R) :
  0 < qa -> 0 <= qb * qb - 4 * qa * qc ->
  (qa * (t * t) + qb * t + qc <= 0 <->
   (- qb - sqrt (qb * qb - 4 * qa * qc)) / (2 * qa) <= t
     <= (- qb + sqrt (qb * qb - 4 * qa * qc)) / (2 * qa)).
Proof.
  intros Ha Hdisc.
  set (r := sqrt (qb * qb - 4 * qa * qc)).
  assert (r * r = qb * qb - 4 * qa * qc) as Hr by (apply sqrt_sqrt; exact Hdisc).
  assert (0 <= r) as Hr0 by apply sqrt_pos.
  set (t1 := (- qb - r) / (2 * qa)). set (t2 := (- qb + r) / (2 * qa)).
  assert (qa * (t * t) + qb * t + qc = qa * ((t - t1) * (t - t2))) as ->.
  { unfold t1, t2.
    replace qc with ((qb * qb - r * r) / (4 * qa)) by (rewrite Hr; field; lra).
    field; lra. }
  assert (t1 <= t2) as H12.
  { unfold t1, t2. apply Rmult_le_compat_r; [| lra].
    left; apply Rinv_0_lt_compat; lra. }
  split.
  - intros H.
    assert ((t - t1) * (t - t2) <= 0) as H0.
    { apply Rmult_le_reg_l with qa; [exact Ha |]. lra. }
    destruct (Rle_dec t1 t) as [Hl | Hl].
    + destruct (Rle_dec t t2) as [Hu | Hu]; [lra | exfalso].
      assert (0 < (t - t1) * (t - t2)) by (apply Rmult_lt_0_compat; lra). lra.
    + exfalso.
      assert (0 < (t1 - t) * (t2 - t)) by (apply Rmult_lt_0_compat; lra). lra.
  - intros [Hl Hu].
    assert (0 <= (t - t1) * (t2 - t)) by (apply Rmult_le_pos; lra).
    assert (0 <= qa * ((t - t1) * (t2 - t))) by (apply Rmult_le_pos; lra).
    lra.
Qed.

Lemma quadratic_without_roots (qa qb qc t : R) :
  0 < qa -> qb * qb - 4 * qa * qc < 0 -> 0 < qa * (t * t) + qb * t + qc.
Proof.
  intros Ha Hdisc.
  assert (0 <= (2 * qa * t + qb) * (2 * qa * t + qb)) as Hsq
    by (pose proof (Rle_0_sqr (2 * qa * t + qb)) as H; unfold Rsqr in H; exact H).
  apply Rmult_lt_reg_l with (4 * qa); [lra |]. lra.
Qed.

(** Together: the parameters of the points of the segment's line within
    [radius] of the centre are those between [t1] and [t2] of
    [intersection_length], and there are none when the discriminant is
    negative. *)
Lemma within_radius_between_roots (c : Circle) (s : Segment) (t : R) :
  0 <= radius c ->
  let dx := x (seg_b s) - x (seg_a s) in
  let dy := y (seg_b s) - y (seg_a s) in
  let ex := x (seg_a s) - x (center c) in
  let ey := y (seg_a s) - y (center c) in
  let qa := dx * dx + dy * dy in
  let qb := 2 * (ex * dx + ey * dy) in
  let qc := ex * ex + ey * ey - radius c * radius c in
  let disc := qb * qb - 4 * qa * qc in
  0 < qa ->
  (distance_to (mix t (seg_a s) (seg_b s)) (center c) <= radius c
   <->
   0 <= disc /\
   (- qb - sqrt disc) / (2 * qa) <= t <= (- qb + sqrt disc) / (2 * qa)).
Proof.
  intros Hr dx dy ex ey qa qb qc disc Hqa.
  pose proof (on_segment_within_radius c s t Hr) as H. cbv zeta in H.
  fold dx dy ex ey in H. fold qa qb qc in H.
  unfold mix. fold dx dy. rewrite H.
  destruct (Rle_dec 0 disc) as [Hd | Hd].
  - rewrite (quadratic_between_roots qa qb qc t Hqa Hd). fold disc. tauto.
  - pose proof (quadratic_without_roots qa qb qc t Hqa ltac:(fold disc; lra)).
    split; [lra | tauto].
Qed.

(** ** Exit points from anywhere *)

(** The chord branch of [calculate_exit_point], for a [start] that need not
    lie on the circle: as soon as some point of the circle lies [chord] away
    from [start], the call returns such a point, one nearest to [target]. *)
Lemma calculate_exit_point_chord_branch (c : Circle) (start : Coord) (chord : R)
    (target q0 : Coord) :
  0 <= radius c -> 0 < distance_to (center c) start -> 0 <= chord < radius c * 2 ->
  distance_to q0 (center c) = radius c -> distance_to q0 start = chord ->
  exists p,
    calculate_exit_point c start chord target = Return p /\
    distance_to p (center c) = radius c /\
    distance_to p start = chord /\
    forall q, distance_to q (center c) = radius c -> distance_to q start = chord ->
              distance_to p target <= distance_to q target.
Proof.
  intros Hr Hd [Hc0 Hc2] Hq1 Hq2.
  unfold calculate_exit_point. rewrite (proj2 (Rleb_false _ _) Hc2).
  destruct (min_by_spec (fun p => distance_to p target)
              (calculate_points_in_distance_on_circle (center c) (radius c) start chord))
    as [p [Hp [Hin Hmin]]].
  { intros Hnil.
    assert (In q0 (calculate_points_in_distance_on_circle
                     (center c) (radius c) start chord)) as Hin
      by (apply points_in_distance_on_circle_spec; auto).
    rewrite Hnil in Hin; exact Hin. }
  exists p. split; [exact Hp |].
  apply points_in_distance_on_circle_spec in Hin; [| lra | lra | lra].
  destruct Hin as [H1 H2]. split; [exact H1 |]. split; [exact H2 |].
  intros q Hq1' Hq2'. apply Hmin.
  apply points_in_distance_on_circle_spec; [lra | lra | lra | split; assumption].
Qed.

(** When one point on both circles beats every other, it is the exit
    point. *)
Lemma calculate_exit_point_is (c : Circle) (start : Coord) (chord : R)
    (target q0 : Coord) :
  0 <= radius c -> 0 < distance_to (center c) start -> 0 <= chord < radius c * 2 ->
  distance_to q0 (center c) = radius c -> distance_to q0 start = chord ->
  (forall q, distance_to q (center c) = radius c -> distance_to q start = chord ->
             q = q0 \/ distance_to q0 target < distance_to q target) ->
  calculate_exit_point c start chord target = Return q0.
Proof.
  intros Hr Hd Hc H1 H2 Hbest.
  destruct (calculate_exit_point_chord_branch c start chord target q0 Hr Hd Hc H1 H2)
    as [p [Hp [Hp1 [Hp2 Hmin]]]].
  destruct (Hbest p Hp1 Hp2) as [-> | Hlt]; [exact Hp |].
  specialize (Hmin q0 H1 H2). lra.
Qed.

Lemma null_vector (a b : R) : a * a + b * b = 0 -> a = 0 /\ b = 0.
Proof. intros H. apply Rplus_sqr_eq_0. unfold Rsqr. exact H. Qed.

(** ** Buffers and hulls *)

Lemma distance_to_shifted (p : Coord) (r theta : R) :
  0 <= r -> distance_to (shifted p r theta) p = r.
Proof.
  intros Hr. apply distance_to_eq; [exact Hr |]. simpl.
  pose proof (sin2_cos2 theta) as H; unfold Rsqr in H.
  replace ((x p + r * cos theta - x p) * (x p + r * cos theta - x p) +
           (y p + r * sin theta - y p) * (y p + r * sin theta - y p))
    with (r * r * (sin theta * sin theta + cos theta * cos theta)) by ring.
  rewrite H; ring.
Qed.

Lemma in_buffer (p : Coord) (r : R) (n : nat) (q : Coord) :
  In q (buffer p r n) <->
  exists k, (k <= 4 * n)%nat /\ q = shifted p r (- (INR k * (PI / 2 / INR n))).
Proof.
  unfold buffer. rewrite in_map_iff. split.
  - intros [k [<- Hk]]. apply in_seq in Hk. exists k; split; [lia | reflexivity].
  - intros [k [Hk ->]]. exists k; split; [reflexivity |]. apply in_seq; lia.
Qed.

Lemma buffer_on_circle (p : Coord) (r : R) (n : nat) (q : Coord) :
  0 <= r -> In q (buffer p r n) -> distance_to q p = r.
Proof.
  intros Hr Hq. apply in_buffer in Hq. destruct Hq as [k [_ ->]].
  apply distance_to_shifted; exact Hr.
Qed.

Lemma buffer_length (p : Coord) (r : R) (n : nat) :
  length (buffer p r n) = (4 * n + 1)%nat.
Proof. unfold buffer. rewrite length_map, length_seq. reflexivity. Qed.

(** The ring of a buffer passes through the four points of the compass. *)
Lemma quarter_turns (k : nat) :
  INR (k * BUFFER_RESOLUTION) * (PI / 2 / INR BUFFER_RESOLUTION) = INR k * (PI / 2).
Proof. rewrite mult_INR, INR_BUFFER_RESOLUTION. field. Qed.

Lemma buffer_east (p : Coord) (r : R) :
  In (mkCoord (x p + r) (y p)) (buffer p r BUFFER_RESOLUTION).
Proof.
  apply in_buffer. exists (0 * BUFFER_RESOLUTION)%nat. split; [simpl; lia |].
  rewrite quarter_turns. simpl INR. rewrite Rmult_0_l, Ropp_0.
  unfold shifted. rewrite cos_0, sin_0. f_equal; ring.
Qed.

Lemma buffer_south (p : Coord) (r : R) :
  In (mkCoord (x p) (y p - r)) (buffer p r BUFFER_RESOLUTION).
Proof.
  apply in_buffer. exists (1 * BUFFER_RESOLUTION)%nat. split; [simpl; lia |].
  rewrite quarter_turns. simpl INR. rewrite Rmult_1_l.
  unfold shifted. rewrite cos_neg, sin_neg, cos_PI2, sin_PI2. f_equal; ring.
Qed.

Lemma buffer_west (p : Coord) (r : R) :
  In (mkCoord (x p - r) (y p)) (buffer p r BUFFER_RESOLUTION).
Proof.
  apply in_buffer. exists (2 * BUFFER_RESOLUTION)%nat. split; [simpl; lia |].
  rewrite quarter_turns.
  replace (INR 2 * (PI / 2)) with PI by (simpl; field).
  unfold shifted. rewrite cos_neg, sin_neg, cos_PI, sin_PI. f_equal; ring.
Qed.

Lemma buffer_north (p : Coord) (r : R) :
  In (mkCoord (x p) (y p + r)) (buffer p r BUFFER_RESOLUTION).
Proof.
  apply in_buffer. exists (3 * BUFFER_RESOLUTION)%nat. split; [simpl; lia |].
  rewrite quarter_turns.
  replace (INR 3 * (PI / 2)) with (3 * (PI / 2)) by (simpl; field).
  unfold shifted. rewrite cos_neg, sin_neg, cos_3PI2, sin_3PI2. f_equal; ring.
Qed.

Lemma in_hull_incl (points points' : list Coord) (p : Coord) :
  (forall q, In q points -> in_hull points' q) ->
  in_hull points p -> in_hull points' p.
Proof.
  intros Hsub H. induction H as [p Hp | t p q Ht _ IHp _ IHq].
  - apply Hsub; exact Hp.
  - apply hull_mix; assumption.
Qed.

Lemma mix_0 (p q : Coord) : mix 0 p q = p.
Proof. apply Coord_eq; simpl; ring. Qed.

Lemma mix_1 (p q : Coord) : mix 1 p q = q.
Proof. apply Coord_eq; simpl; ring. Qed.

(** The region of a buffer grows with its radius. *)
Lemma buffer_hull_grows (p : Coord) (r r' : R) (q : Coord) :
  0 <= r <= r' -> 0 < r' ->
  in_hull (buffer p r BUFFER_RESOLUTION) q ->
  in_hull (buffer p r' BUFFER_RESOLUTION) q.
Proof.
  intros Hr Hr'. apply in_hull_incl. clear q. intros q Hq.
  assert (in_hull (buffer p r' BUFFER_RESOLUTION) p) as Hcentre.
  { assert (in_hull (buffer p r' BUFFER_RESOLUTION)
                    (mix (1 / 2) (mkCoord (x p + r') (y p)) (mkCoord (x p - r') (y p))))
      as H.
    { apply hull_mix; [lra | |]; apply hull_point;
        [apply buffer_east | apply buffer_west]. }
    assert (mix (1 / 2) (mkCoord (x p + r') (y p)) (mkCoord (x p - r') (y p)) = p)
      as E by (apply Coord_eq; simpl; field).
    rewrite E in H. exact H. }
  apply in_buffer in Hq. destruct Hq as [k [Hk ->]].
  assert (mix (r / r') p (shifted p r' (- (INR k * (PI / 2 / INR BUFFER_RESOLUTION))))
          = shifted p r (- (INR k * (PI / 2 / INR BUFFER_RESOLUTION)))) as <-
    by (apply Coord_eq; simpl; field; lra).
  apply hull_mix; [| exact Hcentre |].
  - split.
    + apply Rmult_le_pos; [lra |]. left; apply Rinv_0_lt_compat; exact Hr'.
    + apply Rmult_le_reg_r with r'; [exact Hr' |].
      replace (r / r' * r') with r by (field; lra). lra.
  - apply hull_point. apply in_buffer. exists k; split; [exact Hk | reflexivity].
Qed.

Lemma coords_of_ring (l : list Coord) :
  map (fun xy => mkCoord (fst xy) (snd xy)) (combine (map x l) (map y l)) = l.
Proof.
  induction l as [| [px py] l IH]; simpl; [reflexivity |]. rewrite IH; reflexivity.
Qed.

(** ** C6: the regions of a circle *)

Lemma boundary_is_outer_ring (c : Circle) :
  (forall b, _boundary c = Some b -> b = outer_polygon c) ->
  fst (boundary c) = outer_polygon c.
Proof.
  intros Hcache. unfold boundary.
  destruct (_boundary c) as [b |] eqn:E; simpl.
  - apply Hcache; reflexivity.
  - apply coords_of_ring.
Qed.

(** C6.  A circle built with a positive radius satisfies the invariant: its
    inner region lies in its outer region and every point of the outer ring,
    hence of the boundary list, lies [radius + EPSILON] from the centre.
    Reading the boundary, the one call that writes a field, keeps the
    invariant and leaves centre, radius and both polygons as they were; the
    list it returns lies at that distance. *)
Theorem circle_invariant_kept (center0 : Coord) (radius0 : R) :
  0 < radius0 ->
  circle_invariant (Circle_init center0 radius0) /\
  (forall c : Circle,
     circle_invariant c ->
     circle_invariant (snd (boundary c)) /\
     (forall p, In p (fst (boundary c)) ->
                distance_to p (center c) = radius c + EPSILON) /\
     center (snd (boundary c)) = center c /\
     radius (snd (boundary c)) = radius c /\
     inner_polygon (snd (boundary c)) = inner_polygon c /\
     outer_polygon (snd (boundary c)) = outer_polygon c /\
     fst (boundary (snd (boundary c))) = fst (boundary c)).
Proof.
  intros Hr. split.
  - unfold circle_invariant, contains, Circle_init, inner_polygon, outer_polygon,
      center, radius;
      cbn [_center _radius _inner_polygon _outer_polygon _boundary].
    split; [| split; [| split]].
    + intros p. apply buffer_hull_grows; unfold EPSILON; lra.
    + intros p Hp. apply Rleb_true in Hp. unfold EPSILON; lra.
    + intros p Hp. apply buffer_on_circle with (n := BUFFER_RESOLUTION);
        [unfold EPSILON; lra | exact Hp].
    + intros b Hb; discriminate.
  - intros c [Hin [Hdisk [Hring Hcache]]].
    pose proof (boundary_is_outer_ring c Hcache) as Hfst.
    assert (center (snd (boundary c)) = center c /\
            radius (snd (boundary c)) = radius c /\
            inner_polygon (snd (boundary c)) = inner_polygon c /\
            outer_polygon (snd (boundary c)) = outer_polygon c /\
            (forall b, _boundary (snd (boundary c)) = Some b -> b = outer_polygon c))
      as [Hc [Hrad [Hi [Ho Hcache']]]].
    { unfold boundary. destruct (_boundary c) as [b |] eqn:E; simpl.
      - repeat split; try reflexivity. intros b' Hb'. apply Hcache.
        rewrite E in Hb'. exact Hb'.
      - repeat split; try reflexivity. intros b' Hb'.
        injection Hb' as <-. apply coords_of_ring. }
    split; [| split; [| repeat split; try assumption]].
    + unfold circle_invariant, contains. rewrite Hc, Hrad, Hi, Ho.
      split; [exact Hin |]. split; [exact Hdisk |]. split; [exact Hring | exact Hcache'].
    + intros p Hp. rewrite Hfst in Hp. apply Hring; exact Hp.
    + rewrite Hfst. rewrite <- Ho. apply boundary_is_outer_ring.
      rewrite Ho. exact Hcache'.
Qed.

Lemma circle_invariant_kept_witness :
  circle_invariant (Circle_init (mkCoord 3 4) 3) /\
  (forall c : Circle,
     circle_invariant c ->
     circle_invariant (snd (boundary c)) /\
     (forall p, In p (fst (boundary c)) ->
                distance_to p (center c) = radius c + EPSILON) /\
     center (snd (boundary c)) = center c /\
     radius (snd (boundary c)) = radius c /\
     inner_polygon (snd (boundary c)) = inner_polygon c /\
     outer_polygon (snd (boundary c)) = outer_polygon c /\
     fst (boundary (snd (boundary c))) = fst (boundary c)).
Proof.
  apply (circle_invariant_kept (mkCoord 3 4) 3). lra.
Defined.

(** ** The partition between two circles *)

Lemma half_PI : 0.5 * PI = PI / 2.
Proof. lra. Qed.

(** The two ends of the partition segment: [INF] to the left and to the
    right of the line of centres, seen from the point between. *)
Lemma inf_partition_ends (circle1 circle2 : Circle) :
  let theta := angle_of (mkSegment (center circle1) (center circle2)) in
  let P := point_between circle1 circle2 in
  seg_a (inf_partition circle1 circle2)
    = mkCoord (x P - INF * sin theta) (y P + INF * cos theta) /\
  seg_b (inf_partition circle1 circle2)
    = mkCoord (x P + INF * sin theta) (y P - INF * cos theta).
Proof.
  intros theta P. unfold inf_partition. fold theta P. simpl seg_a; simpl seg_b.
  unfold shifted. rewrite half_PI.
  rewrite cos_plus, sin_plus, cos_minus, sin_minus, cos_PI2, sin_PI2.
  split; apply Coord_eq; simpl; ring.
Qed.

(** The call, in terms of its named parts. *)
Lemma calculate_partition_between_circles_parts
    (intersection_coords : list Coord -> Segment -> list Coord)
    (circle1 circle2 : Circle) (source target : Coord) (all_circles : list Circle) :
  calculate_partition_between_circles intersection_coords circle1 circle2
    source target all_circles =
  (convex_hull <- Polygon_of (all_shapely_points source target all_circles) ;;
   p0 <- item (intersection_coords convex_hull (inf_partition circle1 circle2)) 0 ;;
   p1 <- item (intersection_coords convex_hull (inf_partition circle1 circle2)) 1 ;;
   Return (mkSegment p0 p1)).
Proof. reflexivity. Qed.

(** What the last two lines make of the coordinate list. *)
Lemma partition_of_coords (intersection_coords : list Coord -> Segment -> list Coord)
    (circle1 circle2 : Circle) (source target : Coord) (all_circles : list Circle) :
  (3 <= length (all_shapely_points source target all_circles))%nat ->
  calculate_partition_between_circles intersection_coords circle1 circle2
    source target all_circles =
  match intersection_coords (all_shapely_points source target all_circles)
                            (inf_partition circle1 circle2) with
  | p0 :: p1 :: _ => Return (mkSegment p0 p1)
  | _ => Raise IndexError
  end.
Proof.
  intros Hlen. rewrite calculate_partition_between_circles_parts. unfold Polygon_of.
  destruct (Nat.ltb_spec (length (all_shapely_points source target all_circles)) 3)
    as [H | _]; [lia |].
  cbn [bind].
  destruct (intersection_coords _ _) as [| p0 [| p1 l]]; reflexivity.
Qed.

Lemma partition_of_few_points (intersection_coords : list Coord -> Segment -> list Coord)
    (circle1 circle2 : Circle) (source target : Coord) (all_circles : list Circle) :
  (length (all_shapely_points source target all_circles) < 3)%nat ->
  calculate_partition_between_circles intersection_coords circle1 circle2
    source target all_circles = Raise ValueError.
Proof.
  intros Hlen. rewrite calculate_partition_between_circles_parts. unfold Polygon_of.
  destruct (Nat.ltb_spec (length (all_shapely_points source target all_circles)) 3)
    as [_ | H]; [reflexivity | lia].
Qed.

(** The three shapes of a coordinate list. *)
Lemma hull_intersection_cases (points : list Coord) (s : Segment) (l : list Coord) :
  hull_intersection points s l ->
  (l = [] /\
   forall t, 0 <= t <= 1 -> ~ in_hull points (mix t (seg_a s) (seg_b s)))
  \/
  (exists t0,
     l = [mix t0 (seg_a s) (seg_b s)] /\ 0 <= t0 <= 1 /\
     forall t, 0 <= t <= 1 ->
               (in_hull points (mix t (seg_a s) (seg_b s)) <-> t = t0))
  \/
  (exists t0 t1,
     (l = [mix t0 (seg_a s) (seg_b s); mix t1 (seg_a s) (seg_b s)] \/
      l = [mix t1 (seg_a s) (seg_b s); mix t0 (seg_a s) (seg_b s)]) /\
     0 <= t0 /\ t0 < t1 /\ t1 <= 1 /\
     forall t, 0 <= t <= 1 ->
               (in_hull points (mix t (seg_a s) (seg_b s)) <-> t0 <= t <= t1)).
Proof.
  intros H. destruct H as [Hmiss | t0 Ht0 Hiff | t0 t1 H0 Hlt H1 Hiff
                           | t0 t1 H0 Hlt H1 Hiff].
  - left; split; [reflexivity | exact Hmiss].
  - right; left. exists t0. split; [reflexivity |]. split; assumption.
  - right; right. exists t0, t1. split; [left; reflexivity |]. auto.
  - right; right. exists t0, t1. split; [right; reflexivity |]. auto.
Qed.

(** ** C8: when the partition call fails *)

(** C8, as amended.  Take a call with at least three hull points in which
    the hull meets the straight line of the partition only within the
    segment built (between its two ends [INF] from the point between).  If
    that line cuts the hull in a chord, the call returns the segment between
    the two ends of the chord; if it does not (the line misses the hull or
    touches it in one point), the call raises [IndexError], the only failure
    there is. *)
Theorem partition_fails_without_chord
    (intersection_coords : list Coord -> Segment -> list Coord)
    (circle1 circle2 : Circle) (source target : Coord) (all_circles : list Circle) :
  (3 <= length (all_shapely_points source target all_circles))%nat ->
  hull_intersection (all_shapely_points source target all_circles)
    (inf_partition circle1 circle2)
    (intersection_coords (all_shapely_points source target all_circles)
                         (inf_partition circle1 circle2)) ->
  (forall t, in_hull (all_shapely_points source target all_circles)
                     (mix t (seg_a (inf_partition circle1 circle2))
                            (seg_b (inf_partition circle1 circle2))) ->
             0 <= t <= 1) ->
  ((exists t0 t1, line_cuts_chord (all_shapely_points source target all_circles)
                                  (inf_partition circle1 circle2) t0 t1) ->
   exists t0 t1,
     line_cuts_chord (all_shapely_points source target all_circles)
                     (inf_partition circle1 circle2) t0 t1 /\
     exists s,
       calculate_partition_between_circles intersection_coords circle1 circle2
         source target all_circles = Return s /\
       ((seg_a s = mix t0 (seg_a (inf_partition circle1 circle2))
                          (seg_b (inf_partition circle1 circle2)) /\
         seg_b s = mix t1 (seg_a (inf_partition circle1 circle2))
                          (seg_b (inf_partition circle1 circle2)))
        \/
        (seg_a s = mix t1 (seg_a (inf_partition circle1 circle2))
                          (seg_b (inf_partition circle1 circle2)) /\
         seg_b s = mix t0 (seg_a (inf_partition circle1 circle2))
                          (seg_b (inf_partition circle1 circle2)))))
  /\
  (~ (exists t0 t1, line_cuts_chord (all_shapely_points source target all_circles)
                                    (inf_partition circle1 circle2) t0 t1) ->
   calculate_partition_between_circles intersection_coords circle1 circle2
     source target all_circles = Raise IndexError).
Proof.
  intros Hlen Hcoords Hreach.
  rewrite (partition_of_coords _ _ _ _ _ _ Hlen).
  set (points := all_shapely_points source target all_circles) in *.
  set (s := inf_partition circle1 circle2) in *.
  assert (forall t0 t1, t0 < t1 ->
            (forall t, 0 <= t <= 1 ->
                       (in_hull points (mix t (seg_a s) (seg_b s)) <-> t0 <= t <= t1)) ->
            0 <= t0 -> t1 <= 1 -> line_cuts_chord points s t0 t1) as Hchord.
  { intros t0 t1 Hlt Hiff H0 H1. split; [exact Hlt |]. intros t. split.
    - intros Hin. apply Hiff; [apply Hreach; exact Hin | exact Hin].
    - intros Ht. apply Hiff; [lra | exact Ht]. }
  inversion Hcoords as [Hmiss Heq | t0 Ht0 Hiff Heq | t0 t1 H0 Hlt H1 Hiff Heq
                        | t0 t1 H0 Hlt H1 Hiff Heq].
  - split; [| reflexivity].
    intros [t0 [t1 [Hlt Hline]]]. exfalso.
    assert (in_hull points (mix t0 (seg_a s) (seg_b s))) as Hin
      by (apply Hline; lra).
    exact (Hmiss t0 (Hreach t0 Hin) Hin).
  - split; [| reflexivity].
    intros [u0 [u1 [Hlt Hline]]]. exfalso.
    assert (in_hull points (mix u0 (seg_a s) (seg_b s))) as Hin0
      by (apply Hline; lra).
    assert (in_hull points (mix u1 (seg_a s) (seg_b s))) as Hin1
      by (apply Hline; lra).
    pose proof (proj1 (Hiff u0 (Hreach u0 Hin0)) Hin0).
    pose proof (proj1 (Hiff u1 (Hreach u1 Hin1)) Hin1). lra.
  - split.
    + intros _. exists t0, t1. split; [apply Hchord; assumption |].
      eexists; split; [reflexivity |]. left; split; reflexivity.
    + intros Hno. exfalso. apply Hno. exists t0, t1. apply Hchord; assumption.
  - split.
    + intros _. exists t0, t1. split; [apply Hchord; assumption |].
      eexists; split; [reflexivity |]. right; split; reflexivity.
    + intros Hno. exfalso. apply Hno. exists t0, t1. apply Hchord; assumption.
Qed.

(** ** The partition scenarios *)

Lemma inf_partition_west_east :
  inf_partition west1 east1 = mkSegment (mkCoord 0 1000) (mkCoord 0 (-1000)).
Proof.
  assert (angle_of (mkSegment (center west1) (center east1)) = 0) as Hangle.
  { unfold angle_of; simpl. replace (0 - 0) with 0 by ring.
    apply atan2_east; lra. }
  assert (point_between west1 east1 = mkCoord 0 0) as HP.
  { assert (length_of (mkSegment (center west1) (center east1)) = 20) as Hlen
      by (apply distance_to_eq; simpl; lra).
    unfold point_between. rewrite Hangle, Hlen.
    unfold shifted; simpl. rewrite cos_0, sin_0. apply Coord_eq; simpl; lra. }
  destruct (inf_partition_ends west1 east1) as [Ha Hb].
  rewrite Hangle, HP, sin_0, cos_0 in Ha, Hb.
  destruct (inf_partition west1 east1) as [a b]; simpl in *. subst a b.
  unfold INF. f_equal; apply Coord_eq; simpl; lra.
Qed.

Lemma mix_on_axis (t : R) :
  mix t (mkCoord 0 1000) (mkCoord 0 (-1000)) = mkCoord 0 (1000 - 2000 * t).
Proof. apply Coord_eq; simpl; lra. Qed.

(** A hull whose points all lie between two heights, with a point of the
    y axis at either height, meets the y axis exactly between the two. *)
Lemma hull_between_heights (points : list Coord) (ylo yhi : R) :
  ylo <= yhi ->
  In (mkCoord 0 ylo) points -> In (mkCoord 0 yhi) points ->
  (forall p, In p points -> ylo <= y p <= yhi) ->
  forall yy, in_hull points (mkCoord 0 yy) <-> ylo <= yy <= yhi.
Proof.
  intros Hle Hlo Hhi Hall.
  assert (forall q, in_hull points q -> ylo <= y q <= yhi) as Hinv.
  { intros q H. induction H as [p Hp | t p q [Ht0 Ht1] _ IHp _ IHq].
    - apply Hall; exact Hp.
    - simpl.
      assert (0 <= (1 - t) * (y p - ylo)) by (apply Rmult_le_pos; lra).
      assert (0 <= t * (y q - ylo)) by (apply Rmult_le_pos; lra).
      assert (0 <= (1 - t) * (yhi - y p)) by (apply Rmult_le_pos; lra).
      assert (0 <= t * (yhi - y q)) by (apply Rmult_le_pos; lra).
      lra. }
  intros yy. split.
  - intros H. apply Hinv in H. exact H.
  - intros [H1 H2]. destruct (Req_dec ylo yhi) as [E | E].
    + assert (yy = ylo) as -> by lra. apply hull_point; exact Hlo.
    + assert (mix ((yy - ylo) / (yhi - ylo)) (mkCoord 0 ylo) (mkCoord 0 yhi)
              = mkCoord 0 yy) as <- by (apply Coord_eq; simpl; field; lra).
      apply hull_mix; [| apply hull_point; exact Hlo | apply hull_point; exact Hhi].
      split.
      * apply Rmult_le_pos; [lra |]. left; apply Rinv_0_lt_compat; lra.
      * apply Rmult_le_reg_r with (yhi - ylo); [lra |].
        replace ((yy - ylo) / (yhi - ylo) * (yhi - ylo)) with (yy - ylo)
          by (field; lra).
        lra.
Qed.

Lemma points_with_pillar (h : R) :
  all_shapely_points (left_of h) (right_of h) [pillar h] =
  left_of h :: right_of h :: buffer (mkCoord 0 h) 100 BUFFER_RESOLUTION.
Proof. reflexivity. Qed.

(** In the pillar scenarios the partition line crosses the hull from
    [(0, h + 100)] to [(0, h - 100)]. *)
Lemma pillar_trace (h t : R) :
  in_hull (all_shapely_points (left_of h) (right_of h) [pillar h])
          (mix t (seg_a (inf_partition west1 east1)) (seg_b (inf_partition west1 east1)))
  <-> h - 100 <= 1000 - 2000 * t <= h + 100.
Proof.
  rewrite inf_partition_west_east, points_with_pillar. simpl seg_a; simpl seg_b.
  rewrite mix_on_axis.
  apply hull_between_heights.
  - lra.
  - right; right.
    replace (mkCoord 0 (h - 100))
      with (mkCoord (x (mkCoord 0 h)) (y (mkCoord 0 h) - 100)) by reflexivity.
    apply buffer_south.
  - right; right.
    replace (mkCoord 0 (h + 100))
      with (mkCoord (x (mkCoord 0 h)) (y (mkCoord 0 h) + 100)) by reflexivity.
    apply buffer_north.
  - intros p [<- | [<- | Hp]]; simpl; try lra.
    apply in_buffer in Hp. destruct Hp as [k [_ ->]]. cbn [x y shifted].
    pose proof (SIN_bound (- (INR k * (PI / 2 / INR BUFFER_RESOLUTION)))) as [Hs1 Hs2].
    lra.
Qed.

Lemma pillar_points_count (h : R) :
  (3 <= length (all_shapely_points (left_of h) (right_of h) [pillar h]))%nat.
Proof.
  rewrite points_with_pillar. cbn [length]. rewrite buffer_length. lia.
Qed.

Lemma partition_fails_without_chord_witness :
  exists t0 t1,
    line_cuts_chord (all_shapely_points (left_of 0) (right_of 0) [pillar 0])
                    (inf_partition west1 east1) t0 t1 /\
    exists s,
      calculate_partition_between_circles coords_at_height_0 west1 east1
        (left_of 0) (right_of 0) [pillar 0] = Return s /\
      ((seg_a s = mix t0 (seg_a (inf_partition west1 east1))
                         (seg_b (inf_partition west1 east1)) /\
        seg_b s = mix t1 (seg_a (inf_partition west1 east1))
                         (seg_b (inf_partition west1 east1)))
       \/
       (seg_a s = mix t1 (seg_a (inf_partition west1 east1))
                         (seg_b (inf_partition west1 east1)) /\
        seg_b s = mix t0 (seg_a (inf_partition west1 east1))
                         (seg_b (inf_partition west1 east1)))).
Proof.
  refine (proj1 (partition_fails_without_chord coords_at_height_0 west1 east1
                   (left_of 0) (right_of 0) [pillar 0] _ _ _) _).
  - apply pillar_points_count.
  - unfold coords_at_height_0. apply hull_crossed; [lra | lra | lra |].
    intros t Ht. rewrite pillar_trace. split; intros H; lra.
  - intros t H. apply pillar_trace in H. lra.
  - exists (9 / 20), (11 / 20). split; [lra |].
    intros t. rewrite pillar_trace. split; intros H; lra.
Defined.

(** C8 as stated fails.  With the hull at height [3000] the partition line
    crosses it in a chord, from [(0, 3100)] to [(0, 2900)], but the segment
    built ends at [(0, 1000)] and does not reach it: the intersection is
    empty and the call raises [IndexError]. *)
Lemma partition_fails_though_line_cuts_chord :
  (3 <= length (all_shapely_points (left_of 3000) (right_of 3000) [pillar 3000]))%nat /\
  line_cuts_chord (all_shapely_points (left_of 3000) (right_of 3000) [pillar 3000])
                  (inf_partition west1 east1) (- (21 / 20)) (- (19 / 20)) /\
  forall intersection_coords : list Coord -> Segment -> list Coord,
    hull_intersection (all_shapely_points (left_of 3000) (right_of 3000) [pillar 3000])
      (inf_partition west1 east1)
      (intersection_coords (all_shapely_points (left_of 3000) (right_of 3000) [pillar 3000])
                           (inf_partition west1 east1)) ->
    calculate_partition_between_circles intersection_coords west1 east1
      (left_of 3000) (right_of 3000) [pillar 3000] = Raise IndexError.
Proof.
  split; [apply pillar_points_count |]. split.
  - split; [lra |]. intros t. rewrite pillar_trace. split; intros H; lra.
  - intros coords Hcoords.
    rewrite (partition_of_coords _ _ _ _ _ _ (pillar_points_count 3000)).
    assert (forall t, 0 <= t <= 1 ->
              ~ in_hull (all_shapely_points (left_of 3000) (right_of 3000) [pillar 3000])
                  (mix t (seg_a (inf_partition west1 east1))
                         (seg_b (inf_partition west1 east1)))) as Hout.
    { intros t Ht H. apply pillar_trace in H. lra. }
    inversion Hcoords as [Hmiss Heq | t0 Ht0 Hiff Heq | t0 t1 H0 Hlt H1 Hiff Heq
                          | t0 t1 H0 Hlt H1 Hiff Heq].
    + reflexivity.
    + reflexivity.
    + exfalso. apply (Hout t0); [lra |]. apply Hiff; lra.
    + exfalso. apply (Hout t0); [lra |]. apply Hiff; lra.
Qed.

(** ** C7: the ends of the partition *)

Lemma close_coordinates (q p : Coord) (e : R) :
  distance_to q p < e -> Rabs (x q - x p) < e /\ Rabs (y q - y p) < e.
Proof.
  intros H. unfold distance_to in H.
  pose proof (Rle_0_sqr (x q - x p)) as Hx. pose proof (Rle_0_sqr (y q - y p)) as Hy.
  unfold Rsqr in Hx, Hy.
  split; eapply Rle_lt_trans; try exact H; rewrite <- sqrt_Rsqr_abs;
    apply sqrt_le_1_alt; unfold Rsqr; lra.
Qed.

Lemma Rabs_le_between (a b : R) : Rabs a <= b -> - b <= a <= b.
Proof. unfold Rabs; destruct (Rcase_abs a); lra. Qed.

Lemma interior_not_boundary (points : list Coord) (p : Coord) :
  hull_interior points p -> ~ on_hull_boundary points p.
Proof.
  intros [eps [Heps Hall]] [_ Hnear].
  destruct (Hnear eps Heps) as [q [Hq Hout]]. apply Hout, Hall, Hq.
Qed.

(** The triangle with apex [(0, a)] over the base from [(-w, 0)] to
    [(w, 0)] lies in any hull that holds its three corners. *)
Lemma triangle_in_hull (points : list Coord) (a w : R) (q : Coord) :
  a <> 0 -> 0 < w ->
  In (mkCoord 0 a) points -> In (mkCoord (- w) 0) points -> In (mkCoord w 0) points ->
  0 <= y q / a < 1 ->
  Rabs (x q) <= w * (1 - y q / a) ->
  in_hull points q.
Proof.
  intros Ha Hw HA HW HE [Hr0 Hr1] Hx.
  set (tau := 1 - y q / a) in *.
  assert (0 < tau <= 1) as [Ht0 Ht1] by (unfold tau; lra).
  set (s := x q / tau).
  assert (s * tau = x q) as Hs by (unfold s; field; lra).
  assert (- w <= s <= w) as [Hs0 Hs1].
  { apply Rabs_le_between. apply Rmult_le_reg_r with tau; [exact Ht0 |].
    rewrite <- (Rabs_right tau) at 1 by lra. rewrite <- Rabs_mult, Hs. exact Hx. }
  assert (mix tau (mkCoord 0 a) (mix ((s + w) / (2 * w)) (mkCoord (- w) 0) (mkCoord w 0))
          = q) as E.
  { apply Coord_eq; simpl.
    - rewrite <- Hs. field. lra.
    - unfold tau. field. split; [lra | exact Ha]. }
  rewrite <- E.
  apply hull_mix; [lra | apply hull_point; exact HA |].
  apply hull_mix; [| apply hull_point; exact HW | apply hull_point; exact HE].
  split.
  - apply Rmult_le_pos; [lra |]. left; apply Rinv_0_lt_compat; lra.
  - apply Rmult_le_reg_r with (2 * w); [lra |].
    replace ((s + w) / (2 * w) * (2 * w)) with (s + w) by (field; lra). lra.
Qed.

Lemma points_far_apart :
  all_shapely_points far_north far_south [west1; east1] =
  (far_north :: far_south :: buffer (mkCoord (-10) 0) 1 BUFFER_RESOLUTION)
    ++ buffer (mkCoord 10 0) 1 BUFFER_RESOLUTION.
Proof. reflexivity. Qed.

Lemma corners_far_apart :
  In (mkCoord 0 5000) (all_shapely_points far_north far_south [west1; east1]) /\
  In (mkCoord 0 (-5000)) (all_shapely_points far_north far_south [west1; east1]) /\
  In (mkCoord (- 11) 0) (all_shapely_points far_north far_south [west1; east1]) /\
  In (mkCoord 11 0) (all_shapely_points far_north far_south [west1; east1]).
Proof.
  rewrite points_far_apart. repeat split.
  - left; reflexivity.
  - right; left; reflexivity.
  - apply in_or_app; left. right; right.
    replace (mkCoord (- 11) 0) with (mkCoord (x (mkCoord (-10) 0) - 1) (y (mkCoord (-10) 0)))
      by (apply Coord_eq; simpl; lra).
    apply buffer_west.
  - apply in_or_app; right.
    replace (mkCoord 11 0) with (mkCoord (x (mkCoord 10 0) + 1) (y (mkCoord 10 0)))
      by (apply Coord_eq; simpl; lra).
    apply buffer_east.
Qed.

Lemma near_end_is_interior (yy a : R) :
  (a = 5000 \/ a = -5000) -> yy / a = 1 / 5 ->
  hull_interior (all_shapely_points far_north far_south [west1; east1]) (mkCoord 0 yy).
Proof.
  intros Ha Hyy. exists 1. split; [lra |]. intros q Hq.
  destruct corners_far_apart as [HN [HS [HW HE]]].
  apply close_coordinates in Hq. simpl in Hq. destruct Hq as [Hx Hy].
  apply Rabs_def2 in Hx. apply Rabs_def2 in Hy.
  assert (Rabs (x q) <= 1) as Hx' by (apply Rabs_le; lra).
  assert (Rabs (y q / a - 1 / 5) <= 1 / 5000) as Hratio.
  { rewrite <- Hyy. replace (y q / a - yy / a) with ((y q - yy) * / a)
      by (field; destruct Ha; lra).
    rewrite Rabs_mult.
    assert (Rabs (/ a) = 1 / 5000) as ->.
    { destruct Ha as [-> | ->].
      - rewrite Rabs_right; [lra |]. lra.
      - rewrite Rabs_left; lra. }
    assert (Rabs (y q - yy) <= 1) by (apply Rabs_le; lra).
    lra. }
  apply Rabs_le_between in Hratio.
  apply triangle_in_hull with (a := a) (w := 11).
  - destruct Ha as [-> | ->]; lra.
  - lra.
  - destruct Ha as [-> | ->]; assumption.
  - exact HW.
  - exact HE.
  - lra.
  - lra.
Qed.

Lemma far_apart_points_count :
  (3 <= length (all_shapely_points far_north far_south [west1; east1]))%nat.
Proof.
  rewrite points_far_apart. rewrite length_app. cbn [length].
  rewrite !buffer_length. lia.
Qed.

Lemma whole_partition_in_hull (t : R) :
  0 <= t <= 1 ->
  in_hull (all_shapely_points far_north far_south [west1; east1])
          (mix t (seg_a (inf_partition west1 east1)) (seg_b (inf_partition west1 east1))).
Proof.
  intros Ht. destruct corners_far_apart as [HN [HS _]].
  rewrite inf_partition_west_east. simpl seg_a; simpl seg_b. rewrite mix_on_axis.
  assert (mix ((5000 - (1000 - 2000 * t)) / 10000) (mkCoord 0 5000) (mkCoord 0 (-5000))
          = mkCoord 0 (1000 - 2000 * t)) as <- by (apply Coord_eq; simpl; field).
  apply hull_mix; [lra | apply hull_point; exact HN | apply hull_point; exact HS].
Qed.

(** C7 fails on this input.  Source and target lie [5000] up and down the
    y axis, the two unit circles either side of the origin.  The hull holds
    the whole segment built, so the call returns that segment, from
    [(0, 1000)] to [(0, -1000)] (whichever way round shapely lists it), and
    both ends are interior points of the hull, not points of its
    boundary. *)
Theorem partition_ends_inside_hull :
  (3 <= length (all_shapely_points far_north far_south [west1; east1]))%nat /\
  hull_interior (all_shapely_points far_north far_south [west1; east1]) (mkCoord 0 1000) /\
  hull_interior (all_shapely_points far_north far_south [west1; east1]) (mkCoord 0 (-1000)) /\
  ~ on_hull_boundary (all_shapely_points far_north far_south [west1; east1])
      (mkCoord 0 1000) /\
  ~ on_hull_boundary (all_shapely_points far_north far_south [west1; east1])
      (mkCoord 0 (-1000)) /\
  forall intersection_coords : list Coord -> Segment -> list Coord,
    hull_intersection (all_shapely_points far_north far_south [west1; east1])
      (inf_partition west1 east1)
      (intersection_coords (all_shapely_points far_north far_south [west1; east1])
                           (inf_partition west1 east1)) ->
    calculate_partition_between_circles intersection_coords west1 east1
      far_north far_south [west1; east1]
      = Return (mkSegment (mkCoord 0 1000) (mkCoord 0 (-1000)))
    \/
    calculate_partition_between_circles intersection_coords west1 east1
      far_north far_south [west1; east1]
      = Return (mkSegment (mkCoord 0 (-1000)) (mkCoord 0 1000)).
Proof.
  assert (hull_interior (all_shapely_points far_north far_south [west1; east1])
            (mkCoord 0 1000)) as Hup
    by (apply near_end_is_interior with (a := 5000); [left; reflexivity | lra]).
  assert (hull_interior (all_shapely_points far_north far_south [west1; east1])
            (mkCoord 0 (-1000))) as Hdown
    by (apply near_end_is_interior with (a := -5000); [right; reflexivity | lra]).
  split; [exact far_apart_points_count |].
  split; [exact Hup |]. split; [exact Hdown |].
  split; [apply interior_not_boundary; exact Hup |].
  split; [apply interior_not_boundary; exact Hdown |].
  intros coords Hcoords.
  rewrite !(partition_of_coords _ _ _ _ _ _ far_apart_points_count).
  pose proof (whole_partition_in_hull 0 ltac:(lra)) as H0.
  pose proof (whole_partition_in_hull 1 ltac:(lra)) as H1.
  destruct (hull_intersection_cases _ _ _ Hcoords)
    as [[_ Hmiss] | [[t0 [_ [Ht0 Hiff]]] | [t0 [t1 [Hl [Hge [Hlt [Hle Hiff]]]]]]]].
  - exfalso. exact (Hmiss 0 ltac:(lra) H0).
  - exfalso. apply Hiff in H0; [| lra]. apply Hiff in H1; [| lra]. lra.
  - apply Hiff in H0; [| lra]. apply Hiff in H1; [| lra].
    assert (t0 = 0) as E0 by lra. assert (t1 = 1) as E1 by lra.
    rewrite E0, E1, mix_0, mix_1, inf_partition_west_east in Hl.
    rewrite inf_partition_west_east.
    destruct Hl as [-> | ->]; [left | right]; reflexivity.
Qed.

(** ** The partition, where the segment built reaches across the hull *)

Lemma distance_mix (a b : Coord) (t t' : R) :
  distance_to (mix t a b) (mix t' a b) = Rabs (t - t') * distance_to a b.
Proof.
  apply distance_to_eq.
  - apply Rmult_le_pos; [apply Rabs_pos | apply distance_to_nonneg].
  - simpl.
    replace (Rabs (t - t') * distance_to a b * (Rabs (t - t') * distance_to a b))
      with ((Rabs (t - t') * Rabs (t - t')) * (distance_to a b * distance_to a b))
      by ring.
    rewrite distance_to_sqr.
    replace (Rabs (t - t') * Rabs (t - t')) with ((t - t') * (t - t')).
    + ring.
    + unfold Rabs; destruct (Rcase_abs (t - t')); ring.
Qed.

(** The lower end of the stretch inside the hull is a boundary point of the
    hull when the segment starts outside it. *)
Lemma lower_end_on_boundary (points : list Coord) (a b : Coord) (t0 t1 : R) :
  0 < t0 -> t0 < t1 -> t1 <= 1 ->
  (forall t, 0 <= t <= 1 -> (in_hull points (mix t a b) <-> t0 <= t <= t1)) ->
  on_hull_boundary points (mix t0 a b).
Proof.
  intros H0 Hlt H1 Hiff. split; [apply Hiff; lra |].
  intros eps Heps.
  pose proof (distance_to_nonneg a b) as HD. set (D := distance_to a b) in *.
  set (delta := Rmin t0 (eps / (2 * (D + 1)))).
  assert (0 < eps / (2 * (D + 1))) as Hq by (apply Rdiv_lt_0_compat; lra).
  assert (0 < delta <= t0) as [Hd0 Hd1].
  { unfold delta. split; [apply Rmin_glb_lt; lra | apply Rmin_l]. }
  assert (delta <= eps / (2 * (D + 1))) as Hd2 by (unfold delta; apply Rmin_r).
  exists (mix (t0 - delta) a b). split.
  - rewrite distance_mix. fold D.
    replace (t0 - delta - t0) with (- delta) by ring.
    rewrite Rabs_Ropp, Rabs_right by lra.
    apply Rle_lt_trans with (eps / (2 * (D + 1)) * D).
    + apply Rmult_le_compat_r; lra.
    + apply Rmult_lt_reg_r with (2 * (D + 1)); [lra |].
      replace (eps / (2 * (D + 1)) * D * (2 * (D + 1))) with (eps * D) by (field; lra).
      assert (0 <= eps * D) by (apply Rmult_le_pos; lra). lra.
  - intros Hin. apply Hiff in Hin; lra.
Qed.

Lemma upper_end_on_boundary (points : list Coord) (a b : Coord) (t0 t1 : R) :
  0 <= t0 -> t0 < t1 -> t1 < 1 ->
  (forall t, 0 <= t <= 1 -> (in_hull points (mix t a b) <-> t0 <= t <= t1)) ->
  on_hull_boundary points (mix t1 a b).
Proof.
  intros H0 Hlt H1 Hiff. split; [apply Hiff; lra |].
  intros eps Heps.
  pose proof (distance_to_nonneg a b) as HD. set (D := distance_to a b) in *.
  set (delta := Rmin (1 - t1) (eps / (2 * (D + 1)))).
  assert (0 < eps / (2 * (D + 1))) as Hq by (apply Rdiv_lt_0_compat; lra).
  assert (0 < delta <= 1 - t1) as [Hd0 Hd1].
  { unfold delta. split; [apply Rmin_glb_lt; lra | apply Rmin_l]. }
  assert (delta <= eps / (2 * (D + 1))) as Hd2 by (unfold delta; apply Rmin_r).
  exists (mix (t1 + delta) a b). split.
  - rewrite distance_mix. fold D.
    replace (t1 + delta - t1) with delta by ring.
    rewrite Rabs_right by lra.
    apply Rle_lt_trans with (eps / (2 * (D + 1)) * D).
    + apply Rmult_le_compat_r; lra.
    + apply Rmult_lt_reg_r with (2 * (D + 1)); [lra |].
      replace (eps / (2 * (D + 1)) * D * (2 * (D + 1))) with (eps * D) by (field; lra).
      assert (0 <= eps * D) by (apply Rmult_le_pos; lra). lra.
  - intros Hin. apply Hiff in Hin; lra.
Qed.

(** The partition segment runs across the line of centres. *)
Lemma inf_partition_across (circle1 circle2 : Circle) :
  (x (seg_b (inf_partition circle1 circle2)) - x (seg_a (inf_partition circle1 circle2)))
    * (x (center circle2) - x (center circle1))
  + (y (seg_b (inf_partition circle1 circle2)) - y (seg_a (inf_partition circle1 circle2)))
    * (y (center circle2) - y (center circle1)) = 0.
Proof.
  destruct (inf_partition_ends circle1 circle2) as [-> ->]. simpl x; simpl y.
  unfold angle_of; simpl seg_a; simpl seg_b.
  destruct (atan2_polar (y (center circle2) - y (center circle1))
                        (x (center circle2) - x (center circle1))) as [Hx Hy].
  set (theta := atan2 _ _) in *. set (L := sqrt _) in *.
  rewrite Hx at 1. rewrite Hy at 1. ring.
Qed.

Lemma inf_partition_proper (circle1 circle2 : Circle) :
  seg_a (inf_partition circle1 circle2) <> seg_b (inf_partition circle1 circle2).
Proof.
  destruct (inf_partition_ends circle1 circle2) as [-> ->].
  set (theta := angle_of _). intros H.
  pose proof (f_equal x H) as Hx. pose proof (f_equal y H) as Hy. simpl in Hx, Hy.
  pose proof (sin2_cos2 theta) as Hcs. unfold Rsqr in Hcs. unfold INF in *.
  assert (sin theta = 0) as Es by lra. assert (cos theta = 0) as Ec by lra.
  rewrite Es, Ec in Hcs. lra.
Qed.

Lemma mix_apart (a b : Coord) (t t' : R) : a <> b -> t <> t' -> mix t a b <> mix t' a b.
Proof.
  intros Hab Ht H. apply Hab.
  pose proof (f_equal x H) as Hx. pose proof (f_equal y H) as Hy. simpl in Hx, Hy.
  assert ((t - t') * (x b - x a) = 0) as Ex by lra.
  assert ((t - t') * (y b - y a) = 0) as Ey by lra.
  apply Rmult_integral in Ex. apply Rmult_integral in Ey.
  apply Coord_eq; destruct Ex, Ey; lra.
Qed.

(** X1.  Whenever the call returns a segment, the segment is not degenerate,
    runs perpendicular to the line of centres, and has both ends in the hull.
    When the two ends of the segment built ([INF] either side of the point
    between) lie outside the hull, both ends returned lie on the boundary of
    the hull. *)
Theorem partition_across_centres
    (intersection_coords : list Coord -> Segment -> list Coord)
    (circle1 circle2 : Circle) (source target : Coord) (all_circles : list Circle)
    (s : Segment) :
  hull_intersection (all_shapely_points source target all_circles)
    (inf_partition circle1 circle2)
    (intersection_coords (all_shapely_points source target all_circles)
                         (inf_partition circle1 circle2)) ->
  calculate_partition_between_circles intersection_coords circle1 circle2
    source target all_circles = Return s ->
  (x (seg_b s) - x (seg_a s)) * (x (center circle2) - x (center circle1))
  + (y (seg_b s) - y (seg_a s)) * (y (center circle2) - y (center circle1)) = 0
  /\ seg_a s <> seg_b s
  /\ in_hull (all_shapely_points source target all_circles) (seg_a s)
  /\ in_hull (all_shapely_points source target all_circles) (seg_b s)
  /\ (~ in_hull (all_shapely_points source target all_circles)
        (seg_a (inf_partition circle1 circle2)) ->
      ~ in_hull (all_shapely_points source target all_circles)
        (seg_b (inf_partition circle1 circle2)) ->
      on_hull_boundary (all_shapely_points source target all_circles) (seg_a s) /\
      on_hull_boundary (all_shapely_points source target all_circles) (seg_b s)).
Proof.
  intros Hcoords Hret.
  destruct (Nat.ltb_spec (length (all_shapely_points source target all_circles)) 3)
    as [Hfew | Hlen].
  { rewrite partition_of_few_points in Hret by exact Hfew. discriminate. }
  rewrite (partition_of_coords _ _ _ _ _ _ Hlen) in Hret.
  pose proof (inf_partition_across circle1 circle2) as Hperp.
  pose proof (inf_partition_proper circle1 circle2) as Hproper.
  set (points := all_shapely_points source target all_circles) in *.
  set (a := seg_a (inf_partition circle1 circle2)) in *.
  set (b := seg_b (inf_partition circle1 circle2)) in *.
  destruct (hull_intersection_cases _ _ _ Hcoords)
    as [[Hl _] | [[t0 [Hl _]] | [t0 [t1 [Hl [Hge [Hlt [Hle Hiff]]]]]]]].
  - rewrite Hl in Hret; discriminate.
  - rewrite Hl in Hret; discriminate.
  - fold a b in Hl, Hiff.
    assert (in_hull points (mix t0 a b)) as Hin0 by (apply Hiff; lra).
    assert (in_hull points (mix t1 a b)) as Hin1 by (apply Hiff; lra).
    assert (~ in_hull points a -> 0 < t0) as Hstart.
    { intros Hout. destruct Hge as [Hge | <-]; [exact Hge |].
      exfalso. apply Hout. rewrite mix_0 in Hin0. exact Hin0. }
    assert (~ in_hull points b -> t1 < 1) as Hend.
    { intros Hout. destruct Hle as [Hle | ->]; [exact Hle |].
      exfalso. apply Hout. rewrite mix_1 in Hin1. exact Hin1. }
    destruct Hl as [Hl | Hl]; rewrite Hl in Hret; injection Hret as <-;
      simpl seg_a; simpl seg_b.
    + split.
      { cbn [x y mix].
        replace ((x a + t1 * (x b - x a) - (x a + t0 * (x b - x a)))
                   * (x (center circle2) - x (center circle1))
                 + (y a + t1 * (y b - y a) - (y a + t0 * (y b - y a)))
                   * (y (center circle2) - y (center circle1)))
          with ((t1 - t0) * ((x b - x a) * (x (center circle2) - x (center circle1))
                             + (y b - y a) * (y (center circle2) - y (center circle1))))
          by ring.
        rewrite Hperp; ring. }
      split; [apply mix_apart; [exact Hproper | lra] |].
      split; [exact Hin0 |]. split; [exact Hin1 |].
      intros Ha Hb. split.
      * apply lower_end_on_boundary with (t1 := t1); auto.
      * apply upper_end_on_boundary with (t0 := t0); auto.
    + split.
      { cbn [x y mix].
        replace ((x a + t0 * (x b - x a) - (x a + t1 * (x b - x a)))
                   * (x (center circle2) - x (center circle1))
                 + (y a + t0 * (y b - y a) - (y a + t1 * (y b - y a)))
                   * (y (center circle2) - y (center circle1)))
          with ((t0 - t1) * ((x b - x a) * (x (center circle2) - x (center circle1))
                             + (y b - y a) * (y (center circle2) - y (center circle1))))
          by ring.
        rewrite Hperp; ring. }
      split; [apply mix_apart; [exact Hproper | lra] |].
      split; [exact Hin1 |]. split; [exact Hin0 |].
      intros Ha Hb. split.
      * apply upper_end_on_boundary with (t0 := t0); auto.
      * apply lower_end_on_boundary with (t1 := t1); auto.
Qed.

Lemma coords_at_height_0_meet :
  hull_intersection (all_shapely_points (left_of 0) (right_of 0) [pillar 0])
    (inf_partition west1 east1)
    (coords_at_height_0 (all_shapely_points (left_of 0) (right_of 0) [pillar 0])
                        (inf_partition west1 east1)).
Proof.
  unfold coords_at_height_0. apply hull_crossed; [lra | lra | lra |].
  intros t Ht. rewrite pillar_trace. split; intros H; lra.
Qed.

Lemma partition_at_height_0 :
  calculate_partition_between_circles coords_at_height_0 west1 east1
    (left_of 0) (right_of 0) [pillar 0]
  = Return (mkSegment (mkCoord 0 100) (mkCoord 0 (-100))).
Proof.
  rewrite (partition_of_coords _ _ _ _ _ _ (pillar_points_count 0)).
  unfold coords_at_height_0. rewrite inf_partition_west_east.
  simpl seg_a; simpl seg_b. rewrite !mix_on_axis.
  do 2 f_equal; apply Coord_eq; simpl; lra.
Qed.

Lemma partition_across_centres_witness :
  (x (mkCoord 0 (-100)) - x (mkCoord 0 100)) * (x (center east1) - x (center west1))
  + (y (mkCoord 0 (-100)) - y (mkCoord 0 100)) * (y (center east1) - y (center west1)) = 0
  /\ mkCoord 0 100 <> mkCoord 0 (-100)
  /\ in_hull (all_shapely_points (left_of 0) (right_of 0) [pillar 0]) (mkCoord 0 100)
  /\ in_hull (all_shapely_points (left_of 0) (right_of 0) [pillar 0]) (mkCoord 0 (-100))
  /\ (~ in_hull (all_shapely_points (left_of 0) (right_of 0) [pillar 0])
        (seg_a (inf_partition west1 east1)) ->
      ~ in_hull (all_shapely_points (left_of 0) (right_of 0) [pillar 0])
        (seg_b (inf_partition west1 east1)) ->
      on_hull_boundary (all_shapely_points (left_of 0) (right_of 0) [pillar 0])
        (mkCoord 0 100) /\
      on_hull_boundary (all_shapely_points (left_of 0) (right_of 0) [pillar 0])
        (mkCoord 0 (-100))).
Proof.
  exact (partition_across_centres coords_at_height_0 west1 east1
           (left_of 0) (right_of 0) [pillar 0]
           (mkSegment (mkCoord 0 100) (mkCoord 0 (-100)))
           coords_at_height_0_meet partition_at_height_0).
Defined.

(** * Further properties of the class *)

(** ** [get_boundary_between]: the list returned *)

(** The whole result at once.  The loop starts at the angle [A] and the
    last point appended is the one at the angle [B]; one of them is the
    angle of [start] and the other that of [end]. *)
Lemma get_boundary_between_shape c start end_ extra :
  let lo := Rmin (calculate_directional_angle_of_line (center c) start)
                 (calculate_directional_angle_of_line (center c) end_) in
  let hi := Rmax (calculate_directional_angle_of_line (center c) start)
                 (calculate_directional_angle_of_line (center c) end_) in
  let A := if Rleb (hi - lo) PI then lo else hi in
  let B := if Rleb (hi - lo) PI then hi else lo in
  let bound := if Rleb (hi - lo) PI then hi else lo + 2 * PI in
  exists n,
    (n <= BUFFER_RESOLUTION)%nat /\
    steps_below A bound n /\
    (n = 0%nat -> B = A) /\
    get_boundary_between (BUFFER_RESOLUTION + extra) c start end_ =
      Return (if Rltb (distance_to (point_at c A) start) (distance_to (point_at c A) end_)
              then sampled_interval c A bound n B
              else rev (sampled_interval c A bound n B)).
Proof.
  intros lo hi A B bound.
  assert (hi - lo < 2 * PI) as Hturn.
  { unfold lo, hi, calculate_directional_angle_of_line, Rmin, Rmax.
    pose proof (atan2_bound (y start - y (center c)) (x start - x (center c))).
    pose proof (atan2_bound (y end_ - y (center c)) (x end_ - x (center c))).
    destruct (Rle_dec _ _); lra. }
  assert (lo <= hi) as Hlohi.
  { unfold lo, hi. apply Rle_trans with (1 := Rmin_l _ _). apply Rmax_l. }
  destruct (get_boundary_between_run c start end_ extra) as [n [Hn H]].
  fold lo hi in H. exists n. split; [exact Hn |].
  destruct H as [[Hcase [Hsteps Hrun]] | [Hcase [Hsteps Hrun]]].
  - assert (Rleb (hi - lo) PI = true) as Hb by (apply Rleb_true; exact Hcase).
    unfold A, B, bound; rewrite Hb.
    assert (n = 0%nat -> hi = lo) as H0.
    { intros ->. destruct Hsteps as [_ Hout]. simpl in Hout. lra. }
    split; [exact Hsteps |]. split; [exact H0 |].
    rewrite Hrun, oriented_sampled, (hd_sampled c lo hi n hi start H0).
    destruct (Rltb _ _); reflexivity.
  - assert (Rleb (hi - lo) PI = false) as Hb by (apply Rleb_false; exact Hcase).
    unfold A, B, bound; rewrite Hb.
    assert (n = 0%nat -> lo = hi) as H0.
    { intros ->. destruct Hsteps as [_ Hout]. simpl in Hout. lra. }
    split; [exact Hsteps |]. split; [exact H0 |].
    rewrite Hrun, oriented_sampled, (hd_sampled c hi (lo + 2 * PI) n lo start H0).
    destruct (Rltb _ _); reflexivity.
Qed.

Lemma in_sampled_interval c from to n far_end p :
  In p (sampled_interval c from to n far_end) -> exists theta, p = point_at c theta.
Proof.
  unfold sampled_interval, arc_points. intros H. apply in_app_or in H.
  destruct H as [H | [<- | []]].
  - apply in_map_iff in H. destruct H as [k [<- _]]. eexists; reflexivity.
  - eexists; reflexivity.
Qed.

Lemma length_sampled_interval c from to n far_end :
  length (sampled_interval c from to n far_end) = S n.
Proof.
  unfold sampled_interval, arc_points.
  rewrite length_app, length_map, length_seq. simpl. lia.
Qed.

Lemma point_at_distance c theta :
  0 <= radius c + EPSILON ->
  distance_to (point_at c theta) (center c) = radius c + EPSILON.
Proof. intros H. apply distance_to_shifted; exact H. Qed.

(** X2.  Every point of the list returned lies at distance
    [radius + EPSILON] from the centre, on the outer circle: the list is
    not empty and none of its points is contained in the circle. *)
Theorem get_boundary_between_on_outer_circle
    (c : Circle) (start end_ : Coord) (extra : nat) (l : list Coord) :
  0 <= radius c ->
  get_boundary_between (BUFFER_RESOLUTION + extra) c start end_ = Return l ->
  l <> [] /\
  forall p, In p l ->
            distance_to p (center c) = radius c + EPSILON /\ contains c p = false.
Proof.
  intros Hr Hrun.
  destruct (get_boundary_between_shape c start end_ extra) as [n [Hn [_ [_ Hshape]]]].
  rewrite Hshape in Hrun. injection Hrun as <-.
  match goal with
  | |- context [sampled_interval c ?A ?bound n ?B] =>
      set (samples := sampled_interval c A bound n B);
      pose proof (sampled_interval_not_nil c A bound n B) as Hnil;
      pose proof (in_sampled_interval c A bound n B) as Hin;
      fold samples in Hnil, Hin
  end.
  assert (forall p, In p samples ->
            distance_to p (center c) = radius c + EPSILON /\ contains c p = false)
    as Hall.
  { intros p Hp. destruct (Hin p Hp) as [theta ->].
    assert (distance_to (point_at c theta) (center c) = radius c + EPSILON) as Hd
      by (apply point_at_distance; unfold EPSILON; lra).
    split; [exact Hd |]. unfold contains. apply Rleb_false. rewrite Hd.
    unfold EPSILON; lra. }
  destruct (Rltb _ _).
  - split; [exact Hnil | exact Hall].
  - split.
    + intros H. apply (f_equal (@rev Coord)) in H. rewrite rev_involutive in H.
      exact (Hnil H).
    + intros p Hp. apply Hall. apply in_rev. exact Hp.
Qed.

(** A quarter turn on the unit circle: the loop runs, the list has several
    points. *)
Lemma quarter_turn_sampled :
  exists l,
    get_boundary_between (BUFFER_RESOLUTION + 0) (Circle_init (mkCoord 0 0) 1)
                         (mkCoord 1 0) (mkCoord 0 1) = Return l /\
    (2 <= length l)%nat.
Proof.
  pose proof (get_boundary_between_shape (Circle_init (mkCoord 0 0) 1)
                (mkCoord 1 0) (mkCoord 0 1) 0) as H.
  cbv zeta in H. pose proof PI_RGT_0 as Hpi.
  assert (calculate_directional_angle_of_line
            (center (Circle_init (mkCoord 0 0) 1)) (mkCoord 1 0) = 0) as E1.
  { unfold calculate_directional_angle_of_line; simpl.
    replace (0 - 0) with 0 by ring. replace (1 - 0) with 1 by ring.
    apply atan2_east; lra. }
  assert (calculate_directional_angle_of_line
            (center (Circle_init (mkCoord 0 0) 1)) (mkCoord 0 1) = PI / 2) as E2.
  { unfold calculate_directional_angle_of_line; simpl.
    replace (0 - 0) with 0 by ring. replace (1 - 0) with 1 by ring.
    apply atan2_up; lra. }
  rewrite E1, E2 in H. rewrite Rmin_left, Rmax_right in H by lra.
  assert (Rleb (PI / 2 - 0) PI = true) as Hb by (apply Rleb_true; lra).
  rewrite Hb in H. destruct H as [n [_ [[_ Hout] [_ Hshape]]]].
  eexists. split; [exact Hshape |].
  assert (n <> O) as Hn by (intros ->; simpl in Hout; lra).
  destruct (Rltb _ _); rewrite ?length_rev, length_sampled_interval; lia.
Qed.

Lemma get_boundary_between_on_outer_circle_witness :
  exists l,
    get_boundary_between (BUFFER_RESOLUTION + 0) (Circle_init (mkCoord 0 0) 1)
                         (mkCoord 1 0) (mkCoord 0 1) = Return l /\
    (2 <= length l)%nat /\
    l <> [] /\
    forall p, In p l ->
              distance_to p (center (Circle_init (mkCoord 0 0) 1))
              = radius (Circle_init (mkCoord 0 0) 1) + EPSILON /\
              contains (Circle_init (mkCoord 0 0) 1) p = false.
Proof.
  destruct quarter_turn_sampled as [l [Hrun Hlen]].
  exists l. split; [exact Hrun |]. split; [exact Hlen |].
  apply (get_boundary_between_on_outer_circle (Circle_init (mkCoord 0 0) 1)
           (mkCoord 1 0) (mkCoord 0 1) 0 l); [simpl; lra | exact Hrun].
Defined.

Lemma get_boundary_between_shape_swapped c start end_ extra :
  let lo := Rmin (calculate_directional_angle_of_line (center c) start)
                 (calculate_directional_angle_of_line (center c) end_) in
  let hi := Rmax (calculate_directional_angle_of_line (center c) start)
                 (calculate_directional_angle_of_line (center c) end_) in
  let A := if Rleb (hi - lo) PI then lo else hi in
  let B := if Rleb (hi - lo) PI then hi else lo in
  let bound := if Rleb (hi - lo) PI then hi else lo + 2 * PI in
  exists n,
    (n <= BUFFER_RESOLUTION)%nat /\
    steps_below A bound n /\
    (n = 0%nat -> B = A) /\
    get_boundary_between (BUFFER_RESOLUTION + extra) c end_ start =
      Return (if Rltb (distance_to (point_at c A) end_) (distance_to (point_at c A) start)
              then sampled_interval c A bound n B
              else rev (sampled_interval c A bound n B)).
Proof.
  pose proof (get_boundary_between_shape c end_ start extra) as H.
  cbv zeta in H.
  rewrite (Rmin_comm (calculate_directional_angle_of_line (center c) end_)) in H.
  rewrite (Rmax_comm (calculate_directional_angle_of_line (center c) end_)) in H.
  exact H.
Qed.

Lemma hd_error_sampled_interval c from to n far_end :
  (n = 0%nat -> far_end = from) ->
  hd_error (sampled_interval c from to n far_end) = Some (point_at c from) /\
  last (sampled_interval c from to n far_end) (point_at c from) = point_at c far_end /\
  hd_error (rev (sampled_interval c from to n far_end)) = Some (point_at c far_end) /\
  last (rev (sampled_interval c from to n far_end)) (point_at c far_end)
    = point_at c from.
Proof.
  intros H0.
  split; [apply hd_error_sampled; exact H0 |].
  split; [unfold sampled_interval; apply last_last |].
  split; [apply hd_error_rev_sampled |].
  unfold sampled_interval. destruct n as [| n].
  - simpl. rewrite H0; reflexivity.
  - rewrite arc_points_S. cbn [app rev]. apply last_last.
Qed.

(** For two distinct points equally far from the centre, the tests of the
    orientation line come out one way for the pair and the other way for
    the pair swapped. *)
Lemma orientation_tests c start end_ (A : R) :
  0 < radius c ->
  distance_to start (center c) = distance_to end_ (center c) ->
  start <> end_ ->
  (A = calculate_directional_angle_of_line (center c) start ->
   Rltb (distance_to (point_at c A) start) (distance_to (point_at c A) end_) = true /\
   Rltb (distance_to (point_at c A) end_) (distance_to (point_at c A) start) = false)
  /\
  (A = calculate_directional_angle_of_line (center c) end_ ->
   Rltb (distance_to (point_at c A) start) (distance_to (point_at c A) end_) = false /\
   Rltb (distance_to (point_at c A) end_) (distance_to (point_at c A) start) = true).
Proof.
  intros Hr Heq Hne.
  assert (0 < radius c + EPSILON) as HR by (unfold EPSILON; lra).
  pose proof (point_at_nearer c start end_ HR Heq Hne) as Hs.
  pose proof (point_at_nearer c end_ start HR (eq_sym Heq) (not_eq_sym Hne)) as He.
  split; intros ->; split;
    try (apply Rltb_true; assumption); apply Rltb_false; lra.
Qed.

(** The angle the loop starts from and the angle it ends at are the angles
    of the two points. *)
Lemma loop_ends (t1 t2 : R) :
  let lo := Rmin t1 t2 in
  let hi := Rmax t1 t2 in
  let A := if Rleb (hi - lo) PI then lo else hi in
  let B := if Rleb (hi - lo) PI then hi else lo in
  (A = t1 /\ B = t2) \/ (A = t2 /\ B = t1).
Proof.
  intros lo hi A B. unfold A, B, lo, hi, Rmin, Rmax.
  destruct (Rle_dec t1 t2);
    [destruct (Rleb (t2 - t1) PI) | destruct (Rleb (t1 - t2) PI)];
    solve [left; split; reflexivity | right; split; reflexivity].
Qed.

(** X3.  For a circle of positive radius and two distinct points equally far
    from the centre, the list returned runs from the boundary point in the
    direction of [start] to the boundary point in the direction of [end]. *)
Theorem get_boundary_between_joins_directions
    (c : Circle) (start end_ : Coord) (extra : nat) :
  0 < radius c ->
  distance_to start (center c) = distance_to end_ (center c) ->
  start <> end_ ->
  exists l,
    get_boundary_between (BUFFER_RESOLUTION + extra) c start end_ = Return l /\
    hd_error l
      = Some (point_at c (calculate_directional_angle_of_line (center c) start)) /\
    last l (center c)
      = point_at c (calculate_directional_angle_of_line (center c) end_).
Proof.
  intros Hr Heq Hne.
  destruct (get_boundary_between_shape c start end_ extra) as [n [_ [_ [H0 Hrun]]]].
  pose proof (loop_ends (calculate_directional_angle_of_line (center c) start)
                        (calculate_directional_angle_of_line (center c) end_)) as Hends.
  cbv zeta in Hends.
  set (t1 := calculate_directional_angle_of_line (center c) start) in *.
  set (t2 := calculate_directional_angle_of_line (center c) end_) in *.
  set (lo := Rmin t1 t2) in *. set (hi := Rmax t1 t2) in *.
  set (A := if Rleb (hi - lo) PI then lo else hi) in *.
  set (B := if Rleb (hi - lo) PI then hi else lo) in *.
  set (bound := if Rleb (hi - lo) PI then hi else lo + 2 * PI) in *.
  destruct (orientation_tests c start end_ A Hr Heq Hne) as [HA HA'].
  destruct (hd_error_sampled_interval c A bound n B H0) as [E1 [E2 [E3 E4]]].
  assert (forall l d, l <> [] -> last l d = last l (center c)) as Hdefault.
  { intros l d. induction l as [| p [| q l'] IH]; intros Hl; [easy | reflexivity |].
    change (last (q :: l') d = last (q :: l') (center c)). apply IH. discriminate. }
  pose proof (sampled_interval_not_nil c A bound n B) as Hne1.
  assert (rev (sampled_interval c A bound n B) <> []) as Hne2.
  { intros H. apply (f_equal (@rev Coord)) in H. rewrite rev_involutive in H.
    exact (Hne1 H). }
  rewrite (Hdefault _ (point_at c A) Hne1) in E2.
  rewrite (Hdefault _ (point_at c B) Hne2) in E4.
  eexists. split; [exact Hrun |].
  destruct Hends as [[EA EB] | [EA EB]].
  - destruct (HA EA) as [-> _]. rewrite <- EA, <- EB.
    split; [exact E1 | exact E2].
  - destruct (HA' EA) as [-> _]. rewrite <- EA, <- EB.
    split; [exact E3 | exact E4].
Qed.

Lemma equidistant_example :
  0 < radius (Circle_init (mkCoord 0 0) 1) /\
  distance_to (mkCoord 1 0) (center (Circle_init (mkCoord 0 0) 1))
    = distance_to (mkCoord 0 1) (center (Circle_init (mkCoord 0 0) 1)) /\
  mkCoord 1 0 <> mkCoord 0 1.
Proof.
  split; [simpl; lra |]. split.
  - unfold distance_to; simpl; f_equal; ring.
  - intros H; apply (f_equal x) in H; simpl in H; lra.
Qed.

Lemma get_boundary_between_joins_directions_witness :
  exists l,
    get_boundary_between (BUFFER_RESOLUTION + 0) (Circle_init (mkCoord 0 0) 1)
                         (mkCoord 1 0) (mkCoord 0 1) = Return l /\
    hd_error l
      = Some (point_at (Circle_init (mkCoord 0 0) 1)
                (calculate_directional_angle_of_line
                   (center (Circle_init (mkCoord 0 0) 1)) (mkCoord 1 0))) /\
    last l (center (Circle_init (mkCoord 0 0) 1))
      = point_at (Circle_init (mkCoord 0 0) 1)
          (calculate_directional_angle_of_line
             (center (Circle_init (mkCoord 0 0) 1)) (mkCoord 0 1)).
Proof.
  exact (get_boundary_between_joins_directions
           (Circle_init (mkCoord 0 0) 1) (mkCoord 1 0) (mkCoord 0 1) 0
           (proj1 equidistant_example)
           (proj1 (proj2 equidistant_example))
           (proj2 (proj2 equidistant_example))).
Defined.

(** X4.  For a circle of positive radius and two distinct points equally far
    from the centre, swapping [start] and [end] returns the same points in
    the reverse order. *)
Theorem get_boundary_between_swapped
    (c : Circle) (start end_ : Coord) (extra : nat) :
  0 < radius c ->
  distance_to start (center c) = distance_to end_ (center c) ->
  start <> end_ ->
  exists l,
    get_boundary_between (BUFFER_RESOLUTION + extra) c start end_ = Return l /\
    get_boundary_between (BUFFER_RESOLUTION + extra) c end_ start = Return (rev l).
Proof.
  intros Hr Heq Hne.
  destruct (get_boundary_between_shape c start end_ extra) as [n [_ [Hn [_ Hrun]]]].
  destruct (get_boundary_between_shape_swapped c start end_ extra)
    as [n' [_ [Hn' [_ Hrun']]]].
  pose proof (loop_ends (calculate_directional_angle_of_line (center c) start)
                        (calculate_directional_angle_of_line (center c) end_)) as Hends.
  cbv zeta in Hends.
  set (t1 := calculate_directional_angle_of_line (center c) start) in *.
  set (t2 := calculate_directional_angle_of_line (center c) end_) in *.
  set (lo := Rmin t1 t2) in *. set (hi := Rmax t1 t2) in *.
  set (A := if Rleb (hi - lo) PI then lo else hi) in *.
  set (B := if Rleb (hi - lo) PI then hi else lo) in *.
  set (bound := if Rleb (hi - lo) PI then hi else lo + 2 * PI) in *.
  assert (n' = n) as -> by (apply (steps_below_unique A bound); assumption).
  destruct (orientation_tests c start end_ A Hr Heq Hne) as [HA HA'].
  eexists. split; [exact Hrun |]. rewrite Hrun'.
  destruct Hends as [[EA _] | [EA _]].
  - destruct (HA EA) as [-> ->]. reflexivity.
  - destruct (HA' EA) as [-> ->]. rewrite rev_involutive. reflexivity.
Qed.

Lemma get_boundary_between_swapped_witness :
  exists l,
    get_boundary_between (BUFFER_RESOLUTION + 0) (Circle_init (mkCoord 0 0) 1)
                         (mkCoord 1 0) (mkCoord 0 1) = Return l /\
    get_boundary_between (BUFFER_RESOLUTION + 0) (Circle_init (mkCoord 0 0) 1)
                         (mkCoord 0 1) (mkCoord 1 0) = Return (rev l).
Proof.
  exact (get_boundary_between_swapped
           (Circle_init (mkCoord 0 0) 1) (mkCoord 1 0) (mkCoord 0 1) 0
           (proj1 equidistant_example)
           (proj1 (proj2 equidistant_example))
           (proj2 (proj2 equidistant_example))).
Defined.

(** ** [calculate_exit_point]: where the exit lies *)

Lemma distance_to_zero (p q : Coord) : distance_to p q = 0 -> p = q.
Proof.
  intros H. pose proof (distance_to_sqr p q) as Hsq. rewrite H in Hsq.
  assert ((x p - x q) * (x p - x q) + (y p - y q) * (y p - y q) = 0) as H0 by lra.
  apply null_vector in H0. destruct H0. apply Coord_eq; lra.
Qed.

Lemma distance_to_self_zero (p : Coord) : distance_to p p = 0.
Proof. apply distance_to_eq; [lra | ring]. Qed.





(** X6.  Asked for the exit towards a target that is itself a point of the
    circle at distance [chord] from [start], the call returns that target
    (from any [start] other than the centre). *)
Theorem calculate_exit_point_reaches_target (c : Circle) (start : Coord) (chord : R)
    (target : Coord) :
  0 <= radius c -> 0 < distance_to (center c) start -> 0 <= chord < radius c * 2 ->
  distance_to target (center c) = radius c ->
  distance_to target start = chord ->
  calculate_exit_point c start chord target = Return target.
Proof.
  intros Hr Hd Hc H1 H2.
  apply calculate_exit_point_is; try assumption.
  intros q _ _.
  pose proof (distance_to_nonneg q target) as [Hpos | Hzero].
  - right. rewrite distance_to_self_zero. exact Hpos.
  - left. apply distance_to_zero. symmetry; exact Hzero.
Qed.

Lemma calculate_exit_point_reaches_target_witness :
  calculate_exit_point threat5 source8 5 (mkCoord (-4) 3) = Return (mkCoord (-4) 3).
Proof.
  apply (calculate_exit_point_reaches_target threat5 source8 5 (mkCoord (-4) 3)).
  - simpl; lra.
  - assert (distance_to (center threat5) source8 = 8) as ->
      by (apply distance_to_eq; simpl; lra). lra.
  - simpl; lra.
  - apply distance_to_eq; simpl; lra.
  - apply distance_to_eq; simpl; lra.
Defined.

(** ** [calculate_partition_between_circles]: the segment returned *)

(** A returned segment is the stretch of the segment built between two of
    its parameters. *)
Lemma partition_parameters
    (intersection_coords : list Coord -> Segment -> list Coord)
    (circle1 circle2 : Circle) (source target : Coord) (all_circles : list Circle)
    (s : Segment) :
  hull_intersection (all_shapely_points source target all_circles)
    (inf_partition circle1 circle2)
    (intersection_coords (all_shapely_points source target all_circles)
                         (inf_partition circle1 circle2)) ->
  calculate_partition_between_circles intersection_coords circle1 circle2
    source target all_circles = Return s ->
  exists t0 t1,
    0 <= t0 /\ t0 < t1 /\ t1 <= 1 /\
    (forall t, 0 <= t <= 1 ->
       (in_hull (all_shapely_points source target all_circles)
                (mix t (seg_a (inf_partition circle1 circle2))
                       (seg_b (inf_partition circle1 circle2)))
        <-> t0 <= t <= t1)) /\
    (s = mkSegment (mix t0 (seg_a (inf_partition circle1 circle2))
                           (seg_b (inf_partition circle1 circle2)))
                   (mix t1 (seg_a (inf_partition circle1 circle2))
                           (seg_b (inf_partition circle1 circle2)))
     \/
     s = mkSegment (mix t1 (seg_a (inf_partition circle1 circle2))
                           (seg_b (inf_partition circle1 circle2)))
                   (mix t0 (seg_a (inf_partition circle1 circle2))
                           (seg_b (inf_partition circle1 circle2)))).
Proof.
  intros Hcoords Hret.
  destruct (Nat.ltb_spec (length (all_shapely_points source target all_circles)) 3)
    as [Hfew | Hlen].
  { rewrite partition_of_few_points in Hret by exact Hfew. discriminate. }
  rewrite (partition_of_coords _ _ _ _ _ _ Hlen) in Hret.
  destruct (hull_intersection_cases _ _ _ Hcoords)
    as [[Hl _] | [[t0 [Hl _]] | [t0 [t1 [Hl [Hge [Hlt [Hle Hiff]]]]]]]].
  - rewrite Hl in Hret; discriminate.
  - rewrite Hl in Hret; discriminate.
  - exists t0, t1. repeat (split; [assumption |]).
    destruct Hl as [Hl | Hl]; rewrite Hl in Hret; injection Hret as <-;
      [left | right]; reflexivity.
Qed.

Lemma mix_from_point_between (circle1 circle2 : Circle) (t : R) :
  let theta := angle_of (mkSegment (center circle1) (center circle2)) in
  let P := point_between circle1 circle2 in
  mix t (seg_a (inf_partition circle1 circle2)) (seg_b (inf_partition circle1 circle2))
  = mkCoord (x P - (1 - 2 * t) * INF * sin theta) (y P + (1 - 2 * t) * INF * cos theta).
Proof.
  intros theta P. destruct (inf_partition_ends circle1 circle2) as [-> ->].
  fold theta P. apply Coord_eq; simpl; ring.
Qed.

Lemma distance_from_point_between (circle1 circle2 : Circle) (t : R) :
  0 <= t <= 1 ->
  distance_to
    (mix t (seg_a (inf_partition circle1 circle2)) (seg_b (inf_partition circle1 circle2)))
    (point_between circle1 circle2) <= INF.
Proof.
  intros Ht. rewrite mix_from_point_between.
  set (theta := angle_of _). set (P := point_between _ _).
  pose proof (sin2_cos2 theta) as Hcs. unfold Rsqr in Hcs.
  assert (distance_to (mkCoord (x P - (1 - 2 * t) * INF * sin theta)
                               (y P + (1 - 2 * t) * INF * cos theta)) P
          = Rabs (1 - 2 * t) * INF) as ->.
  { apply distance_to_eq.
    - apply Rmult_le_pos; [apply Rabs_pos | unfold INF; lra].
    - cbn [x y].
      assert (Rabs (1 - 2 * t) * Rabs (1 - 2 * t) = (1 - 2 * t) * (1 - 2 * t)) as Habs
        by (unfold Rabs; destruct (Rcase_abs (1 - 2 * t)); ring).
      match goal with
      | |- _ = ?R =>
          replace R with ((Rabs (1 - 2 * t) * Rabs (1 - 2 * t)) * (INF * INF)) by ring
      end.
      rewrite Habs.
      match goal with
      | |- ?L = _ =>
          replace L with ((1 - 2 * t) * (1 - 2 * t) * (INF * INF)
                          * (sin theta * sin theta + cos theta * cos theta)) by ring
      end.
      rewrite Hcs; ring. }
  assert (Rabs (1 - 2 * t) <= 1) by (apply Rabs_le; lra).
  unfold INF in *. lra.
Qed.

Lemma inf_partition_length (circle1 circle2 : Circle) :
  length_of (inf_partition circle1 circle2) = 2 * INF.
Proof.
  unfold length_of. destruct (inf_partition_ends circle1 circle2) as [-> ->].
  set (theta := angle_of _). set (P := point_between _ _).
  pose proof (sin2_cos2 theta) as Hcs. unfold Rsqr in Hcs.
  apply distance_to_eq; [unfold INF; lra |]. cbn [x y].
  match goal with
  | |- ?L = _ =>
      replace L with (4 * INF * INF * (sin theta * sin theta + cos theta * cos theta))
        by ring
  end.
  rewrite Hcs; ring.
Qed.

(** X7.  A returned segment never reaches farther than [INF] from the point
    between the two circles, and is never longer than [2 * INF], however far
    the hull extends. *)
Theorem partition_within_reach
    (intersection_coords : list Coord -> Segment -> list Coord)
    (circle1 circle2 : Circle) (source target : Coord) (all_circles : list Circle)
    (s : Segment) :
  hull_intersection (all_shapely_points source target all_circles)
    (inf_partition circle1 circle2)
    (intersection_coords (all_shapely_points source target all_circles)
                         (inf_partition circle1 circle2)) ->
  calculate_partition_between_circles intersection_coords circle1 circle2
    source target all_circles = Return s ->
  distance_to (seg_a s) (point_between circle1 circle2) <= INF /\
  distance_to (seg_b s) (point_between circle1 circle2) <= INF /\
  length_of s <= 2 * INF.
Proof.
  intros Hcoords Hret.
  destruct (partition_parameters _ _ _ _ _ _ _ Hcoords Hret)
    as [t0 [t1 [H0 [Hlt [H1 [_ Hs]]]]]].
  pose proof (distance_from_point_between circle1 circle2 t0 ltac:(lra)) as D0.
  pose proof (distance_from_point_between circle1 circle2 t1 ltac:(lra)) as D1.
  pose proof (inf_partition_length circle1 circle2) as HL. unfold length_of in HL.
  assert (forall u v, 0 <= u <= 1 -> 0 <= v <= 1 ->
            distance_to (mix u (seg_a (inf_partition circle1 circle2))
                               (seg_b (inf_partition circle1 circle2)))
                        (mix v (seg_a (inf_partition circle1 circle2))
                               (seg_b (inf_partition circle1 circle2)))
            <= 2 * INF) as Hlen.
  { intros u v Hu Hv. rewrite distance_mix, HL.
    assert (Rabs (u - v) <= 1) by (apply Rabs_le; lra).
    unfold INF; lra. }
  destruct Hs as [-> | ->]; unfold length_of; simpl seg_a; simpl seg_b;
    (split; [assumption |]; split; [assumption |]; apply Hlen; lra).
Qed.

Lemma partition_within_reach_witness :
  distance_to (seg_a (mkSegment (mkCoord 0 100) (mkCoord 0 (-100))))
              (point_between west1 east1) <= INF /\
  distance_to (seg_b (mkSegment (mkCoord 0 100) (mkCoord 0 (-100))))
              (point_between west1 east1) <= INF /\
  length_of (mkSegment (mkCoord 0 100) (mkCoord 0 (-100))) <= 2 * INF.
Proof.
  exact (partition_within_reach coords_at_height_0 west1 east1
           (left_of 0) (right_of 0) [pillar 0]
           (mkSegment (mkCoord 0 100) (mkCoord 0 (-100)))
           coords_at_height_0_meet partition_at_height_0).
Defined.

(** The line of centres seen from either end. *)
Lemma centres_reversed (circle1 circle2 : Circle) :
  center circle1 <> center circle2 ->
  let theta := angle_of (mkSegment (center circle1) (center circle2)) in
  let theta' := angle_of (mkSegment (center circle2) (center circle1)) in
  let d := length_of (mkSegment (center circle1) (center circle2)) in
  0 < d /\
  length_of (mkSegment (center circle2) (center circle1)) = d /\
  x (center circle2) - x (center circle1) = d * cos theta /\
  y (center circle2) - y (center circle1) = d * sin theta /\
  cos theta' = - cos theta /\ sin theta' = - sin theta.
Proof.
  intros Hne theta theta' d.
  assert (0 < d) as Hd.
  { unfold d, length_of; simpl seg_a; simpl seg_b.
    pose proof (distance_to_nonneg (center circle1) (center circle2)) as [H | H];
      [exact H |].
    exfalso. apply Hne. apply distance_to_zero. symmetry; exact H. }
  assert (length_of (mkSegment (center circle2) (center circle1)) = d) as Hd'
    by (unfold d, length_of; simpl; apply distance_to_sym).
  destruct (atan2_polar (y (center circle2) - y (center circle1))
                        (x (center circle2) - x (center circle1))) as [Hx Hy].
  destruct (atan2_polar (y (center circle1) - y (center circle2))
                        (x (center circle1) - x (center circle2))) as [Hx' Hy'].
  assert (sqrt ((x (center circle2) - x (center circle1)) *
                (x (center circle2) - x (center circle1)) +
                (y (center circle2) - y (center circle1)) *
                (y (center circle2) - y (center circle1))) = d) as E
    by (unfold d, length_of, distance_to; simpl; f_equal; ring).
  assert (sqrt ((x (center circle1) - x (center circle2)) *
                (x (center circle1) - x (center circle2)) +
                (y (center circle1) - y (center circle2)) *
                (y (center circle1) - y (center circle2))) = d) as E'
    by (unfold d, length_of, distance_to; simpl; f_equal; ring).
  rewrite E in Hx, Hy. rewrite E' in Hx', Hy'.
  fold (angle_of (mkSegment (center circle1) (center circle2))) in Hx, Hy.
  change (atan2 (y (center circle1) - y (center circle2))
                (x (center circle1) - x (center circle2)))
    with theta' in Hx', Hy'.
  change (atan2 (y (center circle2) - y (center circle1))
                (x (center circle2) - x (center circle1)))
    with theta in Hx, Hy.
  split; [exact Hd |]. split; [exact Hd' |].
  split; [exact Hx |]. split; [exact Hy |].
  split; apply Rmult_eq_reg_l with d; lra.
Qed.

Lemma point_between_swapped (circle1 circle2 : Circle) :
  center circle1 <> center circle2 ->
  point_between circle2 circle1 = point_between circle1 circle2.
Proof.
  intros Hne.
  destruct (centres_reversed circle1 circle2 Hne) as [Hd [Hd' [Hx [Hy [Hc Hs]]]]].
  unfold point_between. rewrite Hd'.
  set (d := length_of (mkSegment (center circle1) (center circle2))) in *.
  unfold shifted. rewrite Hc, Hs. apply Coord_eq; cbn [x y]; lra.
Qed.

Lemma inf_partition_swapped (circle1 circle2 : Circle) :
  center circle1 <> center circle2 ->
  inf_partition circle2 circle1 =
  mkSegment (seg_b (inf_partition circle1 circle2))
            (seg_a (inf_partition circle1 circle2)).
Proof.
  intros Hne.
  destruct (centres_reversed circle1 circle2 Hne) as [_ [_ [_ [_ [Hc Hs]]]]].
  pose proof (inf_partition_ends circle1 circle2) as H12.
  pose proof (inf_partition_ends circle2 circle1) as H21.
  cbv zeta in H12, H21. destruct H12 as [-> ->]. destruct H21 as [Ha Hb].
  rewrite (point_between_swapped circle1 circle2 Hne), Hc, Hs in Ha, Hb.
  destruct (inf_partition circle2 circle1) as [a b].
  cbn [seg_a seg_b] in Ha, Hb. subst a b.
  f_equal; apply Coord_eq; cbn [x y]; ring.
Qed.

Lemma mix_swapped (t : R) (a b : Coord) : mix t b a = mix (1 - t) a b.
Proof. apply Coord_eq; simpl; ring. Qed.

(** X8.  The partition does not depend on the order of the two circles: for
    distinct centres, if the call returns a segment, the call with the two
    circles swapped returns the same segment, or the same with its ends
    exchanged. *)
Theorem partition_symmetric
    (intersection_coords : list Coord -> Segment -> list Coord)
    (circle1 circle2 : Circle) (source target : Coord) (all_circles : list Circle)
    (s : Segment) :
  center circle1 <> center circle2 ->
  hull_intersection (all_shapely_points source target all_circles)
    (inf_partition circle1 circle2)
    (intersection_coords (all_shapely_points source target all_circles)
                         (inf_partition circle1 circle2)) ->
  hull_intersection (all_shapely_points source target all_circles)
    (inf_partition circle2 circle1)
    (intersection_coords (all_shapely_points source target all_circles)
                         (inf_partition circle2 circle1)) ->
  calculate_partition_between_circles intersection_coords circle1 circle2
    source target all_circles = Return s ->
  calculate_partition_between_circles intersection_coords circle2 circle1
    source target all_circles = Return s
  \/
  calculate_partition_between_circles intersection_coords circle2 circle1
    source target all_circles = Return (mkSegment (seg_b s) (seg_a s)).
Proof.
  intros Hne H12 H21 Hret.
  destruct (partition_parameters _ _ _ _ _ _ _ H12 Hret)
    as [t0 [t1 [H0 [Hlt [H1 [Hiff Hs]]]]]].
  assert (3 <= length (all_shapely_points source target all_circles))%nat as Hlen.
  { destruct (Nat.ltb_spec (length (all_shapely_points source target all_circles)) 3)
      as [Hfew | Hlen]; [| exact Hlen].
    rewrite partition_of_few_points in Hret by exact Hfew. discriminate. }
  rewrite !(partition_of_coords intersection_coords circle2 circle1
              source target all_circles Hlen).
  apply hull_intersection_cases in H21.
  rewrite (inf_partition_swapped circle1 circle2 Hne) in H21 |- *.
  cbn [seg_a seg_b] in H21.
  clear H12 Hret Hlen. revert Hiff Hs H21.
  generalize (all_shapely_points source target all_circles).
  intros points.
  generalize (seg_a (inf_partition circle1 circle2))
             (seg_b (inf_partition circle1 circle2)).
  intros a b.
  generalize (intersection_coords points (mkSegment b a)).
  intros l Hiff Hs H21.
  destruct H21
    as [[_ Hmiss] | [[u0 [_ [Hu0 Hone]]] | [u0 [u1 [Hl [Hu0 [Hult [Hu1 Hiff']]]]]]]].
  - exfalso. apply (Hmiss (1 - t0)); [lra |].
    rewrite mix_swapped. replace (1 - (1 - t0)) with t0 by ring. apply Hiff; lra.
  - exfalso.
    assert (1 - t0 = u0) as E0.
    { apply Hone; [lra |]. rewrite mix_swapped.
      replace (1 - (1 - t0)) with t0 by ring. apply Hiff; lra. }
    assert (1 - t1 = u0) as E1.
    { apply Hone; [lra |]. rewrite mix_swapped.
      replace (1 - (1 - t1)) with t1 by ring. apply Hiff; lra. }
    lra.
  - assert (forall t, 0 <= t <= 1 -> (u0 <= t <= u1 <-> 1 - t1 <= t <= 1 - t0))
      as Hsame.
    { intros t Ht. rewrite <- (Hiff' t Ht), mix_swapped.
      assert (0 <= 1 - t <= 1) as Ht' by lra.
      rewrite (Hiff (1 - t) Ht'). split; intros; lra. }
    assert (u0 = 1 - t1) as E0.
    { apply Rle_antisym.
      - apply (Hsame (1 - t1)); lra.
      - apply (Hsame u0); lra. }
    assert (u1 = 1 - t0) as E1.
    { apply Rle_antisym.
      - apply (Hsame u1); lra.
      - apply (Hsame (1 - t0)); lra. }
    rewrite E0, E1, (mix_swapped (1 - t1) a b), (mix_swapped (1 - t0) a b) in Hl.
    replace (1 - (1 - t1)) with t1 in Hl by ring.
    replace (1 - (1 - t0)) with t0 in Hl by ring.
    destruct Hl as [-> | ->]; destruct Hs as [-> | ->]; cbn [seg_a seg_b];
      solve [left; reflexivity | right; reflexivity].
Qed.

Lemma west_east_centres_apart : center west1 <> center east1.
Proof. intros H. apply (f_equal x) in H. simpl in H. lra. Qed.

Lemma coords_at_height_0_meet_swapped :
  hull_intersection (all_shapely_points (left_of 0) (right_of 0) [pillar 0])
    (inf_partition east1 west1)
    (coords_at_height_0 (all_shapely_points (left_of 0) (right_of 0) [pillar 0])
                        (inf_partition east1 west1)).
Proof.
  unfold coords_at_height_0.
  rewrite (inf_partition_swapped west1 east1 west_east_centres_apart).
  apply hull_crossed; [lra | lra | lra |].
  intros t Ht. cbn [seg_a seg_b]. rewrite mix_swapped, pillar_trace.
  split; intros H; lra.
Qed.

Lemma partition_symmetric_witness :
  calculate_partition_between_circles coords_at_height_0 east1 west1
    (left_of 0) (right_of 0) [pillar 0]
  = Return (mkSegment (mkCoord 0 100) (mkCoord 0 (-100)))
  \/
  calculate_partition_between_circles coords_at_height_0 east1 west1
    (left_of 0) (right_of 0) [pillar 0]
  = Return (mkSegment (seg_b (mkSegment (mkCoord 0 100) (mkCoord 0 (-100))))
                      (seg_a (mkSegment (mkCoord 0 100) (mkCoord 0 (-100))))).
Proof.
  exact (partition_symmetric coords_at_height_0 west1 east1
           (left_of 0) (right_of 0) [pillar 0]
           (mkSegment (mkCoord 0 100) (mkCoord 0 (-100)))
           west_east_centres_apart
           coords_at_height_0_meet coords_at_height_0_meet_swapped
           partition_at_height_0).
Defined.

(** The second centre, from the first, in polar form. *)
Lemma centres_polar (circle1 circle2 : Circle) :
  let theta := angle_of (mkSegment (center circle1) (center circle2)) in
  let d := distance_to (center circle1) (center circle2) in
  x (center circle2) = x (center circle1) + d * cos theta /\
  y (center circle2) = y (center circle1) + d * sin theta.
Proof.
  intros theta d.
  destruct (atan2_polar (y (center circle2) - y (center circle1))
                        (x (center circle2) - x (center circle1))) as [Hx Hy].
  assert (sqrt ((x (center circle2) - x (center circle1)) *
                (x (center circle2) - x (center circle1)) +
                (y (center circle2) - y (center circle1)) *
                (y (center circle2) - y (center circle1))) = d) as E
    by (unfold d, distance_to; f_equal; ring).
  rewrite E in Hx, Hy.
  change (atan2 (y (center circle2) - y (center circle1))
                (x (center circle2) - x (center circle1)))
    with theta in Hx, Hy.
  split; lra.
Qed.

(** Along the whole partition line the squared distances to the two centres
    differ by the same amount. *)
Lemma partition_line_power (circle1 circle2 : Circle) (t : R) :
  let q := mix t (seg_a (inf_partition circle1 circle2))
                 (seg_b (inf_partition circle1 circle2)) in
  distance_to q (center circle1) * distance_to q (center circle1)
  - distance_to q (center circle2) * distance_to q (center circle2)
  = (radius circle1 - radius circle2)
    * distance_to (center circle1) (center circle2).
Proof.
  intros q. unfold q. rewrite mix_from_point_between, !distance_to_sqr.
  unfold point_between, length_of, shifted. cbn [x y seg_a seg_b].
  destruct (centres_polar circle1 circle2) as [Hx Hy].
  set (theta := angle_of (mkSegment (center circle1) (center circle2))) in *.
  set (d := distance_to (center circle1) (center circle2)) in *.
  pose proof (sin2_cos2 theta) as Hcs. unfold Rsqr in Hcs.
  rewrite Hx, Hy.
  match goal with
  | |- ?L = _ =>
      replace L with
        ((radius circle1 - radius circle2) * d
         * (sin theta * sin theta + cos theta * cos theta)) by field
  end.
  rewrite Hcs. ring.
Qed.

(** X9.  Where the partition runs between the two circles: at either end of
    the segment returned, the squared distances to the two centres differ by
    [(radius1 - radius2)] times the distance of the centres; for circles of
    equal radius both ends are equally far from the two centres. *)
Theorem partition_ends_between_centres
    (intersection_coords : list Coord -> Segment -> list Coord)
    (circle1 circle2 : Circle) (source target : Coord) (all_circles : list Circle)
    (s : Segment) :
  hull_intersection (all_shapely_points source target all_circles)
    (inf_partition circle1 circle2)
    (intersection_coords (all_shapely_points source target all_circles)
                         (inf_partition circle1 circle2)) ->
  calculate_partition_between_circles intersection_coords circle1 circle2
    source target all_circles = Return s ->
  forall q, q = seg_a s \/ q = seg_b s ->
    distance_to q (center circle1) * distance_to q (center circle1)
    - distance_to q (center circle2) * distance_to q (center circle2)
    = (radius circle1 - radius circle2)
      * distance_to (center circle1) (center circle2)
    /\ (radius circle1 = radius circle2 ->
        distance_to q (center circle1) = distance_to q (center circle2)).
Proof.
  intros Hcontract Hret q Hq.
  destruct (partition_parameters _ _ _ _ _ _ _ Hcontract Hret)
    as [t0 [t1 [_ [_ [_ [_ Hs]]]]]].
  assert (exists t, q = mix t (seg_a (inf_partition circle1 circle2))
                          (seg_b (inf_partition circle1 circle2))) as [t ->].
  { destruct Hs as [-> | ->]; destruct Hq as [-> | ->]; cbn [seg_a seg_b];
      solve [exists t0; reflexivity | exists t1; reflexivity]. }
  pose proof (partition_line_power circle1 circle2 t) as Hpow. cbv zeta in Hpow.
  split; [exact Hpow |].
  intros Hr. rewrite Hr in Hpow.
  set (q := mix t _ _) in *.
  pose proof (distance_to_nonneg q (center circle1)) as H1.
  pose proof (distance_to_nonneg q (center circle2)) as H2.
  set (u := distance_to q (center circle1)) in *.
  set (v := distance_to q (center circle2)) in *.
  assert ((u - v) * (u + v) = 0) as Hprod by lra.
  apply Rmult_integral in Hprod. destruct Hprod as [H | H]; [lra |].
  assert (u = 0) by lra. assert (v = 0) by lra. lra.
Qed.

Lemma partition_ends_between_centres_witness :
  distance_to (mkCoord 0 100) (center west1) * distance_to (mkCoord 0 100) (center west1)
  - distance_to (mkCoord 0 100) (center east1) * distance_to (mkCoord 0 100) (center east1)
  = (radius west1 - radius east1) * distance_to (center west1) (center east1)
  /\ (radius west1 = radius east1 ->
      distance_to (mkCoord 0 100) (center west1)
      = distance_to (mkCoord 0 100) (center east1)).
Proof.
  apply (partition_ends_between_centres coords_at_height_0 west1 east1
           (left_of 0) (right_of 0) [pillar 0]
           (mkSegment (mkCoord 0 100) (mkCoord 0 (-100)))
           coords_at_height_0_meet partition_at_height_0 (mkCoord 0 100)).
  left; reflexivity.
Defined.

(** X10.  The point where the partition line crosses the line of centres
    keeps the same clearance from both circles, half of the gap between
    them, as long as neither circle lies strictly inside the other
    ([|radius1 - radius2| <= distance of the centres]); it is the middle of
    the long segment that the hull then cuts. *)
Theorem point_between_clearance (circle1 circle2 : Circle) :
  Rabs (radius circle1 - radius circle2)
    <= distance_to (center circle1) (center circle2) ->
  distance_to (point_between circle1 circle2) (center circle1) - radius circle1
  = (distance_to (center circle1) (center circle2)
     - radius circle1 - radius circle2) / 2
  /\
  distance_to (point_between circle1 circle2) (center circle2) - radius circle2
  = (distance_to (center circle1) (center circle2)
     - radius circle1 - radius circle2) / 2
  /\
  mix (1 / 2) (seg_a (inf_partition circle1 circle2))
              (seg_b (inf_partition circle1 circle2))
  = point_between circle1 circle2.
Proof.
  intros Habs. apply Rabs_le_between in Habs.
  destruct (centres_polar circle1 circle2) as [Hx Hy]. cbv zeta in Hx, Hy.
  split; [| split].
  - unfold point_between, length_of. cbn [seg_a seg_b].
    rewrite distance_to_shifted by lra. lra.
  - assert (distance_to (point_between circle1 circle2) (center circle2)
            = (distance_to (center circle1) (center circle2)
               - radius circle1 + radius circle2) / 2) as ->; [| lra].
    apply distance_to_eq; [lra |].
    unfold point_between, length_of, shifted. cbn [x y seg_a seg_b].
    set (theta := angle_of (mkSegment (center circle1) (center circle2))) in *.
    set (d := distance_to (center circle1) (center circle2)) in *.
    pose proof (sin2_cos2 theta) as Hcs. unfold Rsqr in Hcs.
    rewrite Hx, Hy.
    match goal with
    | |- ?L = _ =>
        replace L with
          ((d - radius circle1 + radius circle2) / 2
           * ((d - radius circle1 + radius circle2) / 2)
           * (sin theta * sin theta + cos theta * cos theta)) by field
    end.
    rewrite Hcs. ring.
  - rewrite mix_from_point_between. apply Coord_eq; cbn [x y]; lra.
Qed.

Lemma point_between_clearance_witness :
  distance_to (point_between west1 east1) (center west1) - radius west1
  = (distance_to (center west1) (center east1) - radius west1 - radius east1) / 2
  /\
  distance_to (point_between west1 east1) (center east1) - radius east1
  = (distance_to (center west1) (center east1) - radius west1 - radius east1) / 2
  /\
  mix (1 / 2) (seg_a (inf_partition west1 east1)) (seg_b (inf_partition west1 east1))
  = point_between west1 east1.
Proof.
  apply (point_between_clearance west1 east1).
  simpl. replace (1 - 1) with 0 by ring. rewrite Rabs_R0. apply distance_to_nonneg.
Defined.

(** ** [calculate_partition_between_circles]: too few points for a hull *)

Lemma all_shapely_points_length (l : list Circle) (acc : list Coord) :
  length (fold_left (fun points circle => points ++ to_shapely circle) l acc)
  = (length acc + length (flat_map to_shapely l))%nat.
Proof.
  revert acc. induction l as [| c l IH]; intros acc; simpl.
  - lia.
  - rewrite IH, !length_app. lia.
Qed.

(** The call raises [ValueError] exactly when [Polygon] is given fewer than
    three coordinates. *)
Lemma partition_value_error_few_points
    (intersection_coords : list Coord -> Segment -> list Coord)
    (circle1 circle2 : Circle) (source target : Coord) (all_circles : list Circle) :
  calculate_partition_between_circles intersection_coords circle1 circle2
    source target all_circles = Raise ValueError
  <-> (length (all_shapely_points source target all_circles) < 3)%nat.
Proof.
  split.
  - intros Hraise.
    destruct (Nat.ltb_spec (length (all_shapely_points source target all_circles)) 3)
      as [Hfew | Hmany]; [exact Hfew |].
    rewrite (partition_of_coords _ _ _ _ _ _ Hmany) in Hraise.
    destruct (intersection_coords _ _) as [| p0 [| p1 l]]; discriminate.
  - apply partition_of_few_points.
Qed.

(** X11.  With every listed circle built by the constructor with a positive
    radius (one whose polygon has its ring), the call raises [ValueError]
    exactly when [all_circles] is empty: source and target alone are too
    few coordinates for [Polygon], the ring of one circle is enough. *)
Theorem partition_value_error_iff
    (intersection_coords : list Coord -> Segment -> list Coord)
    (circle1 circle2 : Circle) (source target : Coord) (all_circles : list Circle) :
  Forall (fun c => exists center0 radius0,
                     0 < radius0 /\ c = Circle_init center0 radius0) all_circles ->
  (calculate_partition_between_circles intersection_coords circle1 circle2
     source target all_circles = Raise ValueError
   <-> all_circles = []).
Proof.
  intros Hbuilt. rewrite partition_value_error_few_points.
  pose proof (all_shapely_points_length all_circles [source; target]) as Hlen.
  fold (all_shapely_points source target all_circles) in Hlen. rewrite Hlen.
  destruct Hbuilt as [| c rest [center0 [radius0 [_ ->]]] _].
  - simpl. split; [reflexivity | lia].
  - cbn [flat_map]. rewrite length_app.
    unfold to_shapely at 1, Circle_init. cbn [_inner_polygon].
    rewrite buffer_length. cbn [length]. split; [lia | discriminate].
Qed.

Lemma partition_value_error_iff_witness :
  calculate_partition_between_circles coords_at_height_0 west1 east1
    (left_of 0) (right_of 0) [pillar 0] = Raise ValueError
  <-> [pillar 0] = [].
Proof.
  apply (partition_value_error_iff coords_at_height_0 west1 east1
           (left_of 0) (right_of 0) [pillar 0]).
  constructor; [| constructor].
  exists (mkCoord 0 0), 100. split; [lra | reflexivity].
Defined.

(** ** Random threats *)

Lemma randint_range (a b : Z) (g : Random) (n : Z) (g' : Random) :
  randint a b g = Return (n, g') -> (a <= n <= b)%Z /\ g' = advance g.
Proof.
  unfold randint. destruct (Z.ltb_spec b a) as [H | H]; [discriminate |].
  intros E. injection E as <- <-. split; [| reflexivity].
  pose proof (Z.mod_pos_bound (g O) (b - a + 1)) as Hm. lia.
Qed.

Lemma randint_returns (a b : Z) (g : Random) :
  (a <= b)%Z ->
  exists n, randint a b g = Return (n, advance g) /\ (a <= n <= b)%Z.
Proof.
  intros H. unfold randint. destruct (Z.ltb_spec b a) as [H' | _]; [lia |].
  eexists; split; [reflexivity |].
  pose proof (Z.mod_pos_bound (g O) (b - a + 1)) as Hm. lia.
Qed.

Lemma randint_empty (a b : Z) (g : Random) :
  (b < a)%Z -> randint a b g = Raise ValueError.
Proof.
  intros H. unfold randint. destruct (Z.ltb_spec b a) as [_ | H']; [reflexivity | lia].
Qed.

Lemma coordinates_within_distance (q p : Coord) :
  Rabs (x q - x p) <= distance_to q p /\ Rabs (y q - y p) <= distance_to q p.
Proof.
  unfold distance_to.
  pose proof (Rle_0_sqr (x q - x p)) as Hx. pose proof (Rle_0_sqr (y q - y p)) as Hy.
  unfold Rsqr in Hx, Hy.
  split; rewrite <- sqrt_Rsqr_abs; apply sqrt_le_1_alt; unfold Rsqr; lra.
Qed.

(** What a successful call of [generate_random_threat] has drawn. *)
Lemma generate_random_threat_draws (environment_range radius_range : Z * Z)
    (g : Random) (c : Circle) (g' : Random) :
  generate_random_threat environment_range radius_range g = Return (c, g') ->
  exists r cx cy : Z,
    c = Circle_init (mkCoord (IZR cx) (IZR cy)) (IZR r) /\
    g' = advance (advance (advance g)) /\
    (fst radius_range <= r <= snd radius_range)%Z /\
    (r <= cx <= fst environment_range - r)%Z /\
    (r <= cy <= snd environment_range - r)%Z.
Proof.
  unfold generate_random_threat. intros H.
  destruct (randint (fst radius_range) (snd radius_range) g)
    as [[r g1] | e |] eqn:E1; cbn [bind fst snd] in H; try discriminate.
  destruct (randint r (fst environment_range - r) g1)
    as [[cx g2] | e |] eqn:E2; cbn [bind fst snd] in H; try discriminate.
  destruct (randint r (snd environment_range - r) g2)
    as [[cy g3] | e |] eqn:E3; cbn [bind fst snd] in H; try discriminate.
  injection H as <- <-.
  apply randint_range in E1, E2, E3.
  destruct E1 as [H1 ->], E2 as [H2 ->], E3 as [H3 ->].
  exists r, cx, cy. repeat split; lia.
Qed.

(** X12.  A circle returned by [generate_random_threat] has an integer
    radius within [radius_range], its centre at least the radius away from
    every side of the environment, and so lies wholly in the environment
    [[0, x_range] x [0, y_range]]; three random integers have been
    consumed. *)
Theorem generate_random_threat_inside_environment
    (environment_range radius_range : Z * Z) (g : Random)
    (c : Circle) (g' : Random) :
  generate_random_threat environment_range radius_range g = Return (c, g') ->
  (exists r : Z, radius c = IZR r /\
                 (fst radius_range <= r <= snd radius_range)%Z) /\
  radius c <= x (center c) <= IZR (fst environment_range) - radius c /\
  radius c <= y (center c) <= IZR (snd environment_range) - radius c /\
  (forall p, contains c p = true ->
             0 <= x p <= IZR (fst environment_range) /\
             0 <= y p <= IZR (snd environment_range)) /\
  g' = advance (advance (advance g)).
Proof.
  intros H.
  destruct (generate_random_threat_draws _ _ _ _ _ H)
    as [r [cx [cy [-> [-> [Hr [Hx Hy]]]]]]].
  unfold contains, center, radius, Circle_init. cbn [_center _radius x y].
  assert (IZR r <= IZR cx <= IZR (fst environment_range) - IZR r) as Hx'.
  { rewrite <- minus_IZR. split; apply IZR_le; lia. }
  assert (IZR r <= IZR cy <= IZR (snd environment_range) - IZR r) as Hy'.
  { rewrite <- minus_IZR. split; apply IZR_le; lia. }
  split; [exists r; split; [reflexivity | exact Hr] |].
  split; [exact Hx' |]. split; [exact Hy' |]. split; [| reflexivity].
  intros p Hp. apply Rleb_true in Hp.
  destruct (coordinates_within_distance p (mkCoord (IZR cx) (IZR cy))) as [Hpx Hpy].
  cbn [x y] in Hpx, Hpy.
  assert (Rabs (x p - IZR cx) <= IZR r) as Hax by lra.
  assert (Rabs (y p - IZR cy) <= IZR r) as Hay by lra.
  apply Rabs_le_between in Hax, Hay. lra.
Qed.

Lemma generate_random_threat_first :
  generate_random_threat (1000, 1000)%Z (100, 200)%Z (fun _ => 0%Z)
  = Return (Circle_init (mkCoord 100 100) 100, advance (advance (advance (fun _ => 0%Z)))).
Proof. reflexivity. Qed.

Lemma generate_random_threat_inside_environment_witness :
  (exists r : Z, radius (Circle_init (mkCoord 100 100) 100) = IZR r /\
                 (fst (100, 200)%Z <= r <= snd (100, 200)%Z)%Z) /\
  radius (Circle_init (mkCoord 100 100) 100)
    <= x (center (Circle_init (mkCoord 100 100) 100))
    <= IZR (fst (1000, 1000)%Z) - radius (Circle_init (mkCoord 100 100) 100) /\
  radius (Circle_init (mkCoord 100 100) 100)
    <= y (center (Circle_init (mkCoord 100 100) 100))
    <= IZR (snd (1000, 1000)%Z) - radius (Circle_init (mkCoord 100 100) 100) /\
  (forall p, contains (Circle_init (mkCoord 100 100) 100) p = true ->
             0 <= x p <= IZR (fst (1000, 1000)%Z) /\
             0 <= y p <= IZR (snd (1000, 1000)%Z)) /\
  advance (advance (advance (fun _ => 0%Z)))
  = advance (advance (advance (fun _ => 0%Z))).
Proof.
  exact (generate_random_threat_inside_environment (1000, 1000)%Z (100, 200)%Z
           (fun _ => 0%Z) _ _ generate_random_threat_first).
Defined.

(** X13.  When [generate_random_threat] returns and when it raises, for a
    non-empty [radius_range]: it returns a circle whenever the environment
    is at least twice the largest radius wide and high, and raises
    [ValueError] whenever the environment is less than twice the smallest
    radius wide or high.  With an empty [radius_range] it raises
    [ValueError]. *)
Theorem generate_random_threat_returns
    (environment_range radius_range : Z * Z) (g : Random) :
  ((snd radius_range < fst radius_range)%Z ->
   generate_random_threat environment_range radius_range g = Raise ValueError)
  /\
  ((fst radius_range <= snd radius_range)%Z ->
   (2 * snd radius_range <= fst environment_range)%Z ->
   (2 * snd radius_range <= snd environment_range)%Z ->
   exists c, generate_random_threat environment_range radius_range g
             = Return (c, advance (advance (advance g))))
  /\
  ((fst radius_range <= snd radius_range)%Z ->
   (fst environment_range < 2 * fst radius_range)%Z \/
   (snd environment_range < 2 * fst radius_range)%Z ->
   generate_random_threat environment_range radius_range g = Raise ValueError).
Proof.
  unfold generate_random_threat. split; [| split].
  - intros H. rewrite (randint_empty _ _ _ H). reflexivity.
  - intros Hr Hx Hy.
    destruct (randint_returns _ _ g Hr) as [r [-> Hr']]. cbn [bind fst snd].
    destruct (randint_returns r (fst environment_range - r) (advance g))
      as [cx [-> _]]; [lia |]. cbn [bind fst snd].
    destruct (randint_returns r (snd environment_range - r) (advance (advance g)))
      as [cy [-> _]]; [lia |]. cbn [bind fst snd].
    eexists; reflexivity.
  - intros Hr Hsmall.
    destruct (randint_returns _ _ g Hr) as [r [-> Hr']]. cbn [bind fst snd].
    destruct (Z_lt_le_dec (fst environment_range - r) r) as [Hx | Hx].
    + rewrite (randint_empty _ _ _ Hx). reflexivity.
    + destruct (randint_returns r (fst environment_range - r) (advance g) Hx)
        as [cx [-> _]]. cbn [bind fst snd].
      rewrite randint_empty by lia. reflexivity.
Qed.

(** X14.  A circle returned by [generate_non_intersecting_random_circle]
    passes the intersection test with none of the listed circles, and is a
    random threat: integer radius within [radius_range], wholly inside the
    environment. *)
Theorem generate_non_intersecting_random_circle_free
    (fuel : nat) (intersects : Circle -> Circle -> bool) (circles : list Circle)
    (environment_range radius_range : Z * Z) (g : Random)
    (c : Circle) (g' : Random) :
  generate_non_intersecting_random_circle fuel intersects circles
    environment_range radius_range g = Return (c, g') ->
  (forall circle, In circle circles -> intersects circle c = false) /\
  (exists r : Z, radius c = IZR r /\
                 (fst radius_range <= r <= snd radius_range)%Z) /\
  (forall p, contains c p = true ->
             0 <= x p <= IZR (fst environment_range) /\
             0 <= y p <= IZR (snd environment_range)).
Proof.
  revert g. induction fuel as [| fuel IH]; intros g H; [discriminate |].
  cbn [generate_non_intersecting_random_circle] in H.
  destruct (generate_random_threat environment_range radius_range g)
    as [[c0 g0] | e |] eqn:E; cbn [bind fst snd] in H; try discriminate.
  destruct (existsb (fun circle => intersects circle c0) circles) eqn:Ex.
  - exact (IH g0 H).
  - injection H as <- <-.
    destruct (generate_random_threat_draws _ _ _ _ _ E)
      as [r [cx [cy [Hc [_ [Hr [Hx Hy]]]]]]].
    split; [| split].
    + intros circle Hin.
      destruct (intersects circle c0) eqn:Ei; [| reflexivity].
      assert (existsb (fun circle => intersects circle c0) circles = true) as Ht
        by (apply existsb_exists; exists circle; split; assumption).
      rewrite Ht in Ex. discriminate.
    + exists r. split; [rewrite Hc; reflexivity | exact Hr].
    + intros p Hp. rewrite Hc in Hp. apply Rleb_true in Hp.
      unfold center, radius, Circle_init in Hp. cbn [_center _radius] in Hp.
      destruct (coordinates_within_distance p (mkCoord (IZR cx) (IZR cy)))
        as [Hpx Hpy].
      cbn [x y] in Hpx, Hpy.
      assert (IZR r <= IZR cx <= IZR (fst environment_range) - IZR r) as Hx'
        by (rewrite <- minus_IZR; split; apply IZR_le; lia).
      assert (IZR r <= IZR cy <= IZR (snd environment_range) - IZR r) as Hy'
        by (rewrite <- minus_IZR; split; apply IZR_le; lia).
      assert (Rabs (x p - IZR cx) <= IZR r) as Hax by lra.
      assert (Rabs (y p - IZR cy) <= IZR r) as Hay by lra.
      apply Rabs_le_between in Hax, Hay. lra.
Qed.

Lemma first_draw_on_corner50 :
  generate_random_threat (1000, 1000)%Z (50, 150)%Z zeros_then_500
  = Return (Circle_init (mkCoord 50 50) 50,
            advance (advance (advance zeros_then_500)))
  /\ existsb (fun circle => rims_within_10 circle (Circle_init (mkCoord 50 50) 50))
             [corner50] = true.
Proof.
  split; [reflexivity |].
  cbn [existsb]. apply Bool.orb_true_iff; left.
  apply Rleb_true. unfold corner50, center, radius, Circle_init.
  cbn [_center _radius]. rewrite distance_to_self_zero. lra.
Qed.

Lemma second_draw_off_corner50 :
  generate_random_threat (1000, 1000)%Z (50, 150)%Z
    (advance (advance (advance zeros_then_500)))
  = Return (Circle_init (mkCoord 646 646) 146,
            advance (advance (advance (advance (advance (advance zeros_then_500))))))
  /\ existsb (fun circle => rims_within_10 circle (Circle_init (mkCoord 646 646) 146))
             [corner50] = false.
Proof.
  split; [reflexivity |].
  cbn [existsb]. apply Bool.orb_false_iff; split; [| reflexivity].
  apply Rleb_false. unfold corner50, center, radius, Circle_init.
  cbn [_center _radius].
  assert (distance_to (mkCoord 50 50) (mkCoord 646 646) * distance_to (mkCoord 50 50) (mkCoord 646 646)
          = 710432) as Hsq by (rewrite distance_to_sqr; cbn [x y]; lra).
  pose proof (distance_to_nonneg (mkCoord 50 50) (mkCoord 646 646)) as Hpos.
  set (d := distance_to (mkCoord 50 50) (mkCoord 646 646)) in *.
  destruct (Rlt_dec (50 + 146 + 10) d) as [H | H]; [exact H | exfalso].
  assert (d * d <= 206 * 206) by (apply Rmult_le_compat; lra). lra.
Qed.

(** The scenario run: the first draw is rejected, the second returned. *)
Lemma second_draw_returned :
  generate_non_intersecting_random_circle 2 rims_within_10 [corner50]
    (1000, 1000)%Z (50, 150)%Z zeros_then_500
  = Return (Circle_init (mkCoord 646 646) 146,
            advance (advance (advance (advance (advance (advance zeros_then_500)))))).
Proof.
  destruct first_draw_on_corner50 as [E1 X1].
  destruct second_draw_off_corner50 as [E2 X2].
  cbn [generate_non_intersecting_random_circle].
  rewrite E1. cbn [bind fst snd]. rewrite X1.
  rewrite E2. cbn [bind fst snd]. rewrite X2. reflexivity.
Qed.

Lemma generate_non_intersecting_random_circle_free_witness :
  (forall circle, In circle [corner50] ->
     rims_within_10 circle (Circle_init (mkCoord 646 646) 146) = false) /\
  (exists r : Z, radius (Circle_init (mkCoord 646 646) 146) = IZR r /\
                 (fst (50, 150)%Z <= r <= snd (50, 150)%Z)%Z) /\
  (forall p, contains (Circle_init (mkCoord 646 646) 146) p = true ->
             0 <= x p <= IZR (fst (1000, 1000)%Z) /\
             0 <= y p <= IZR (snd (1000, 1000)%Z)).
Proof.
  exact (generate_non_intersecting_random_circle_free 2 rims_within_10 [corner50]
           (1000, 1000)%Z (50, 150)%Z zeros_then_500 _ _ second_draw_returned).
Defined.

(** X15.  The loop returns the first draw that passes the test: if the
    draws of the rounds before round [k] each intersect a listed circle and
    the draw of round [k] intersects none, the call returns that draw, given
    fuel for more than [k] rounds.  Each round takes three random
    integers. *)
Theorem generate_non_intersecting_random_circle_first_free
    (intersects : Circle -> Circle -> bool) (circles : list Circle)
    (environment_range radius_range : Z * Z) (k : nat) (g : Random)
    (c : Circle) (g' : Random) :
  (forall j, (j < k)%nat ->
     exists cj gj,
       generate_random_threat environment_range radius_range
         (Nat.iter j (fun s => advance (advance (advance s))) g) = Return (cj, gj) /\
       existsb (fun circle => intersects circle cj) circles = true) ->
  generate_random_threat environment_range radius_range
    (Nat.iter k (fun s => advance (advance (advance s))) g) = Return (c, g') ->
  existsb (fun circle => intersects circle c) circles = false ->
  forall fuel, (k < fuel)%nat ->
    generate_non_intersecting_random_circle fuel intersects circles
      environment_range radius_range g = Return (c, g').
Proof.
  revert g. induction k as [| k IH]; intros g Hbefore Hk Hfree fuel Hfuel;
    (destruct fuel as [| fuel]; [lia |]);
    cbn [generate_non_intersecting_random_circle].
  - cbn [Nat.iter nat_rect] in Hk. rewrite Hk. cbn [bind fst snd].
    rewrite Hfree. reflexivity.
  - destruct (Hbefore O ltac:(lia)) as [c0 [g0 [E0 Ex0]]].
    cbn [Nat.iter nat_rect] in E0. rewrite E0. cbn [bind fst snd]. rewrite Ex0.
    destruct (generate_random_threat_draws _ _ _ _ _ E0)
      as [_ [_ [_ [_ [-> _]]]]].
    apply IH; [| | exact Hfree | lia].
    + intros j Hj. destruct (Hbefore (S j) ltac:(lia)) as [cj [gj [Ej Exj]]].
      rewrite Nat.iter_succ_r in Ej. exists cj, gj. split; assumption.
    + rewrite Nat.iter_succ_r in Hk. exact Hk.
Qed.

Lemma generate_non_intersecting_random_circle_first_free_witness :
  generate_non_intersecting_random_circle 2 rims_within_10 [corner50]
    (1000, 1000)%Z (50, 150)%Z zeros_then_500
  = Return (Circle_init (mkCoord 646 646) 146,
            advance (advance (advance (advance (advance (advance zeros_then_500)))))).
Proof.
  apply (generate_non_intersecting_random_circle_first_free
           rims_within_10 [corner50] (1000, 1000)%Z (50, 150)%Z 1 zeros_then_500).
  - intros j Hj. assert (j = O) as -> by lia.
    exists (Circle_init (mkCoord 50 50) 50), (advance (advance (advance zeros_then_500))).
    exact first_draw_on_corner50.
  - exact (proj1 second_draw_off_corner50).
  - exact (proj2 second_draw_off_corner50).
  - lia.
Defined.

(** ** [path_intersection_length]: the risk of a path *)

Lemma sum_from (l : list R) (acc : R) : fold_left Rplus l acc = acc + sum l.
Proof.
  unfold sum. revert acc. induction l as [| a l IH]; intros acc; simpl.
  - ring.
  - rewrite (IH (acc + a)), (IH (0 + a)). ring.
Qed.

Lemma sum_cons (a : R) (l : list R) : sum (a :: l) = a + sum l.
Proof. unfold sum at 1. simpl. rewrite sum_from. ring. Qed.

Lemma sum_app (l1 l2 : list R) : sum (l1 ++ l2) = sum l1 + sum l2.
Proof.
  induction l1 as [| a l1 IH]; simpl.
  - unfold sum at 2. simpl. ring.
  - rewrite !sum_cons, IH. ring.
Qed.

Lemma sum_rev (l : list R) : sum (rev l) = sum l.
Proof.
  induction l as [| a l IH]; simpl; [reflexivity |].
  rewrite sum_app, IH, (sum_cons a []), (sum_cons a l).
  change (sum []) with 0. ring.
Qed.

Lemma segments_cons (p q : Coord) (rest : list Coord) :
  segments (p :: q :: rest) = mkSegment p q :: segments (q :: rest).
Proof. reflexivity. Qed.

Lemma path_intersection_length_cons (c : Circle) (p q : Coord) (rest : list Coord) :
  path_intersection_length c (p :: q :: rest)
  = intersection_length c (mkSegment p q) + path_intersection_length c (q :: rest).
Proof.
  unfold path_intersection_length. rewrite segments_cons. cbn [map].
  apply sum_cons.
Qed.

Lemma path_length_cons (p q : Coord) (rest : list Coord) :
  path_length (p :: q :: rest) = distance_to p q + path_length (q :: rest).
Proof. reflexivity. Qed.

(** The part of a segment inside the disk is no longer than the segment. *)
Lemma intersection_length_bounds (c : Circle) (s : Segment) :
  0 <= intersection_length c s <= length_of s.
Proof.
  pose proof (distance_to_nonneg (seg_a s) (seg_b s)) as Hlen.
  unfold intersection_length, length_of. cbv zeta.
  set (qa := (x (seg_b s) - x (seg_a s)) * (x (seg_b s) - x (seg_a s)) +
             (y (seg_b s) - y (seg_a s)) * (y (seg_b s) - y (seg_a s))).
  assert (sqrt qa = distance_to (seg_a s) (seg_b s)) as Hq
    by (unfold qa, distance_to; f_equal; ring).
  destruct (Rle_dec qa 0) as [_ | _]; [lra |].
  destruct (Rlt_dec _ 0) as [_ | _]; [lra |].
  match goal with
  | |- context [Rlt_dec (Rmax 0 ?t1) (Rmin 1 ?t2)] =>
      set (lo := Rmax 0 t1); set (hi := Rmin 1 t2)
  end.
  destruct (Rlt_dec lo hi) as [Hlt | _]; [| lra].
  assert (0 <= lo) by apply Rmax_l. assert (hi <= 1) by apply Rmin_l.
  rewrite Hq. split.
  - apply Rmult_le_pos; lra.
  - assert ((hi - lo) * distance_to (seg_a s) (seg_b s)
            <= 1 * distance_to (seg_a s) (seg_b s))
      by (apply Rmult_le_compat_r; lra).
    lra.
Qed.

(** X16.  The risk of a path is never negative and never more than the
    length of the path. *)
Theorem path_intersection_length_bounds (c : Circle) (path : list Coord) :
  0 <= path_intersection_length c path <= path_length path.
Proof.
  induction path as [| p [| q rest] IH].
  - unfold path_intersection_length, path_length, sum; simpl; lra.
  - unfold path_intersection_length, path_length, sum; simpl; lra.
  - rewrite path_intersection_length_cons, path_length_cons.
    pose proof (intersection_length_bounds c (mkSegment p q)) as H.
    unfold length_of in H. cbn [seg_a seg_b] in H. lra.
Qed.

Lemma quadratic_factored (qa qb qc t : R) :
  0 < qa -> 0 <= qb * qb - 4 * qa * qc ->
  qa * (t * t) + qb * t + qc
  = qa * ((t - (- qb - sqrt (qb * qb - 4 * qa * qc)) / (2 * qa))
          * (t - (- qb + sqrt (qb * qb - 4 * qa * qc)) / (2 * qa))).
Proof.
  intros Ha Hdisc.
  set (r := sqrt (qb * qb - 4 * qa * qc)).
  assert (r * r = qb * qb - 4 * qa * qc) as Hr by (apply sqrt_sqrt; exact Hdisc).
  replace qc with ((qb * qb - r * r) / (4 * qa)) by (rewrite Hr; field; lra).
  field; lra.
Qed.

Lemma path_intersection_length_single (c : Circle) (p : Coord) :
  path_intersection_length c [p] = 0.
Proof. reflexivity. Qed.

(** The risk of a path cut at one of its points. *)
Lemma risk_at_joint (c : Circle) (before : list Coord) (joint : Coord)
    (after : list Coord) :
  path_intersection_length c (before ++ joint :: after)
  = path_intersection_length c (before ++ [joint])
    + path_intersection_length c (joint :: after).
Proof.
  induction before as [| p [| q rest] IH].
  - cbn [app]. rewrite path_intersection_length_single. ring.
  - cbn [app]. rewrite !path_intersection_length_cons,
      path_intersection_length_single. ring.
  - cbn [app] in *. rewrite !path_intersection_length_cons, IH. ring.
Qed.

(** The part of a segment inside the disk, with the segment run from its
    other end. *)
Lemma intersection_length_swapped (c : Circle) (a b : Coord) :
  intersection_length c (mkSegment b a) = intersection_length c (mkSegment a b).
Proof.
  unfold intersection_length. cbv zeta. cbn [seg_a seg_b].
  set (qa := (x b - x a) * (x b - x a) + (y b - y a) * (y b - y a)).
  set (qb := 2 * ((x a - x (center c)) * (x b - x a)
                  + (y a - y (center c)) * (y b - y a))).
  set (qc := (x a - x (center c)) * (x a - x (center c))
             + (y a - y (center c)) * (y a - y (center c)) - radius c * radius c).
  set (qa' := (x a - x b) * (x a - x b) + (y a - y b) * (y a - y b)).
  set (qb' := 2 * ((x b - x (center c)) * (x a - x b)
                   + (y b - y (center c)) * (y a - y b))).
  set (qc' := (x b - x (center c)) * (x b - x (center c))
              + (y b - y (center c)) * (y b - y (center c)) - radius c * radius c).
  assert (qa' = qa) as Ea by (unfold qa', qa; ring).
  assert (qb' = - qb - 2 * qa) as Eb by (unfold qb', qb, qa; ring).
  assert (qc' = qa + qb + qc) as Ec by (unfold qc', qa, qb, qc; ring).
  clearbody qa' qb' qc'. subst qa' qb' qc'. clearbody qa qb qc.
  destruct (Rle_dec qa 0) as [_ | Hqa]; [reflexivity |].
  replace ((- qb - 2 * qa) * (- qb - 2 * qa) - 4 * qa * (qa + qb + qc))
    with (qb * qb - 4 * qa * qc) by ring.
  destruct (Rlt_dec (qb * qb - 4 * qa * qc) 0) as [_ | _]; [reflexivity |].
  set (r := sqrt (qb * qb - 4 * qa * qc)).
  set (t1 := (- qb - r) / (2 * qa)). set (t2 := (- qb + r) / (2 * qa)).
  replace ((- (- qb - 2 * qa) - r) / (2 * qa)) with (1 - t2)
    by (unfold t2; field; lra).
  replace ((- (- qb - 2 * qa) + r) / (2 * qa)) with (1 - t1)
    by (unfold t1; field; lra).
  assert (Rmax 0 (1 - t2) = 1 - Rmin 1 t2) as ->
    by (unfold Rmax, Rmin; destruct (Rle_dec 0 (1 - t2)), (Rle_dec 1 t2); lra).
  assert (Rmin 1 (1 - t1) = 1 - Rmax 0 t1) as ->
    by (unfold Rmax, Rmin; destruct (Rle_dec 1 (1 - t1)), (Rle_dec 0 t1); lra).
  destruct (Rlt_dec (1 - Rmin 1 t2) (1 - Rmax 0 t1)),
           (Rlt_dec (Rmax 0 t1) (Rmin 1 t2)); lra.
Qed.

Lemma risk_reversed (c : Circle) (path : list Coord) :
  path_intersection_length c (rev path) = path_intersection_length c path.
Proof.
  induction path as [| p [| q rest] IH].
  - reflexivity.
  - reflexivity.
  - change (rev (p :: q :: rest)) with (rev (q :: rest) ++ [p]).
    cbn [rev] in *. rewrite <- app_assoc. cbn [app].
    rewrite risk_at_joint, IH.
    rewrite !path_intersection_length_cons, path_intersection_length_single.
    rewrite (intersection_length_swapped c p q). ring.
Qed.

Lemma length_at_joint (before : list Coord) (joint : Coord) (after : list Coord) :
  path_length (before ++ joint :: after)
  = path_length (before ++ [joint]) + path_length (joint :: after).
Proof.
  induction before as [| p [| q rest] IH].
  - cbn [app]. unfold path_length at 2. simpl. ring.
  - cbn [app]. rewrite !path_length_cons. unfold path_length at 2. simpl. ring.
  - cbn [app] in *. rewrite !path_length_cons, IH. ring.
Qed.

Lemma length_reversed (path : list Coord) : path_length (rev path) = path_length path.
Proof.
  induction path as [| p [| q rest] IH].
  - reflexivity.
  - reflexivity.
  - change (rev (p :: q :: rest)) with (rev (q :: rest) ++ [p]).
    cbn [rev] in *. rewrite <- app_assoc. cbn [app].
    rewrite length_at_joint, IH, !path_length_cons.
    rewrite (distance_to_sym q p). unfold path_length at 2. simpl. ring.
Qed.

(** X17.  Joining two paths adds up their risks and the risk of the segment
    that joins them, from the last point of the first to the first point of
    the second. *)
Theorem path_intersection_length_app (c : Circle) (first_path second_path : list Coord)
    (a b : Coord) :
  last first_path a = a -> hd b second_path = b ->
  first_path <> [] -> second_path <> [] ->
  path_intersection_length c (first_path ++ second_path)
  = path_intersection_length c first_path
    + intersection_length c (mkSegment a b)
    + path_intersection_length c second_path.
Proof.
  intros Ha Hb Hne1 Hne2.
  destruct (exists_last Hne1) as [init [a' ->]].
  rewrite last_last in Ha. subst a'.
  destruct second_path as [| b' rest]; [contradiction |].
  cbn [hd] in Hb. subst b'.
  rewrite <- app_assoc. cbn [app].
  rewrite risk_at_joint, path_intersection_length_cons. ring.
Qed.

Lemma path_intersection_length_app_witness :
  path_intersection_length threat5 ([source8; mkCoord (-4) 3] ++ [mkCoord 3 4; target8])
  = path_intersection_length threat5 [source8; mkCoord (-4) 3]
    + intersection_length threat5 (mkSegment (mkCoord (-4) 3) (mkCoord 3 4))
    + path_intersection_length threat5 [mkCoord 3 4; target8].
Proof.
  apply (path_intersection_length_app threat5 [source8; mkCoord (-4) 3]
           [mkCoord 3 4; target8] (mkCoord (-4) 3) (mkCoord 3 4)).
  - reflexivity.
  - reflexivity.
  - discriminate.
  - discriminate.
Defined.

(** X18.  A path flown backwards has the same risk, as it has the same
    length. *)
Theorem path_intersection_length_rev (c : Circle) (path : list Coord) :
  path_intersection_length c (rev path) = path_intersection_length c path /\
  path_length (rev path) = path_length path /\
  (forall a b, intersection_length c (mkSegment b a)
               = intersection_length c (mkSegment a b)).
Proof.
  split; [| split].
  - apply risk_reversed.
  - apply length_reversed.
  - intros a b. apply intersection_length_swapped.
Qed.

(** ** The boundary between two points keeps clear of the circle *)

Lemma PI_upper : PI <= 52 / 15.
Proof.
  pose proof (PI_ineq 1) as [_ H].
  unfold sum_f_R0, tg_alt, PI_tg in H. simpl in H. lra.
Qed.

Lemma ANGLE_STEP_upper : ANGLE_STEP <= 52 / 600.
Proof.
  unfold ANGLE_STEP. rewrite INR_BUFFER_RESOLUTION.
  pose proof PI_upper. lra.
Qed.

Lemma cos_lower (g : R) : 0 <= g <= PI -> 1 - g * g / 2 <= cos g.
Proof.
  intros [H0 H1].
  replace g with (2 * (g / 2)) at 3 by field. rewrite cos_2a_sin.
  assert (0 <= sin (g / 2) <= g / 2) as [Hs0 Hs1].
  { split.
    - apply sin_ge_0; lra.
    - destruct H0 as [Hpos | <-].
      + left. apply sin_lt_x. lra.
      + replace (0 / 2) with 0 by field. rewrite sin_0. lra. }
  assert (sin (g / 2) * sin (g / 2) <= g / 2 * (g / 2))
    by (apply Rmult_le_compat; lra).
  lra.
Qed.

(** A segment that nowhere comes nearer to the centre than the radius has
    no part inside the disk. *)
Lemma intersection_length_zero (c : Circle) (s : Segment) :
  0 <= radius c ->
  (forall t, 0 <= t <= 1 ->
     radius c <= distance_to (mix t (seg_a s) (seg_b s)) (center c)) ->
  intersection_length c s = 0.
Proof.
  intros Hr Hfar. unfold intersection_length. cbv zeta.
  set (qa := (x (seg_b s) - x (seg_a s)) * (x (seg_b s) - x (seg_a s)) +
             (y (seg_b s) - y (seg_a s)) * (y (seg_b s) - y (seg_a s))).
  set (qb := 2 * ((x (seg_a s) - x (center c)) * (x (seg_b s) - x (seg_a s))
                  + (y (seg_a s) - y (center c)) * (y (seg_b s) - y (seg_a s)))).
  set (qc := (x (seg_a s) - x (center c)) * (x (seg_a s) - x (center c))
             + (y (seg_a s) - y (center c)) * (y (seg_a s) - y (center c))
             - radius c * radius c).
  destruct (Rle_dec qa 0) as [_ | Hqa]; [reflexivity |].
  destruct (Rlt_dec (qb * qb - 4 * qa * qc) 0) as [_ | Hdisc]; [reflexivity |].
  set (t1 := (- qb - sqrt (qb * qb - 4 * qa * qc)) / (2 * qa)).
  set (t2 := (- qb + sqrt (qb * qb - 4 * qa * qc)) / (2 * qa)).
  destruct (Rlt_dec (Rmax 0 t1) (Rmin 1 t2)) as [Hlt | _]; [exfalso | reflexivity].
  pose proof (Rmax_l 0 t1). pose proof (Rmax_r 0 t1).
  pose proof (Rmin_l 1 t2). pose proof (Rmin_r 1 t2).
  set (lo := Rmax 0 t1) in *. set (hi := Rmin 1 t2) in *.
  set (m := (lo + hi) / 2).
  assert (0 <= m <= 1) as Hm by (unfold m; lra).
  pose proof (quadratic_factored qa qb qc m ltac:(lra) ltac:(lra)) as Hfac.
  fold t1 t2 in Hfac.
  assert (0 < qa * ((m - t1) * (t2 - m))) as Hneg.
  { apply Rmult_lt_0_compat; [lra |]. apply Rmult_lt_0_compat; unfold m; lra. }
  pose proof (Hfar m Hm) as Hd.
  pose proof (distance_to_sqr (mix m (seg_a s) (seg_b s)) (center c)) as Hsq.
  assert ((x (mix m (seg_a s) (seg_b s)) - x (center c))
          * (x (mix m (seg_a s) (seg_b s)) - x (center c))
          + (y (mix m (seg_a s) (seg_b s)) - y (center c))
            * (y (mix m (seg_a s) (seg_b s)) - y (center c))
          = qa * (m * m) + qb * m + qc + radius c * radius c) as E
    by (unfold mix, qa, qb, qc; cbn [x y]; ring).
  rewrite E in Hsq.
  assert (radius c * radius c
          <= distance_to (mix m (seg_a s) (seg_b s)) (center c)
             * distance_to (mix m (seg_a s) (seg_b s)) (center c))
    by (apply Rmult_le_compat; lra).
  lra.
Qed.

(** Two points of the outer circle no more than [ANGLE_STEP] apart: the
    straight line between them stays out of the disk, for a radius up to
    [1000]. *)
Lemma chord_clear (c : Circle) (alpha g : R) :
  0 <= radius c <= 1000 -> 0 <= g <= ANGLE_STEP ->
  intersection_length c (mkSegment (point_at c alpha) (point_at c (alpha + g))) = 0.
Proof.
  intros [Hr0 Hr1] [Hg0 Hg1]. apply intersection_length_zero; [exact Hr0 |].
  intros t [Ht0 Ht1]. cbn [seg_a seg_b].
  pose proof ANGLE_STEP_upper as Hstep. pose proof PI_RGT_0 as Hpi.
  assert (ANGLE_STEP <= PI)
    by (unfold ANGLE_STEP; rewrite INR_BUFFER_RESOLUTION; lra).
  pose proof (cos_lower g ltac:(lra)) as Hcos.
  pose proof (COS_bound g) as [_ Hcos1].
  assert (g * g <= 52 / 600 * (52 / 600)) as Hgg by (apply Rmult_le_compat; lra).
  set (q := mix t (point_at c alpha) (point_at c (alpha + g))).
  pose proof (distance_to_nonneg q (center c)) as Hd0.
  pose proof (distance_to_sqr q (center c)) as Hsq.
  pose proof (sin2_cos2 alpha) as Ha. pose proof (sin2_cos2 g) as Hg.
  unfold Rsqr in Ha, Hg.
  assert ((x q - x (center c)) * (x q - x (center c))
          + (y q - y (center c)) * (y q - y (center c))
          = (radius c + EPSILON) * (radius c + EPSILON)
            * (1 - 2 * (t * (1 - t)) * (1 - cos g))) as E.
  { unfold q, mix, point_at, shifted. cbn [x y]. rewrite cos_plus, sin_plus.
    match goal with
    | |- ?L = _ =>
        replace L with
          ((radius c + EPSILON) * (radius c + EPSILON)
           * ((1 - t) * (1 - t) * (sin alpha * sin alpha + cos alpha * cos alpha)
              + t * t * ((sin alpha * sin alpha + cos alpha * cos alpha)
                         * (sin g * sin g + cos g * cos g))
              + 2 * t * (1 - t) * cos g
                * (sin alpha * sin alpha + cos alpha * cos alpha))) by ring
    end.
    rewrite Ha, Hg. ring. }
  rewrite E in Hsq. clear E.
  assert (0 <= t * (1 - t) <= 1 / 4) as [Hu0 Hu1].
  { split; [apply Rmult_le_pos; lra |].
    pose proof (Rle_0_sqr (t - 1 / 2)) as H2. unfold Rsqr in H2. lra. }
  assert (t * (1 - t) * (1 - cos g) <= 1 / 4 * (1 - cos g))
    by (apply Rmult_le_compat_r; lra).
  set (R2 := (radius c + EPSILON) * (radius c + EPSILON)) in *.
  assert (0 <= R2) by (unfold R2; apply Rle_0_sqr).
  assert (R2 * (1 - 169 / 90000) <= R2 * (1 - 2 * (t * (1 - t)) * (1 - cos g)))
    by (apply Rmult_le_compat_l; lra).
  assert (radius c * radius c <= 1000 * radius c)
    by (apply Rmult_le_compat_r; lra).
  assert (radius c * radius c <= R2 * (1 - 169 / 90000))
    by (unfold R2, EPSILON; lra).
  destruct (Rle_dec (radius c) (distance_to q (center c))) as [Hle | Hgt];
    [exact Hle | exfalso].
  assert (distance_to q (center c) * distance_to q (center c)
          < radius c * radius c)
    by (apply Rmult_le_0_lt_compat; lra).
  lra.
Qed.

Lemma steps_below_shift (from to : R) (n : nat) :
  steps_below from to (S n) -> steps_below (from + ANGLE_STEP) to n.
Proof.
  intros [Hin Hout]. split.
  - intros k Hk. pose proof (Hin (S k) ltac:(lia)) as H. rewrite S_INR in H. lra.
  - rewrite S_INR in Hout. lra.
Qed.

Lemma sampled_interval_clear (c : Circle) (to far_end : R) :
  0 <= radius c <= 1000 ->
  point_at c far_end = point_at c to ->
  forall n from,
    steps_below from to n ->
    path_intersection_length c (sampled_interval c from to n far_end) = 0.
Proof.
  intros Hr Hend. pose proof ANGLE_STEP_pos as Hstep.
  induction n as [| n IH]; intros from Hsteps; [reflexivity |].
  pose proof (IH _ (steps_below_shift _ _ _ Hsteps)) as Hrest.
  unfold sampled_interval in *. rewrite arc_points_S. cbn [app].
  destruct n as [| n].
  - cbn [arc_points seq map app] in *. rewrite path_intersection_length_cons, Hrest.
    rewrite Hend. destruct Hsteps as [Hin Hout].
    pose proof (Hin O ltac:(lia)) as H0. simpl in H0, Hout.
    replace to with (from + (to - from)) by ring.
    rewrite chord_clear; [ring | exact Hr | lra].
  - rewrite arc_points_S in *. cbn [app] in *.
    rewrite path_intersection_length_cons, Hrest.
    rewrite chord_clear; [ring | exact Hr | lra].
Qed.

(** X19.  The boundary between two points keeps clear of the circle: for a
    radius up to [1000], the polyline through the points returned has no
    part inside the disk of the circle, which holds the inner polygon: its
    risk is [0]. *)
Theorem get_boundary_between_clear (c : Circle) (start end_ : Coord) (extra : nat)
    (l : list Coord) :
  0 <= radius c <= 1000 ->
  get_boundary_between (BUFFER_RESOLUTION + extra) c start end_ = Return l ->
  path_intersection_length c l = 0.
Proof.
  intros Hr Hret.
  destruct (get_boundary_between_shape c start end_ extra)
    as [n [_ [Hsteps [_ Hshape]]]].
  rewrite Hshape in Hret. injection Hret as <-.
  match goal with
  | |- context [sampled_interval c ?A ?bound n ?B] =>
      assert (point_at c B = point_at c bound) as Hend
  end.
  { destruct (Rleb _ PI); [reflexivity | symmetry; apply point_at_turn]. }
  destruct (Rltb _ _); [| rewrite risk_reversed];
    apply sampled_interval_clear; assumption.
Qed.

Lemma get_boundary_between_clear_witness :
  exists l,
    get_boundary_between (BUFFER_RESOLUTION + 0) threat5 source8 target8 = Return l /\
    path_intersection_length threat5 l = 0.
Proof.
  destruct (get_boundary_between_shape threat5 source8 target8 0)
    as [n [_ [_ [_ Hshape]]]].
  eexists. split; [exact Hshape |].
  apply (get_boundary_between_clear threat5 source8 target8 0 _);
    [simpl; lra | exact Hshape].
Defined.

(** ** [arc_length_between]: range *)

(** X20.  For a circle of positive radius the arc length between two points
    does not depend on their order, is [0] from a point to itself, and lies
    between [0] and the perimeter, which it never reaches. *)
Theorem arc_length_between_range (c : Circle) (start end_ : Coord) :
  0 < radius c ->
  arc_length_between c start end_ = arc_length_between c end_ start /\
  arc_length_between c start start = 0 /\
  0 <= arc_length_between c start end_ < perimeter c.
Proof.
  intros Hr. unfold arc_length_between, perimeter, calculate_directional_angle_of_line.
  cbv zeta. fold (radius c).
  pose proof (atan2_bound (y start - y (center c)) (x start - x (center c))) as H1.
  pose proof (atan2_bound (y end_ - y (center c)) (x end_ - x (center c))) as H2.
  set (angle1 := atan2 (y start - y (center c)) (x start - x (center c))) in *.
  set (angle2 := atan2 (y end_ - y (center c)) (x end_ - x (center c))) in *.
  split; [rewrite Rabs_minus_sym; reflexivity |].
  split.
  - replace (angle1 - angle1) with 0 by ring. rewrite Rabs_R0. ring.
  - pose proof (Rabs_pos (angle1 - angle2)) as Hpos.
    assert (Rabs (angle1 - angle2) < 2 * PI) as Hlt
      by (apply Rabs_def1; lra).
    split.
    + apply Rmult_le_pos; lra.
    + apply Rmult_lt_compat_r; lra.
Qed.

Lemma arc_length_between_range_witness :
  arc_length_between threat5 source8 target8
  = arc_length_between threat5 target8 source8 /\
  arc_length_between threat5 source8 source8 = 0 /\
  0 <= arc_length_between threat5 source8 target8 < perimeter threat5.
Proof.
  apply (arc_length_between_range threat5 source8 target8). simpl. lra.
Defined.

(** ** The length of the boundary between two points *)

(** A chord of the outer circle is no longer than its arc. *)
Lemma chord_length (c : Circle) (alpha g : R) :
  0 <= radius c + EPSILON -> 0 <= g <= PI ->
  distance_to (point_at c alpha) (point_at c (alpha + g))
  <= (radius c + EPSILON) * g.
Proof.
  intros HR Hg. pose proof (cos_lower g Hg) as Hcos.
  set (p := point_at c alpha). set (q := point_at c (alpha + g)).
  pose proof (distance_to_nonneg p q) as Hd0.
  pose proof (distance_to_sqr p q) as Hsq.
  pose proof (sin2_cos2 alpha) as Ha. pose proof (sin2_cos2 g) as Hg2.
  unfold Rsqr in Ha, Hg2.
  assert ((x p - x q) * (x p - x q) + (y p - y q) * (y p - y q)
          = (radius c + EPSILON) * (radius c + EPSILON) * (2 * (1 - cos g))) as E.
  { unfold p, q, point_at, shifted. cbn [x y]. rewrite cos_plus, sin_plus.
    match goal with
    | |- ?L = _ =>
        replace L with
          ((radius c + EPSILON) * (radius c + EPSILON)
           * ((sin alpha * sin alpha + cos alpha * cos alpha)
              + (sin alpha * sin alpha + cos alpha * cos alpha)
                * (sin g * sin g + cos g * cos g)
              - 2 * cos g * (sin alpha * sin alpha + cos alpha * cos alpha)))
          by ring
    end.
    rewrite Ha, Hg2. ring. }
  rewrite E in Hsq. clear E.
  set (R2 := (radius c + EPSILON) * (radius c + EPSILON)) in *.
  assert (0 <= R2) by (unfold R2; apply Rle_0_sqr).
  assert (R2 * (2 * (1 - cos g)) <= R2 * (g * g))
    by (apply Rmult_le_compat_l; lra).
  assert (0 <= (radius c + EPSILON) * g) as Hrg by (apply Rmult_le_pos; lra).
  destruct (Rle_dec (distance_to p q) ((radius c + EPSILON) * g)) as [Hle | Hgt];
    [exact Hle | exfalso].
  assert ((radius c + EPSILON) * g * ((radius c + EPSILON) * g)
          < distance_to p q * distance_to p q)
    by (apply Rmult_le_0_lt_compat; lra).
  replace ((radius c + EPSILON) * g * ((radius c + EPSILON) * g))
    with (R2 * (g * g)) in * by (unfold R2; ring).
  lra.
Qed.

Lemma sampled_interval_length (c : Circle) (to far_end : R) :
  0 <= radius c + EPSILON ->
  point_at c far_end = point_at c to ->
  forall n from,
    from <= to ->
    steps_below from to n ->
    path_length (sampled_interval c from to n far_end)
    <= (radius c + EPSILON) * (to - from).
Proof.
  intros HR Hend. pose proof ANGLE_STEP_pos as Hstep.
  assert (ANGLE_STEP <= PI) as HstepPI
    by (unfold ANGLE_STEP; rewrite INR_BUFFER_RESOLUTION; pose proof PI_RGT_0; lra).
  induction n as [| n IH]; intros from Hle Hsteps.
  - unfold sampled_interval, path_length. simpl. apply Rmult_le_pos; lra.
  - pose proof (steps_below_shift _ _ _ Hsteps) as Hshift.
    unfold sampled_interval in *. rewrite arc_points_S. cbn [app].
    destruct n as [| n].
    + cbn [arc_points seq map app] in *. rewrite path_length_cons.
      unfold path_length at 1. cbn [segments map fold_right].
      rewrite Hend. destruct Hsteps as [Hin Hout].
      pose proof (Hin O ltac:(lia)) as H0. simpl in H0, Hout.
      replace to with (from + (to - from)) at 1 by ring.
      pose proof (chord_length c from (to - from) HR ltac:(lra)). lra.
    + destruct Hsteps as [Hin Hout].
      pose proof (Hin 1%nat ltac:(lia)) as H1. simpl in H1.
      pose proof (IH (from + ANGLE_STEP) ltac:(lra) Hshift) as Hrest.
      rewrite arc_points_S in *. cbn [app] in *.
      rewrite path_length_cons.
      pose proof (chord_length c from ANGLE_STEP HR ltac:(lra)).
      replace ((radius c + EPSILON) * (to - from))
        with ((radius c + EPSILON) * ANGLE_STEP
              + (radius c + EPSILON) * (to - (from + ANGLE_STEP))) by ring.
      lra.
Qed.

(** X21.  The polyline through the points returned is no longer than the
    shorter of the two arcs of the outer circle (radius [radius + EPSILON])
    between the directions of [start] and [end]. *)
Theorem get_boundary_between_length (c : Circle) (start end_ : Coord) (extra : nat)
    (l : list Coord) :
  0 <= radius c ->
  get_boundary_between (BUFFER_RESOLUTION + extra) c start end_ = Return l ->
  let turn := Rabs (calculate_directional_angle_of_line (center c) start
                    - calculate_directional_angle_of_line (center c) end_) in
  path_length l <= (radius c + EPSILON) * Rmin turn (2 * PI - turn).
Proof.
  intros Hr Hret turn.
  assert (0 <= radius c + EPSILON) as HR by (unfold EPSILON; lra).
  destruct (get_boundary_between_shape c start end_ extra)
    as [n [_ [Hsteps [_ Hshape]]]].
  rewrite Hshape in Hret. injection Hret as <-.
  set (t1 := calculate_directional_angle_of_line (center c) start) in *.
  set (t2 := calculate_directional_angle_of_line (center c) end_) in *.
  set (lo := Rmin t1 t2) in *. set (hi := Rmax t1 t2) in *.
  assert (turn = hi - lo /\ lo <= hi) as [Hturn Hlohi].
  { unfold turn, lo, hi, Rmin, Rmax, Rabs.
    destruct (Rle_dec t1 t2), (Rcase_abs (t1 - t2)); split; lra. }
  assert (hi - lo < 2 * PI) as Hfull.
  { unfold lo, hi, t1, t2, calculate_directional_angle_of_line, Rmin, Rmax.
    pose proof (atan2_bound (y start - y (center c)) (x start - x (center c))).
    pose proof (atan2_bound (y end_ - y (center c)) (x end_ - x (center c))).
    destruct (Rle_dec _ _); lra. }
  destruct (Rleb (hi - lo) PI) eqn:Hcase.
  - apply Rleb_true in Hcase.
    rewrite Hturn, Rmin_left by lra.
    destruct (Rltb _ _); [| rewrite length_reversed];
      apply sampled_interval_length; auto.
  - apply Rleb_false in Hcase.
    rewrite Hturn, Rmin_right by lra.
    replace (2 * PI - (hi - lo)) with (lo + 2 * PI - hi) by ring.
    destruct (Rltb _ _); [| rewrite length_reversed];
      apply sampled_interval_length; auto; try lra;
      symmetry; apply point_at_turn.
Qed.

Lemma get_boundary_between_length_witness :
  exists l,
    get_boundary_between (BUFFER_RESOLUTION + 0) threat5 source8 target8 = Return l /\
    path_length l
    <= (radius threat5 + EPSILON)
       * Rmin (Rabs (calculate_directional_angle_of_line (center threat5) source8
                     - calculate_directional_angle_of_line (center threat5) target8))
              (2 * PI
               - Rabs (calculate_directional_angle_of_line (center threat5) source8
                       - calculate_directional_angle_of_line (center threat5) target8)).
Proof.
  destruct (get_boundary_between_shape threat5 source8 target8 0)
    as [n [_ [_ [_ Hshape]]]].
  eexists. split; [exact Hshape |].
  apply (get_boundary_between_length threat5 source8 target8 0 _);
    [simpl; lra | exact Hshape].
Defined.
